(** * Notebook pipelines of senscience/notebooks

    A shallow embedding of the data-handling logic of the two exploratory
    notebooks (the MomCare notebook and the marine-biodiversity notebook):
    the column normalizer, the byte/text decoding helpers, the cohort
    assigner, the summary-statistics aggregator and the patient-clinic
    network builder.

    Conventions.
    - A Python [str] is a [string]: the UTF-8 encoding of the text.  Every
      pattern the notebooks search for is ASCII, so a byte-level search
      finds exactly the code-point-level occurrences.
    - A missing cell (NaN / None / NaT) is [None].
    - A Python exception is an [Err] result. *)

From Stdlib Require Import ZArith Lia List Ascii String.
From Stdlib Require Import Sorting.Sorted Sorting.Permutation.
From stdpp Require Import base option list sorting strings gmap fin_maps fin_sets.

Local Open Scope string_scope.
Local Open Scope list_scope.

(** ** Results of computations that may raise *)

Inductive exn : Type :=
| UnicodeDecodeError
| ValueError.

Inductive result (A : Type) : Type :=
| Ok (a : A)
| Err (e : exn).
Arguments Ok {A} a.
Arguments Err {A} e.

#[global] Instance result_ret : MRet result := fun A a => Ok a.
#[global] Instance result_bind : MBind result := fun A B f r =>
  match r with
  | Ok a => f a
  | Err e => Err e
  end.

(** ** Column normalizer

    [df.rename(columns=lambda x: x.replace(prefix, "").split("/")[-1])] *)

Module ColumnNormalizer.

(** [s.startswith(p)] *)
Fixpoint startswith (p s : string) : bool :=
  match p, s with
  | EmptyString, _ => true
  | String a p', String b s' => if Ascii.eqb a b then startswith p' s' else false
  | String _ _, EmptyString => false
  end.

(** [p in s] for strings: some suffix of [s] starts with [p]. *)
Fixpoint contains (p s : string) : bool :=
  startswith p s ||
  match s with
  | EmptyString => false
  | String _ s' => contains p s'
  end.

(** [c in s] for a single character. *)
Fixpoint has_char (c : ascii) (s : string) : bool :=
  match s with
  | EmptyString => false
  | String b s' => Ascii.eqb b c || has_char c s'
  end.

(** Left-to-right scan of [str.replace] for a non-empty pattern: [skip]
    is the number of characters of the current match that are still to be
    dropped; outside a match the pattern is tried at every position and a
    match is replaced by [new], the scan resuming after it. *)
Fixpoint replace_scan (old new : string) (skip : nat) (s : string) : string :=
  match s with
  | EmptyString => EmptyString
  | String c s' =>
      match skip with
      | S k => replace_scan old new k s'
      | O =>
          if startswith old s
          then new +:+ replace_scan old new (String.length old - 1) s'
          else String c (replace_scan old new 0 s')
      end
  end.

(** For the empty pattern Python inserts [new] before every character and
    at the end. *)
Fixpoint replace_empty (new : string) (s : string) : string :=
  match s with
  | EmptyString => new
  | String c s' => new +:+ String c (replace_empty new s')
  end.

(** [s.replace(old, new)] *)
Definition replace (old new : string) (s : string) : string :=
  match old with
  | EmptyString => replace_empty new s
  | String _ _ => replace_scan old new 0 s
  end.

(** [s.split(sep)] for a one-character separator; never the empty list. *)
Fixpoint split (sep : ascii) (s : string) : list string :=
  match s with
  | EmptyString => [EmptyString]
  | String c s' =>
      if Ascii.eqb c sep then EmptyString :: split sep s'
      else match split sep s' with
           | seg :: segs => String c seg :: segs
           | [] => [String c EmptyString]
           end
  end.

(** [l[-1]]: [None] stands for the IndexError on an empty list. *)
Definition item_last (l : list string) : option string := last l.

Definition slash : ascii := "/"%char.

(** The renaming function applied to every column name.  A split is never
    empty, so the default is never taken. *)
Definition normalize (prefix : string) (x : string) : string :=
  default EmptyString (item_last (split slash (replace prefix "" x))).

(** The two prefixes of the notebooks. *)
Definition prefix_momcare : string := "https://sen.science/core/".
Definition prefix_marine : string := "https://sen.science/doi/10.71728/r1rj-f947/".


(** A table header is renamed name by name. *)
Definition rename_columns (prefix : string) (cols : list string) : list string :=
  map (normalize prefix) cols.

End ColumnNormalizer.

(** ** Cell values and byte decoding

    The record source yields text, numbers, missing values or raw byte
    strings.  The patient notebook decodes byte strings in two ways: with
    [x.decode()] (strict) for [patient_reference], [period_start] and
    [identifier_value], and with [decode_if_bytes] ([errors="ignore"]) for
    [birthDate] and [contact_organization_display]. *)

Module Decode.

Inductive value : Type :=
| Str (s : string)      (* str *)
| Bytes (b : string)    (* bytes *)
| Int (z : Z)           (* a number *)
| Null.                 (* None / NaN *)

(** The [errors=] argument of [bytes.decode]. *)
Inductive error_handler : Type := Strict | Ignore.

Definition byte_val (b : ascii) : N := N_of_ascii b.

Definition in_range (lo hi : N) (b : ascii) : bool :=
  (lo <=? byte_val b)%N && (byte_val b <=? hi)%N.

Definition is_continuation (b : ascii) : bool := in_range 128 191 b.

(** Role of a first byte in UTF-8. *)
Inductive lead : Type := OneByte | Lead2 | Lead3 | Lead4 | InvalidStart.

Definition classify (b : ascii) : lead :=
  if (byte_val b <? 128)%N then OneByte
  else if in_range 194 223 b then Lead2
  else if in_range 224 239 b then Lead3
  else if in_range 240 244 b then Lead4
  else InvalidStart.

(** The second byte of a three-byte sequence: no overlong form after E0, no
    surrogate after ED. *)
Definition second_of_3 (b0 b1 : ascii) : bool :=
  if (byte_val b0 =? 224)%N then in_range 160 191 b1
  else if (byte_val b0 =? 237)%N then in_range 128 159 b1
  else is_continuation b1.

(** The second byte of a four-byte sequence: no overlong form after F0,
    nothing beyond U+10FFFF after F4. *)
Definition second_of_4 (b0 b1 : ascii) : bool :=
  if (byte_val b0 =? 240)%N then in_range 144 191 b1
  else if (byte_val b0 =? 244)%N then in_range 128 143 b1
  else is_continuation b1.

(** What the decoder does at an ill-formed position: the strict handler
    raises, the ignoring handler goes on with [k], the decoding of the input
    after the offending bytes. *)
Definition on_error (errors : error_handler) (k : result string) : result string :=
  match errors with
  | Strict => Err UnicodeDecodeError
  | Ignore => k
  end.

(** A well-formed sequence [w] is kept in front of the rest. *)
Definition keep (w : string) (k : result string) : result string :=
  r ← k; Ok (w +:+ r).

(** [b.decode("utf-8", errors)], text being represented by its UTF-8 bytes.
    An invalid start byte is one offending byte; an invalid continuation
    byte ends the offending range just before it (so one, two or three
    bytes are dropped and decoding resumes at that byte); a sequence cut
    short by the end of the data makes all remaining bytes offending. *)
Fixpoint utf8_decode (errors : error_handler) (s : string) : result string :=
  match s with
  | EmptyString => Ok EmptyString
  | String b0 r0 =>
      match classify b0 with
      | OneByte => keep (String b0 "") (utf8_decode errors r0)
      | Lead2 =>
          match r0 with
          | EmptyString => on_error errors (Ok "")
          | String b1 r1 =>
              if is_continuation b1
              then keep (String b0 (String b1 "")) (utf8_decode errors r1)
              else on_error errors (utf8_decode errors r0)
          end
      | Lead3 =>
          match r0 with
          | EmptyString => on_error errors (Ok "")
          | String b1 r1 =>
              if second_of_3 b0 b1 then
                match r1 with
                | EmptyString => on_error errors (Ok "")
                | String b2 r2 =>
                    if is_continuation b2
                    then keep (String b0 (String b1 (String b2 "")))
                              (utf8_decode errors r2)
                    else on_error errors (utf8_decode errors r1)
                end
              else on_error errors (utf8_decode errors r0)
          end
      | Lead4 =>
          match r0 with
          | EmptyString => on_error errors (Ok "")
          | String b1 r1 =>
              if second_of_4 b0 b1 then
                match r1 with
                | EmptyString => on_error errors (Ok "")
                | String b2 r2 =>
                    if is_continuation b2 then
                      match r2 with
                      | EmptyString => on_error errors (Ok "")
                      | String b3 r3 =>
                          if is_continuation b3
                          then keep (String b0 (String b1 (String b2 (String b3 ""))))
                                    (utf8_decode errors r3)
                          else on_error errors (utf8_decode errors r2)
                      end
                    else on_error errors (utf8_decode errors r1)
                end
              else on_error errors (utf8_decode errors r0)
          end
      | InvalidStart => on_error errors (utf8_decode errors r0)
      end
  end.

(** [lambda x: x.decode() if isinstance(x, bytes) else x] *)
Definition decode_strict_if_bytes (x : value) : result value :=
  match x with
  | Bytes b => s ← utf8_decode Strict b; Ok (Str s)
  | _ => Ok x
  end.

(** [def decode_if_bytes(val)] *)
Definition decode_if_bytes (val : value) : result value :=
  match val with
  | Bytes b => s ← utf8_decode Ignore b; Ok (Str s)
  | _ => Ok val
  end.

(** [column.apply(f)]: the function is applied cell by cell, and the first
    exception ends the whole statement. *)
Fixpoint apply (f : value -> result value) (column : list value) : result (list value) :=
  match column with
  | [] => Ok []
  | x :: column' => y ← f x; ys ← apply f column'; Ok (y :: ys)
  end.

(** The decoded columns of the patient record set, in statement order:
    [patient_id] from [identifier_value], then [birthDate], then [org_name]
    from [contact_organization_display]. *)
Record patient_columns : Type := {
  identifier_value : list value;
  birthDate_raw : list value;
  contact_organization_display : list value
}.

Record patient_decoded : Type := {
  patient_id_col : list value;
  birthDate_col : list value;
  org_name_col : list value
}.

Definition decode_patient_columns (df : patient_columns) : result patient_decoded :=
  ids ← apply decode_strict_if_bytes (identifier_value df);
  births ← apply decode_if_bytes (birthDate_raw df);
  orgs ← apply decode_if_bytes (contact_organization_display df);
  Ok {| patient_id_col := ids; birthDate_col := births; org_name_col := orgs |}.

(** The decoded columns of the episode record set: [patient_id] from
    [patient_reference], then [period_start], both strictly. *)
Record episode_columns : Type := {
  patient_reference : list value;
  period_start : list value
}.

Definition decode_episode_columns (df : episode_columns)
    : result (list value * list value) :=
  ids ← apply decode_strict_if_bytes (patient_reference df);
  starts ← apply decode_strict_if_bytes (period_start df);
  Ok (ids, starts).

(** The byte string [b'\xff'], which is not UTF-8. *)
Definition invalid_bytes : value := Bytes (String (ascii_of_nat 255) "").

End Decode.

(** ** Cohort assigner *)

Module Cohort.
Local Open Scope Z_scope.

(** A [pandas.Timestamp] without time zone: nanoseconds since 1970-01-01.
    [NaT] is [None]. *)
Definition timestamp : Type := Z.

Definition digit (c : ascii) : option Z :=
  let n := N_of_ascii c in
  if (48 <=? n)%N && (n <=? 57)%N then Some (Z.of_N n - 48) else None.

Definition digits2 (a b : ascii) : option Z :=
  x ← digit a; y ← digit b; Some (10 * x + y).

Definition digits4 (a b c d : ascii) : option Z :=
  x ← digits2 a b; y ← digits2 c d; Some (100 * x + y).

Definition is_leap (y : Z) : bool :=
  ((y mod 4 =? 0) && negb (y mod 100 =? 0)) || (y mod 400 =? 0).

Definition days_in_month (y m : Z) : Z :=
  if m =? 2 then (if is_leap y then 29 else 28)
  else if (m =? 4) || (m =? 6) || (m =? 9) || (m =? 11) then 30
  else 31.

(** Days between 1970-01-01 and the civil date [y-m-d] of the proleptic
    Gregorian calendar. *)
Definition days_from_civil (y m d : Z) : Z :=
  let y' := if m <=? 2 then y - 1 else y in
  let era := y' / 400 in
  let yoe := y' - era * 400 in
  let mp := if m <=? 2 then m + 9 else m - 3 in
  let doy := (153 * mp + 2) / 5 + d - 1 in
  let doe := yoe * 365 + yoe / 4 - yoe / 100 + doy in
  era * 146097 + doe - 719468.

Definition ns_per_day : Z := 86400 * 1000000000.

(** [pd.to_datetime(s)] on the one form the notebook passes, a date
    [YYYY-MM-DD]: midnight of that day.  Anything else is a ValueError
    here. *)
Definition to_datetime (s : string) : result timestamp :=
  match s with
  | String y1 (String y2 (String y3 (String y4 (String "-"
      (String m1 (String m2 (String "-" (String d1 (String d2 EmptyString))))))))) =>
      match digits4 y1 y2 y3 y4, digits2 m1 m2, digits2 d1 d2 with
      | Some y, Some m, Some d =>
          if (1 <=? m) && (m <=? 12) && (1 <=? d) && (d <=? days_in_month y m)
          then Ok (days_from_civil y m d * ns_per_day)
          else Err ValueError
      | _, _, _ => Err ValueError
      end
  | _ => Err ValueError
  end.

(** A cohort window: label, first day, last day. *)
Definition interval : Type := string * string * string.

Definition cohorts : list interval :=
  [ ("Cohort 1", "2020-11-01", "2021-02-28");
    ("Cohort 2", "2021-03-01", "2021-06-30");
    ("Cohort 3", "2021-07-01", "2021-10-31");
    ("Cohort 4", "2021-11-01", "2022-02-28");
    ("Cohort 5", "2022-03-01", "2022-06-30");
    ("Cohort 6", "2022-07-01", "2022-10-31");
    ("Cohort 7", "2022-11-01", "2023-02-28");
    ("Cohort 8", "2023-03-01", "2023-06-30");
    ("Cohort 9", "2023-07-01", "2023-10-31") ].

(** The [for] loop of [assign_cohort].  The chained comparison
    [to_datetime(start) <= date <= to_datetime(end)] parses [end] only when
    the first comparison holds. *)
Fixpoint scan (cs : list interval) (date : timestamp) : result string :=
  match cs with
  | [] => Ok "Unassigned"
  | (label, start, end_) :: cs' =>
      s ← to_datetime start;
      if s <=? date then
        e ← to_datetime end_;
        if date <=? e then Ok label else scan cs' date
      else scan cs' date
  end.

(** [assign_cohort] over an interval list. *)
Definition assign_cohort_in (cs : list interval) (date : option timestamp) : result string :=
  match date with
  | None => Ok "Unassigned"
  | Some t => scan cs t
  end.

(** [def assign_cohort(date)] *)
Definition assign_cohort (date : option timestamp) : result string :=
  assign_cohort_in cohorts date.

(** [episode_df["start_date"].apply(assign_cohort)] *)
Fixpoint apply_assign (dates : list (option timestamp)) : result (list string) :=
  match dates with
  | [] => Ok []
  | d :: ds => l ← assign_cohort d; ls ← apply_assign ds; Ok (l :: ls)
  end.

(** The date [t] lies in the inclusive window of [c]. *)
Definition covers (c : interval) (t : timestamp) : Prop :=
  exists s e, to_datetime (c.1.2) = Ok s /\ to_datetime (c.2) = Ok e /\ s <= t <= e.

(** The same as a test, for windows whose two dates parse. *)
Definition coversb (c : interval) (t : timestamp) : bool :=
  match to_datetime (c.1.2), to_datetime (c.2) with
  | Ok s, Ok e => (s <=? t) && (t <=? e)
  | _, _ => false
  end.

Definition well_formed (c : interval) : Prop :=
  exists s e, to_datetime (c.1.2) = Ok s /\ to_datetime (c.2) = Ok e.

(** The window of [c1] ends before the window of [c2] begins. *)
Definition precedes (c1 c2 : interval) : Prop :=
  exists e1 s2, to_datetime c1.2 = Ok e1 /\ to_datetime c2.1.2 = Ok s2 /\ e1 < s2.

End Cohort.

(** ** Sorting a frame by an integer column

    Both notebooks sort by a count column in descending order
    ([sort_values(by='Count', ascending=False)], and the sort inside
    [value_counts]) and leave the algorithm to the default, [kind='quicksort'].
    pandas hands the column to NumPy's [argsort] of that kind, whose result
    is only specified as a permutation of the positions that puts the values
    in ascending order; which positions come first among equal values is up
    to the algorithm.  A [sort_kind] is any such algorithm. *)

Module Sorting.

(** [a[idx]] for an array of positions. *)
Definition fancy_index {A} (a : list A) (idx : list nat) : list A :=
  omap (fun i => a !! i) idx.

Record sort_kind : Type := {
  argsort : list Z -> list nat;
  argsort_perm : forall a, argsort a ≡ₚ seq 0 (length a);
  argsort_sorted : forall a, Sorted Z.le (fancy_index a (argsort a))
}.

(** [pandas.core.sorting.nargsort] on a column without missing values: for
    a descending sort the column and its positions are reversed, sorted in
    ascending order, and the result is reversed again. *)
Definition nargsort (kind : sort_kind) (items : list Z) (ascending : bool) : list nat :=
  let idx := seq 0 (length items) in
  if ascending then fancy_index idx (argsort kind items)
  else reverse (fancy_index (reverse idx) (argsort kind (reverse items))).

(** [frame.sort_values(by=..., ascending=...)] for one integer column. *)
Definition sort_values {A} (kind : sort_kind) (by_ : A -> Z) (ascending : bool)
    (frame : list A) : list A :=
  fancy_index frame (nargsort kind (map by_ frame) ascending).

(** [Series.unique()]: the distinct values in order of first appearance. *)
Fixpoint unique {A} `{EqDecision A} (l : list A) : list A :=
  match l with
  | [] => []
  | x :: l' => x :: filter (fun y => y <> x) (unique l')
  end.

(** [Series.value_counts()]: occurrences of each non-missing value, in
    first-seen order, then sorted by count, largest first. *)
Definition value_counts (kind : sort_kind) (col : list (option string)) : list (string * Z) :=
  let present := omap id col in
  let counted := map (fun v => (v, Z.of_nat (length (filter (fun w => w = v) present))))
                     (unique present) in
  sort_values kind snd false counted.

(** [column.sum()] for a column of integers. *)
Definition total (col : list Z) : Z := foldr Z.add 0%Z col.

(** An insertion sort of positions by value; [before x y] tells whether a
    position of value [x] goes in front of one of value [y]. *)
Fixpoint insert_pos (before : Z -> Z -> bool) (a : list Z) (i : nat) (l : list nat) : list nat :=
  match l with
  | [] => [i]
  | j :: l' =>
      if before (a !!! i) (a !!! j) then i :: j :: l'
      else j :: insert_pos before a i l'
  end.

Definition insertion_argsort (before : Z -> Z -> bool) (a : list Z) : list nat :=
  foldr (insert_pos before a) [] (seq 0 (length a)).

End Sorting.

(** ** Aggregator: summary statistics per taxon

    [df.groupby('taxaname').agg({'parameter_value': ['mean', 'std', 'min',
    'max', 'count']}).reset_index()], then [sort_values(by='Count',
    ascending=False)]. *)

Module Aggregator.
Import Sorting.

(** Floating-point statistics are taken as given: each reduces the
    non-missing values of a group and may be undefined (NaN). *)
Class Float64 : Type := {
  float : Type;
  f_mean : list float -> option float;
  f_std : list float -> option float;
  f_min : list float -> option float;
  f_max : list float -> option float
}.

Section WithFloat.
Context `{Float64}.

(** The two columns of the measurement table the cell reads. *)
Record row : Type := {
  taxaname : option string;
  parameter_value : option float
}.

Record aggregate_row : Type := {
  Taxa : string;
  Mean : option float;
  Std : option float;
  Min : option float;
  Max : option float;
  Count : Z
}.

Fixpoint insert_key (k : string) (l : list string) : list string :=
  match l with
  | [] => [k]
  | k' :: l' => if String.leb k k' then k :: k' :: l' else k' :: insert_key k l'
  end.

(** Group keys come out sorted ([sort=True]). *)
Definition sort_keys (l : list string) : list string := foldr insert_key [] l.

(** The group keys: rows whose key is missing belong to no group
    ([dropna=True]). *)
Definition group_keys (df : list row) : list string :=
  sort_keys (unique (omap taxaname df)).

(** The rows of one group. *)
Definition group (df : list row) (key : string) : list row :=
  filter (fun r => taxaname r = Some key) df.

(** The rows of a group whose numeric field is there. *)
Definition measured (df : list row) (key : string) : list row :=
  filter (fun r => taxaname r = Some key /\ is_Some (parameter_value r)) df.

(** The statistics of one group skip the missing values of the column. *)
Definition aggregate (df : list row) (key : string) : aggregate_row :=
  let vals := omap parameter_value (group df key) in
  {| Taxa := key;
     Mean := f_mean vals;
     Std := f_std vals;
     Min := f_min vals;
     Max := f_max vals;
     Count := Z.of_nat (length vals) |}.

(** The frame before sorting: one row per group, in key order. *)
Definition grouped (df : list row) : list aggregate_row :=
  map (aggregate df) (group_keys df).

Definition summary_stats (kind : sort_kind) (df : list row) : list aggregate_row :=
  sort_values kind Count false (grouped df).

(** A table with [n] measured rows of one taxon. *)
Definition rows_of (taxon : string) (v : float) (n : nat) : list row :=
  replicate n {| taxaname := Some taxon; parameter_value := Some v |}.

End WithFloat.

(** Measurements on an integer grid, for evaluating the aggregator on
    concrete tables: minimum and maximum are exact, mean and deviation are
    left undefined. *)
Definition grid_stats : Float64 :=
  {| float := Z;
     f_mean := fun _ => None;
     f_std := fun _ => None;
     f_min := fun l => match l with [] => None | x :: l' => Some (foldr Z.min x l') end;
     f_max := fun l => match l with [] => None | x :: l' => Some (foldr Z.max x l') end |}.

End Aggregator.

(** ** Patient-clinic network *)

Module Network.
Import Sorting.

(** The columns of [episode_df] and [patient_df] that the merge keeps. *)
Record episode : Type := {
  e_patient_id : string;
  e_cohort : string;
  e_start_date : option Z
}.

Record patient : Type := {
  p_patient_id : string;
  p_birthDate : option string;
  p_org_name : option string
}.

(** A row of [cohort_map]. *)
Record cohort_row : Type := {
  patient_id : string;
  cohort : string;
  start_date : option Z;
  birthDate : option string;
  org_name : option string
}.

(** [episode_df[...].merge(patient_df[...], on="patient_id", how="left")]:
    every episode row, once per patient row with the same id, or once with
    missing patient columns when there is none. *)
Definition merge_left (episodes : list episode) (patients : list patient) : list cohort_row :=
  flat_map (fun e =>
    match filter (fun p => p_patient_id p = e_patient_id e) patients with
    | [] => [ {| patient_id := e_patient_id e; cohort := e_cohort e;
                 start_date := e_start_date e; birthDate := None; org_name := None |} ]
    | ps => map (fun p => {| patient_id := e_patient_id e; cohort := e_cohort e;
                             start_date := e_start_date e; birthDate := p_birthDate p;
                             org_name := p_org_name p |}) ps
    end) episodes.

(** [cohort_map['org_name'].value_counts().reset_index()], columns
    [org_name] and [patient_count]. *)
Definition clinic_patient_counts (kind : sort_kind) (cohort_map : list cohort_row)
    : list (string * Z) :=
  value_counts kind (map org_name cohort_map).

(** [clinic_patient_counts.head(k)['org_name'].tolist()] *)
Definition top_k_clinics (k : nat) (kind : sort_kind) (cohort_map : list cohort_row)
    : list string :=
  map fst (take k (clinic_patient_counts kind cohort_map)).

(** The notebook takes ten. *)
Definition top_clinics : sort_kind -> list cohort_row -> list string := top_k_clinics 10.

(** [value.isin(top)] for one cell; a missing value is in no list of names. *)
Definition isin (top : list string) (v : option string) : bool :=
  match v with
  | Some c => bool_decide (c ∈ top)
  | None => false
  end.

(** [cohort_map[cohort_map['org_name'].isin(top)]] *)
Definition restrict_to (top : list string) (cohort_map : list cohort_row) : list cohort_row :=
  filter (fun r => isin top (org_name r) = true) cohort_map.

(** A [networkx.Graph]: an attribute dictionary per node, and per node the
    set of its neighbours (edges carry no data here). *)
Record graph : Type := {
  g_node : gmap string (gmap string string);
  g_adj : gmap string (gset string)
}.

(** [nx.Graph()] *)
Definition empty_graph : graph := {| g_node := ∅; g_adj := ∅ |}.

(** One step of [G.add_nodes_from(nodes, **attr)]: a new node gets an empty
    neighbourhood, and the attributes update the node's dictionary. *)
Definition add_node (attr : gmap string string) (G : graph) (n : string) : graph :=
  match g_node G !! n with
  | None => {| g_node := <[n := attr]> (g_node G); g_adj := <[n := ∅]> (g_adj G) |}
  | Some old => {| g_node := <[n := attr ∪ old]> (g_node G); g_adj := g_adj G |}
  end.

Definition add_nodes_from (nodes : list string) (attr : gmap string string) (G : graph) : graph :=
  foldl (add_node attr) G nodes.

(** [G.add_edge(u, v)]: both ends become nodes if they are not yet, then
    each is entered in the other's neighbourhood. *)
Definition add_edge (u v : string) (G : graph) : graph :=
  let G' := add_node ∅ (add_node ∅ G u) v in
  {| g_node := g_node G';
     g_adj := alter (fun nb => {[u]} ∪ nb) v (alter (fun nb => {[v]} ∪ nb) u (g_adj G')) |}.

(** [G.nodes[n]['node_type']] *)
Definition node_type (G : graph) (n : string) : option string :=
  attrs ← g_node G !! n; attrs !! "node_type".

(** [G.has_edge(u, v)] *)
Definition has_edge (G : graph) (u v : string) : bool :=
  match g_adj G !! u with
  | Some nb => bool_decide (v ∈ nb)
  | None => false
  end.

(** [G.degree[n]]: a self-loop counts twice. *)
Definition degree_of (n : string) (nb : gset string) : nat :=
  size nb + (if decide (n ∈ nb) then 1 else 0).

(** The sum of the degrees over an adjacency structure. *)
Definition degree_sum_of (adj : gmap string (gset string)) : nat :=
  map_fold (fun n nb acc => degree_of n nb + acc) 0 adj.

Definition degree_sum (G : graph) : nat := degree_sum_of (g_adj G).

(** [G.number_of_edges()]: half the sum of the degrees. *)
Definition number_of_edges (G : graph) : nat := degree_sum G / 2.

(** The graph keeps a neighbourhood for exactly its nodes. *)
Definition consistent (G : graph) : Prop :=
  forall n, g_adj G !! n = None <-> g_node G !! n = None.

(** The (patient, clinic) pair of a row that names its clinic. *)
Definition association (r : cohort_row) : option (string * string) :=
  c ← org_name r; Some (patient_id r, c).

(** [G.number_of_nodes()] *)
Definition number_of_nodes (G : graph) : nat := size (g_node G).

(** The nodes carrying a given [node_type]. *)
Definition nodes_of_type (G : graph) (ty : string) : gset string :=
  dom (filter (fun na => na.2 !! "node_type" = Some ty) (g_node G)).

Definition clinic_attr : gmap string string := {[ "node_type" := "clinic" ]}.
Definition patient_attr : gmap string string := {[ "node_type" := "patient" ]}.

(** The loop over [cohort_map_top_clinics.iterrows()].  A row of the
    restricted frame always names its clinic. *)
Definition add_row_edge (G : graph) (r : cohort_row) : graph :=
  match org_name r with
  | Some c => add_edge (patient_id r) c G
  | None => G
  end.

(** The graph cell, from the list of selected clinics on. *)
Definition build_graph_from (top : list string) (cohort_map : list cohort_row) : graph :=
  let cohort_map_top_clinics := restrict_to top cohort_map in
  let G := add_nodes_from top clinic_attr empty_graph in
  let unique_patients := unique (map patient_id cohort_map_top_clinics) in
  let G := add_nodes_from unique_patients patient_attr G in
  foldl add_row_edge G cohort_map_top_clinics.

Definition build_graph_k (k : nat) (kind : sort_kind) (cohort_map : list cohort_row) : graph :=
  build_graph_from (top_k_clinics k kind cohort_map) cohort_map.

Definition build_graph : sort_kind -> list cohort_row -> graph := build_graph_k 10.

(** The neighbourhood of a node ([G.adj[n]], empty for a node not there). *)
Definition neighbors (G : graph) (n : string) : gset string :=
  default ∅ (g_adj G !! n).

(** The count shown on a clinic node: the first row of
    [clinic_patient_counts] with that name. *)
Definition patient_count (kind : sort_kind) (cohort_map : list cohort_row) (clinic : string)
    : option Z :=
  snd <$> head (filter (fun row => row.1 = clinic) (clinic_patient_counts kind cohort_map)).

(** The row [r] associates [m] and [x], one being its patient and the other
    its clinic. *)
Definition joins (r : cohort_row) (m x : string) : Prop :=
  exists c, org_name r = Some c /\
    ((m = patient_id r /\ x = c) \/ (m = c /\ x = patient_id r)).

(** The distinct (patient, clinic) associations of a frame. *)
Definition associations (rows : list cohort_row) : list (string * string) :=
  unique (omap association rows).

(** Two pairs name the same undirected edge. *)
Definition same_edge (a b : string * string) : Prop := a = b \/ a = (b.2, b.1).

#[global] Instance same_edge_dec a b : Decision (same_edge a b).
Proof. unfold same_edge. apply _. Defined.

(** The pairs of a list up to orientation, in order of first appearance. *)
Fixpoint distinct_edges (l : list (string * string)) : list (string * string) :=
  match l with
  | [] => []
  | x :: l' => x :: filter (fun y => ~ same_edge y x) (distinct_edges l')
  end.

(** The distinct associations of a frame as undirected edges. *)
Definition edges_of_rows (rows : list cohort_row) : list (string * string) :=
  distinct_edges (omap association rows).

(** No patient identifier is also the name of a clinic. *)
Definition ids_apart (rows : list cohort_row) : Prop :=
  forall r r', r ∈ rows -> r' ∈ rows -> org_name r' <> Some (patient_id r).

(** What the specification asks the selection to count: the distinct
    patients of a clinic. *)
Definition distinct_patients (cohort_map : list cohort_row) (clinic : string) : nat :=
  length (unique (map patient_id (filter (fun r => org_name r = Some clinic) cohort_map))).

(** The selection as the specification words it: clinics in first-seen
    order with their number of distinct patients, sorted by that number,
    largest first, and the first [k] taken. *)
Definition top_k_by_distinct_patients (k : nat) (kind : sort_kind)
    (cohort_map : list cohort_row) : list string :=
  let clinics := unique (omap org_name cohort_map) in
  let counted := map (fun c => (c, Z.of_nat (distinct_patients cohort_map c))) clinics in
  map fst (take k (sort_values kind snd false counted)).

(** The table of the specification's example: p1 and p2 at clinic A, p3 at
    clinic B. *)
Definition visit (p c : string) : cohort_row :=
  {| patient_id := p; cohort := "Cohort 1"; start_date := None;
     birthDate := None; org_name := Some c |}.

Definition example_map : list cohort_row :=
  [ visit "p1" "clinicA"; visit "p2" "clinicA"; visit "p3" "clinicB" ].

(** A table on which counting rows and counting patients select different
    clinics: clinics c01 to c10 have 2 to 11 patients with one episode
    each, and clinic c11 has a single patient with 12 episodes. *)
Definition letters : list string :=
  [ "a"; "b"; "c"; "d"; "e"; "f"; "g"; "h"; "i"; "j"; "k" ].

Definition clinic_sizes : list (string * nat) :=
  [ ("c01", 2); ("c02", 3); ("c03", 4); ("c04", 5); ("c05", 6);
    ("c06", 7); ("c07", 8); ("c08", 9); ("c09", 10); ("c10", 11) ].

Definition registered (c : string) (id : string) : patient :=
  {| p_patient_id := id; p_birthDate := None; p_org_name := Some c |}.

Definition one_episode (id : string) : episode :=
  {| e_patient_id := id; e_cohort := "Cohort 1"; e_start_date := None |}.

Definition many_patients : list patient :=
  flat_map (fun cn => (fun x => registered cn.1 (cn.1 +:+ "-" +:+ x)) <$> take cn.2 letters)
           clinic_sizes
  ++ [ registered "c11" "p0" ].

Definition many_episodes : list episode :=
  (one_episode ∘ p_patient_id <$> take 65 many_patients) ++ replicate 12 (one_episode "p0").

Definition repeat_visits : list cohort_row := merge_left many_episodes many_patients.

End Network.

(** ** Rows of the merged frame

    Notions in which properties of the merge and of the counts are stated. *)

Module CohortMap.
Import Network.

(** The rows of a frame recorded for one clinic. *)
Definition clinic_rows (cohort_map : list cohort_row) (clinic : string) : list cohort_row :=
  filter (fun r => org_name r = Some clinic) cohort_map.

(** The row a left merge makes of an episode and of the patient record
    found for it, if any. *)
Definition merged_row (e : episode) (found : option patient) : cohort_row :=
  {| patient_id := e_patient_id e; cohort := e_cohort e; start_date := e_start_date e;
     birthDate := found ≫= p_birthDate; org_name := found ≫= p_org_name |}.

(** The patient records with the identifier of an episode. *)
Definition matches (patients : list patient) (e : episode) : list patient :=
  filter (fun p => p_patient_id p = e_patient_id e) patients.

(** The episodes whose patient record names a clinic. *)
Definition episodes_at (patients : list patient) (episodes : list episode) (clinic : string)
    : list episode :=
  filter (fun e => head (matches patients e) ≫= p_org_name = Some clinic) episodes.

End CohortMap.

(** ** The node markers of the network figure

    The loop [for node in G.nodes()] of the network cell looks up, for a
    node typed "clinic", its row of [clinic_patient_counts], and for any
    other node its first row of [cohort_map_top_clinics]; it colours and
    sizes the marker from that.  (The hover text, which formats the same
    looked-up values, is left out.) *)

Module NetworkTrace.
Import Sorting Network.

(** What a failed lookup raises. *)
Inductive lookup_error : Type := NodeKeyError | IndexError.

(** [cohort_map_top_clinics[cohort_map_top_clinics['patient_id'] == node].iloc[0]] *)
Definition patient_info (rows : list cohort_row) (node : string) : option cohort_row :=
  head (filter (fun r => patient_id r = node) rows).

(** Colour and size of a marker; the size of a clinic is its count times
    0.5, kept as the count and the divisor 2. *)
Record marker : Type := {
  node_color : string;
  node_size : Z * Z
}.

(** The body of the loop for one node of the graph of the top [k] clinics. *)
Definition node_marker (k : nat) (kind : sort_kind) (cohort_map : list cohort_row)
    (node : string) : lookup_error + marker :=
  let G := build_graph_k k kind cohort_map in
  let rows := restrict_to (top_k_clinics k kind cohort_map) cohort_map in
  match node_type G node with
  | None => inl NodeKeyError
  | Some ty =>
      if decide (ty = "clinic") then
        match patient_count kind cohort_map node with
        | None => inl IndexError
        | Some n => inr {| node_color := "red"; node_size := (n, 2%Z) |}
        end
      else
        match patient_info rows node with
        | None => inl IndexError
        | Some _ => inr {| node_color := "blue"; node_size := (5%Z, 1%Z) |}
        end
  end.

End NetworkTrace.

(** ** The ten most sampled taxa

    [top_10_taxa = summary_stats.head(10)] *)

Module TopTaxa.
Import Sorting Aggregator.

Section WithFloat.
Context `{Float64}.

(** [summary_stats.head(10)] *)
Definition top_10_taxa (kind : sort_kind) (df : list row) : list aggregate_row :=
  take 10 (summary_stats kind df).

End WithFloat.
End TopTaxa.

(** ** Overview helper: bullet lists *)

Module Listing.
Import ColumnNormalizer.

Definition newline : ascii := "010"%char.

(** [sep.join(parts)] *)
Fixpoint join (sep : string) (parts : list string) : string :=
  match parts with
  | [] => ""
  | [p] => p
  | p :: ps => p +:+ sep +:+ join sep ps
  end.

(** The argument of [format_list_column]: a list of text items, or a text
    (for which [str] is the identity). *)
Inductive overview_cell : Type :=
| Items (items : list string)
| Text (s : string).

(** [def format_list_column(row)] *)
Definition format_list_column (row : overview_cell) : string :=
  match row with
  | Items items => join (String newline "") (map (fun item => "- " +:+ item) items)
  | Text s => s
  end.

End Listing.

(** ** Taxa per year

    [df.groupby('year_collected')['taxaname'].nunique().reset_index()] *)

Module Richness.
Import Sorting.

(** The two columns the cell reads: the year of collection and the taxon. *)
Record sample : Type := {
  year_collected : option Z;
  taxon : option string
}.

Fixpoint insert_year (y : Z) (l : list Z) : list Z :=
  match l with
  | [] => [y]
  | y' :: l' => if (y <=? y')%Z then y :: y' :: l' else y' :: insert_year y l'
  end.

(** Group keys come out sorted; rows without a year belong to no group. *)
Definition years (df : list sample) : list Z :=
  foldr insert_year [] (unique (omap year_collected df)).

(** The taxa recorded in one year, missing ones left out. *)
Definition taxa_of_year (df : list sample) (y : Z) : list string :=
  omap taxon (filter (fun r => year_collected r = Some y) df).

(** [nunique()] of one group. *)
Definition nunique (l : list string) : nat := length (unique l).

Definition unique_taxa_per_year (df : list sample) : list (Z * nat) :=
  map (fun y => (y, nunique (taxa_of_year df y))) (years df).

End Richness.

(** ** Unwrapping a printed byte string

    [episode_df["period_start"].str.extract(r"(?:b')?(.*?)'?\Z", expand=False)] *)

Module Extract.
Import ColumnNormalizer Listing.

(** The search tries the start positions from the left; the pattern can
    only reach the end of the text from a position after which there is no
    line break, [.] matching every character but that one. *)
Fixpoint match_start (s : string) : string :=
  match s with
  | EmptyString => EmptyString
  | String _ s' => if has_char newline s then match_start s' else s
  end.

(** [(?:b')?]: the two characters are taken when they are there. *)
Definition skip_b_quote (t : string) : string :=
  match t with
  | String "b" (String "'" u) => u
  | _ => t
  end.

(** [(.*?)'?\Z]: the shortest capture that leaves nothing or one quote. *)
Fixpoint capture (u : string) : string :=
  match u with
  | EmptyString => EmptyString
  | String c EmptyString => if Ascii.eqb c "'" then EmptyString else u
  | String c u' => String c (capture u')
  end.

(** The first group of the first match; a missing value stays missing. *)
Definition extract (x : option string) : option string :=
  s ← x; Some (capture (skip_b_quote (match_start s))).

End Extract.

(** ** The cohort assigner as the specification words it

    The specification returns the label of the first interval whose
    inclusive range, from its first day to its last day, contains the date.
    The range is read here on calendar days, to be compared with the
    comparison of timestamps the code makes. *)

Module CohortByDate.
Import Cohort.
Local Open Scope Z_scope.

(** The calendar day of a timestamp, in days since 1970-01-01. *)
Definition day (t : timestamp) : Z := t / ns_per_day.

(** The day of [t] is one of the days of [c], the first and the last
    included. *)
Definition holds_date (c : interval) (t : timestamp) : bool :=
  match to_datetime c.1.2, to_datetime c.2 with
  | Ok s, Ok e => (day s <=? day t) && (day t <=? day e)
  | _, _ => false
  end.

(** The label of the first interval, in declaration order, whose range
    contains the date; "Unassigned" for a missing date and when no range
    contains it. *)
Definition assign_by_date (cs : list interval) (date : option timestamp) : string :=
  match date with
  | None => "Unassigned"
  | Some t =>
      match find (fun c => holds_date c t) cs with
      | Some c => c.1.1
      | None => "Unassigned"
      end
  end.

(** 2021-02-28 12:00, noon of the last day of Cohort 1. *)
Definition noon_2021_02_28 : timestamp :=
  days_from_civil 2021 2 28 * ns_per_day + 12 * 3600 * 1000000000.

End CohortByDate.

(** ** Cells that are still byte strings *)

Module Decoded.
Import Decode.

(** [isinstance(val, bytes)] *)
Definition is_bytes (val : value) : Prop :=
  match val with
  | Bytes _ => True
  | _ => False
  end.

End Decoded.

(** ** Properties of the column normalizer *)

Module ColumnNormalizerFacts.
Import ColumnNormalizer.

Lemma startswith_has_char c p s :
  startswith p s = true -> has_char c p = true -> has_char c s = true.
Proof.
  revert s. induction p as [|a p IH]; intros s Hp Hc; simpl in *.
  - discriminate.
  - destruct s as [|b s]; [discriminate|].
    destruct (Ascii.eqb a b) eqn:Eab; [|discriminate].
    apply Ascii.eqb_eq in Eab. subst b. simpl.
    destruct (Ascii.eqb a c); simpl in *; [reflexivity|].
    now apply IH.
Qed.

Lemma contains_false_startswith p s :
  contains p s = false -> startswith p s = false.
Proof. destruct s; simpl; intros H; apply orb_false_iff in H; tauto. Qed.

Lemma contains_false_tail p c s :
  contains p (String c s) = false -> contains p s = false.
Proof. simpl. intros H. apply orb_false_iff in H. tauto. Qed.

(** A string without an occurrence of the pattern is left alone. *)
Lemma replace_scan_absent old new s :
  contains old s = false -> replace_scan old new 0 s = s.
Proof.
  induction s as [|c s IH]; intros H; [reflexivity|].
  cbn [replace_scan].
  rewrite (contains_false_startswith _ _ H).
  f_equal. apply IH. eapply contains_false_tail; eassumption.
Qed.

Lemma replace_absent old new s :
  old <> "" -> contains old s = false -> replace old new s = s.
Proof.
  intros Hne H. destruct old as [|a old]; [congruence|].
  now apply replace_scan_absent.
Qed.

Lemma has_char_false_contains c p s :
  has_char c p = true -> has_char c s = false -> contains p s = false.
Proof.
  intros Hp. induction s as [|b s IH]; intros Hs.
  - simpl. destruct p; [discriminate|reflexivity].
  - simpl in Hs. apply orb_false_iff in Hs. destruct Hs as [Hb Hs].
    cbn [contains]. rewrite (IH Hs), orb_false_r.
    destruct (startswith p (String b s)) eqn:E; [|reflexivity].
    pose proof (startswith_has_char c _ _ E Hp) as H. simpl in H.
    rewrite Hb, Hs in H. discriminate.
Qed.




Lemma split_nonempty sep s : split sep s <> [].
Proof.
  destruct s as [|c s]; simpl; [discriminate|].
  destruct (Ascii.eqb c sep); [discriminate|].
  destruct (split sep s); discriminate.
Qed.

Lemma item_last_split_some sep s : exists t, item_last (split sep s) = Some t.
Proof.
  unfold item_last. destruct (last (split sep s)) eqn:E; [eauto|].
  apply last_None in E. now apply split_nonempty in E.
Qed.

Lemma split_absent sep s : has_char sep s = false -> split sep s = [s].
Proof.
  induction s as [|c s IH]; simpl; intros H; [reflexivity|].
  apply orb_false_iff in H. destruct H as [Hc Hs].
  rewrite Hc, (IH Hs). reflexivity.
Qed.

(** Shape of a split: either a single segment, the string itself, free of
    the separator, or at least two segments, the last one being what
    follows the last separator. *)
Lemma split_shape sep s :
  exists seg segs, split sep s = seg :: segs /\
    match segs with
    | [] => s = seg /\ has_char sep s = false
    | _ :: _ => exists t pre, last segs = Some t /\ has_char sep t = false /\
                              s = pre +:+ String sep t
    end.
Proof.
  induction s as [|c s (seg & segs & Hs & IH)].
  - exists "", []. simpl. auto.
  - simpl. destruct (Ascii.eqb c sep) eqn:Ec.
    + apply Ascii.eqb_eq in Ec. subst c. rewrite Hs.
      exists "", (seg :: segs). split; [reflexivity|].
      destruct segs as [|seg' segs].
      * destruct IH as [-> Hn]. exists seg, "". auto.
      * destruct IH as (t & pre & Hl & Hn & ->).
        exists t, (String sep pre). rewrite last_cons, Hl. auto.
    + rewrite Hs. exists (String c seg), segs. split; [reflexivity|].
      destruct segs as [|seg' segs].
      * destruct IH as [-> Hn]. simpl. rewrite ?Ec, ?Hn. auto.
      * destruct IH as (t & pre & Hl & Hn & ->).
        exists t, (String c pre). auto.
Qed.

(** The last segment holds no separator, and it is the part of the string
    after the last separator (the whole string when there is none). *)
Lemma item_last_split sep s t :
  item_last (split sep s) = Some t ->
  has_char sep t = false /\
  (s = t \/ exists pre, s = pre +:+ String sep t).
Proof.
  unfold item_last. destruct (split_shape sep s) as (seg & segs & -> & H).
  destruct segs as [|seg' segs].
  - destruct H as [-> Hn]. simpl. intros [= <-]. auto.
  - destruct H as (u & pre & Hl & Hn & ->).
    rewrite last_cons, Hl. intros [= <-]. eauto.
Qed.

Lemma normalize_item_last prefix x :
  item_last (split slash (replace prefix "" x)) = Some (normalize prefix x).
Proof.
  unfold normalize.
  destruct (item_last_split_some slash (replace prefix "" x)) as [t ->].
  reflexivity.
Qed.

Lemma normalize_no_slash prefix x : has_char slash (normalize prefix x) = false.
Proof.
  destruct (item_last_split _ _ _ (normalize_item_last prefix x)) as [H _].
  exact H.
Qed.

(** A name without a slash is already normalized, whenever the prefix has
    a slash in it. *)
Lemma normalize_fixed prefix x :
  has_char slash prefix = true -> has_char slash x = false ->
  normalize prefix x = x.
Proof.
  intros Hp Hx. unfold normalize.
  rewrite replace_absent.
  - now rewrite (split_absent _ _ Hx).
  - intros ->. discriminate.
  - eapply has_char_false_contains; eassumption.
Qed.

Lemma normalize_idempotent prefix x :
  has_char slash prefix = true ->
  normalize prefix (normalize prefix x) = normalize prefix x.
Proof. intros Hp. apply normalize_fixed; [exact Hp|apply normalize_no_slash]. Qed.



(** C5. Column-name normalization is idempotent: with either prefix of the
    notebooks, normalizing a column name twice gives what normalizing it
    once gives, for every name (so also for the names that begin with the
    prefix), and renaming a whole header twice is renaming it once. *)
Theorem normalize_twice (x : string) (cols : list string) :
  normalize prefix_momcare (normalize prefix_momcare x) = normalize prefix_momcare x /\
  normalize prefix_marine (normalize prefix_marine x) = normalize prefix_marine x /\
  rename_columns prefix_momcare (rename_columns prefix_momcare cols)
    = rename_columns prefix_momcare cols /\
  rename_columns prefix_marine (rename_columns prefix_marine cols)
    = rename_columns prefix_marine cols.
Proof.
  assert (Hm : has_char slash prefix_momcare = true) by reflexivity.
  assert (Hr : has_char slash prefix_marine = true) by reflexivity.
  repeat split.
  - now apply normalize_idempotent.
  - now apply normalize_idempotent.
  - unfold rename_columns. rewrite map_map. apply map_ext.
    intros c. now apply normalize_idempotent.
  - unfold rename_columns. rewrite map_map. apply map_ext.
    intros c. now apply normalize_idempotent.
Qed.






End ColumnNormalizerFacts.

(** ** Properties of the cohort assigner *)

Module CohortFacts.
Import Cohort.
Local Open Scope Z_scope.

Lemma coversb_covers c t : coversb c t = true <-> covers c t.
Proof.
  unfold coversb, covers. split.
  - destruct (to_datetime c.1.2) as [s|]; [|discriminate].
    destruct (to_datetime c.2) as [e|]; [|discriminate].
    intros H. apply andb_true_iff in H. destruct H as [H1 H2].
    apply Z.leb_le in H1, H2. exists s, e. auto.
  - intros (s & e & -> & -> & H). apply andb_true_iff.
    split; apply Z.leb_le; lia.
Qed.

Lemma scan_cons label start end_ cs t s e :
  to_datetime start = Ok s -> to_datetime end_ = Ok e ->
  scan ((label, start, end_) :: cs) t =
  if (s <=? t) && (t <=? e) then Ok label else scan cs t.
Proof.
  intros Hs He. cbn [scan]. rewrite Hs. cbn. destruct (s <=? t); [|reflexivity].
  rewrite He. cbn. reflexivity.
Qed.

(** On windows that parse, the loop returns the label of the first window
    that covers the date. *)
Lemma scan_find cs t :
  Forall well_formed cs ->
  scan cs t = Ok (match find (fun c => coversb c t) cs with
                  | Some c => c.1.1
                  | None => "Unassigned"
                  end).
Proof.
  induction 1 as [|[[label start] end_] cs (s & e & Hs & He) _ IH]; [reflexivity|].
  simpl in Hs, He. rewrite (scan_cons _ _ _ _ _ s e Hs He).
  cbn [find]. unfold coversb at 1. cbn [fst snd]. rewrite Hs, He.
  destruct ((s <=? t) && (t <=? e)); [reflexivity|exact IH].
Qed.

Lemma scan_first_match cs t :
  Forall well_formed cs ->
  (exists pre c post, cs = pre ++ c :: post /\
     Forall (fun c' => ~ covers c' t) pre /\ covers c t /\ scan cs t = Ok c.1.1) \/
  (Forall (fun c => ~ covers c t) cs /\ scan cs t = Ok "Unassigned").
Proof.
  intros Hwf. rewrite (scan_find cs t Hwf). clear Hwf.
  induction cs as [|c cs IH]; [right; split; [constructor|reflexivity]|].
  cbn [find]. destruct (coversb c t) eqn:Ec.
  - left. exists [], c, cs. repeat split; [constructor|].
    now apply coversb_covers.
  - assert (Hc : ~ covers c t).
    { intros H. apply coversb_covers in H. congruence. }
    destruct IH as [(pre & c' & post & -> & Hpre & Hcov & Hr)|[Hall Hr]].
    + left. exists (c :: pre), c', post. repeat split; auto.
    + right. split; [now constructor|exact Hr].
Qed.

Lemma cohorts_well_formed : Forall well_formed cohorts.
Proof. repeat constructor; eexists _, _; split; reflexivity. Qed.

(** The scan as the code runs it.  The cohort assigner returns "Unassigned"
    for a missing date (NaT, which is also what an unparseable date has
    become upstream) whatever the interval list, so without scanning it;
    for any other date it returns the label of the first interval of the
    declared list, in declaration order, whose two parsed dates (midnight
    of the first day, midnight of the last day) enclose the timestamp, and
    "Unassigned" when none does.  With the declared list, which starts with Cohort 1
    (2020-11-01 to 2021-02-28) and Cohort 2 (2021-03-01 to 2021-06-30), and
    with the list of just these two, 2021-01-15 gives "Cohort 1" and
    2019-01-01 gives "Unassigned". *)
Theorem assign_cohort_first_match (cs : list interval) (t : timestamp) :
  assign_cohort_in cs None = Ok "Unassigned" /\
  ((exists pre c post, cohorts = pre ++ c :: post /\
      Forall (fun c' => ~ covers c' t) pre /\ covers c t /\
      assign_cohort (Some t) = Ok c.1.1) \/
   (Forall (fun c => ~ covers c t) cohorts /\
    assign_cohort (Some t) = Ok "Unassigned")) /\
  (exists rest, cohorts = ("Cohort 1", "2020-11-01", "2021-02-28")
                       :: ("Cohort 2", "2021-03-01", "2021-06-30") :: rest) /\
  (d ← to_datetime "2021-01-15"; assign_cohort (Some d)) = Ok "Cohort 1" /\
  (d ← to_datetime "2019-01-01"; assign_cohort (Some d)) = Ok "Unassigned" /\
  (d ← to_datetime "2021-01-15";
   assign_cohort_in [("Cohort 1", "2020-11-01", "2021-02-28");
                     ("Cohort 2", "2021-03-01", "2021-06-30")] (Some d)) = Ok "Cohort 1" /\
  (d ← to_datetime "2019-01-01";
   assign_cohort_in [("Cohort 1", "2020-11-01", "2021-02-28");
                     ("Cohort 2", "2021-03-01", "2021-06-30")] (Some d)) = Ok "Unassigned".
Proof.
  split; [reflexivity|]. split.
  - apply (scan_first_match cohorts t cohorts_well_formed).
  - split; [eexists; reflexivity|].
    split; [vm_compute; reflexivity|].
    split; [vm_compute; reflexivity|].
    split; vm_compute; reflexivity.
Qed.

Lemma precedes_disjoint c1 c2 t :
  well_formed c1 -> well_formed c2 -> precedes c1 c2 \/ precedes c2 c1 ->
  covers c1 t -> covers c2 t -> False.
Proof.
  intros _ _ Hp (s1 & e1 & Hs1 & He1 & H1) (s2 & e2 & Hs2 & He2 & H2).
  destruct Hp as [(e & s & He & Hs & Hlt)|(e & s & He & Hs & Hlt)];
    rewrite ?He1, ?He2 in He; rewrite ?Hs1, ?Hs2 in Hs;
    injection He as <-; injection Hs as <-; lia.
Qed.

(** The declared windows follow one another in time. *)
Lemma cohorts_chain : StronglySorted precedes cohorts.
Proof.
  unfold cohorts.
  repeat (first [apply SSorted_nil | apply SSorted_cons
                | apply Forall_nil_2 | apply Forall_cons_2]);
    (eexists _, _; split; [reflexivity|split; [reflexivity|vm_compute; reflexivity]]).
Qed.

Lemma chain_lookup (l : list interval) i j c1 c2 :
  StronglySorted precedes l -> (i < j)%nat ->
  l !! i = Some c1 -> l !! j = Some c2 -> precedes c1 c2.
Proof.
  intros Hs. revert i j. induction Hs as [|c l Hs IH Hc]; intros i j Hij H1 H2.
  - rewrite lookup_nil in H1. discriminate.
  - destruct j as [|j]; [lia|]. destruct i as [|i].
    + simpl in H1, H2. injection H1 as <-.
      rewrite Forall_forall in Hc. apply Hc.
      eapply list_elem_of_lookup_2. exact H2.
    + simpl in H1, H2. apply (IH i j); [lia|assumption|assumption].
Qed.

Lemma cohorts_pairwise_disjoint i j c1 c2 t :
  cohorts !! i = Some c1 -> cohorts !! j = Some c2 ->
  covers c1 t -> covers c2 t -> i = j.
Proof.
  intros H1 H2 Hc1 Hc2.
  pose proof cohorts_well_formed as Hwf. rewrite Forall_forall in Hwf.
  assert (W1 : well_formed c1) by (apply Hwf; eapply list_elem_of_lookup_2; eauto).
  assert (W2 : well_formed c2) by (apply Hwf; eapply list_elem_of_lookup_2; eauto).
  destruct (Nat.lt_trichotomy i j) as [Hlt|[Heq|Hgt]]; [|exact Heq|]; exfalso.
  - apply (precedes_disjoint c1 c2 t W1 W2); auto.
    left. eapply chain_lookup; eauto using cohorts_chain.
  - apply (precedes_disjoint c1 c2 t W1 W2); auto.
    right. eapply chain_lookup; eauto using cohorts_chain.
Qed.

(** A search finds the same element in every arrangement of a list in which
    at most one element passes the test. *)
Lemma find_permutation {A} (p : A -> bool) (l l' : list A) :
  (forall x y, x ∈ l -> y ∈ l -> p x = true -> p y = true -> x = y) ->
  l ≡ₚ l' -> find p l = find p l'.
Proof.
  intros Hu Hp.
  destruct (find p l) as [x|] eqn:E; destruct (find p l') as [y|] eqn:E'; auto.
  - apply find_some in E, E'. destruct E as [Hx Px], E' as [Hy Py].
    apply list_elem_of_In in Hx, Hy. rewrite <- Hp in Hy.
    f_equal. now apply Hu.
  - apply find_some in E. destruct E as [Hx Px].
    apply list_elem_of_In in Hx. rewrite Hp in Hx. apply list_elem_of_In in Hx.
    pose proof (find_none _ _ E' _ Hx). congruence.
  - apply find_some in E'. destruct E' as [Hy Py].
    apply list_elem_of_In in Hy. rewrite <- Hp in Hy. apply list_elem_of_In in Hy.
    pose proof (find_none _ _ E _ Hy). congruence.
Qed.

(** C9. The nine declared cohort windows are pairwise non-overlapping: two
    windows that hold the same date are the same entry of the list, so
    every date matches at most one window; and the assigner gives the same
    result for every reordering of the list. *)
Theorem cohorts_non_overlapping :
  (forall i j c1 c2 t,
     cohorts !! i = Some c1 -> cohorts !! j = Some c2 ->
     covers c1 t -> covers c2 t -> i = j) /\
  (forall t, (length (filter (fun c => coversb c t = true) cohorts) <= 1)%nat) /\
  (forall cs date, cs ≡ₚ cohorts -> assign_cohort_in cs date = assign_cohort date).
Proof.
  split; [exact cohorts_pairwise_disjoint|].
  assert (Huniq : forall t x y, x ∈ cohorts -> y ∈ cohorts ->
            coversb x t = true -> coversb y t = true -> x = y).
  { intros t x y Hx Hy Px Py.
    apply list_elem_of_lookup in Hx, Hy. destruct Hx as [i Hi], Hy as [j Hj].
    apply coversb_covers in Px, Py.
    pose proof (cohorts_pairwise_disjoint i j x y t Hi Hj Px Py) as ->.
    congruence. }
  split.
  - intros t.
    assert (Hnd : NoDup cohorts) by (apply (bool_decide_unpack _); vm_compute; exact I).
    pose proof (NoDup_filter (fun c => coversb c t = true) _ Hnd) as Hnf.
    destruct (filter _ cohorts) as [|x [|y l]] eqn:E; simpl; [lia|lia|].
    exfalso.
    assert (Hx : x ∈ filter (fun c => coversb c t = true) cohorts) by (rewrite E; constructor).
    assert (Hy : y ∈ filter (fun c => coversb c t = true) cohorts) by (rewrite E; do 2 constructor).
    apply list_elem_of_filter in Hx, Hy. destruct Hx as [Px Hx], Hy as [Py Hy].
    pose proof (Huniq t x y Hx Hy Px Py) as ->.
    apply NoDup_cons in Hnf. destruct Hnf as [Hnin _]. apply Hnin. constructor.
  - intros cs [t|] Hp; [|reflexivity].
    unfold assign_cohort, assign_cohort_in.
    rewrite !scan_find.
    + rewrite (find_permutation _ cohorts cs); [reflexivity| |symmetry; exact Hp].
      intros x y. apply Huniq.
    + apply cohorts_well_formed.
    + rewrite Hp. apply cohorts_well_formed.
Qed.

Lemma cohorts_non_overlapping_witness :
  assign_cohort_in (reverse cohorts) (Some 1610668800000000000)
  = assign_cohort (Some 1610668800000000000).
Proof.
  apply (proj2 (proj2 cohorts_non_overlapping)).
  apply reverse_Permutation.
Defined.

End CohortFacts.

(** ** Properties of sorting *)

Module SortingFacts.
Import Sorting.

Lemma fancy_index_cons {A} (a : list A) i idx :
  fancy_index a (i :: idx) =
  match a !! i with
  | Some x => x :: fancy_index a idx
  | None => fancy_index a idx
  end.
Proof. reflexivity. Qed.

Lemma fancy_index_reverse {A} (a : list A) idx :
  fancy_index a (reverse idx) = reverse (fancy_index a idx).
Proof.
  induction idx as [|i idx IH]; [reflexivity|].
  rewrite reverse_cons, fancy_index_cons. unfold fancy_index at 1.
  rewrite omap_app. fold (fancy_index a (reverse idx)). rewrite IH. simpl.
  destruct (a !! i); simpl.
  - now rewrite reverse_cons.
  - now rewrite app_nil_r.
Qed.

Lemma fancy_index_middle {A} (pre a : list A) :
  fancy_index (pre ++ a) (seq (length pre) (length a)) = a.
Proof.
  revert pre. induction a as [|x a IH]; intros pre; [reflexivity|].
  cbn [length seq]. rewrite fancy_index_cons, list_lookup_middle by reflexivity.
  f_equal. specialize (IH (pre ++ [x])).
  rewrite <- app_assoc, length_app in IH. simpl in IH.
  now rewrite Nat.add_1_r in IH.
Qed.

Lemma fancy_index_all {A} (a : list A) : fancy_index a (seq 0 (length a)) = a.
Proof. apply (fancy_index_middle [] a). Qed.

Lemma fancy_index_perm {A} (a : list A) idx :
  idx ≡ₚ seq 0 (length a) -> fancy_index a idx ≡ₚ a.
Proof.
  intros Hp. unfold fancy_index. rewrite Hp. fold (fancy_index a (seq 0 (length a))).
  now rewrite fancy_index_all.
Qed.

Lemma fancy_index_fmap {A B} (f : A -> B) (a : list A) idx :
  f <$> fancy_index a idx = fancy_index (f <$> a) idx.
Proof.
  induction idx as [|i idx IH]; [reflexivity|].
  rewrite !fancy_index_cons, list_lookup_fmap.
  destruct (a !! i) as [x|].
  - rewrite fmap_cons, IH. reflexivity.
  - exact IH.
Qed.

Lemma fancy_index_compose {A} (a : list A) (b : list nat) idx :
  fancy_index a (fancy_index b idx) = omap (fun i => b !! i ≫= (a !!.)) idx.
Proof.
  induction idx as [|i idx IH]; [reflexivity|].
  rewrite (fancy_index_cons b). change (omap ?f (i :: idx)) with
    (match f i with Some y => y :: omap f idx | None => omap f idx end).
  cbv beta. destruct (b !! i) as [j|] eqn:Eb; rewrite ?Eb; cbn [mbind option_bind].
  - rewrite fancy_index_cons. destruct (a !! j); now rewrite IH.
  - exact IH.
Qed.

Lemma omap_lookup_ext {A} (f g : nat -> option A) (idx : list nat) :
  (forall i, f i = g i) -> omap f idx = omap g idx.
Proof.
  intros E. induction idx as [|i idx IH]; [reflexivity|].
  change (match f i with Some y => y :: omap f idx | None => omap f idx end =
          match g i with Some y => y :: omap g idx | None => omap g idx end).
  now rewrite E, IH.
Qed.

(** Looking a position up in the reversed range and then in the column is
    looking it up in the reversed column. *)
Lemma lookup_reverse_range {A} (a : list A) i :
  reverse (seq 0 (length a)) !! i ≫= (a !!.) = reverse a !! i.
Proof.
  destruct (decide (i < length a)) as [Hlt|Hge].
  - rewrite !reverse_lookup by (rewrite ?length_seq; exact Hlt).
    rewrite length_seq, lookup_seq_lt by lia. reflexivity.
  - rewrite (lookup_ge_None_2 (reverse a)) by (rewrite length_reverse; lia).
    rewrite (lookup_ge_None_2 (reverse _)) by (rewrite length_reverse, length_seq; lia).
    reflexivity.
Qed.

Lemma nargsort_perm kind items ascending :
  nargsort kind items ascending ≡ₚ seq 0 (length items).
Proof.
  unfold nargsort. destruct ascending.
  - rewrite <- (length_seq 0 (length items)) at 1.
    rewrite fancy_index_perm; [reflexivity|].
    rewrite length_seq. apply argsort_perm.
  - rewrite reverse_Permutation.
    rewrite fancy_index_perm; [apply reverse_Permutation|].
    rewrite argsort_perm, !length_reverse, length_seq. reflexivity.
Qed.

Lemma sort_values_perm {A} kind (by_ : A -> Z) ascending (frame : list A) :
  sort_values kind by_ ascending frame ≡ₚ frame.
Proof.
  unfold sort_values. apply fancy_index_perm.
  rewrite nargsort_perm, length_fmap. reflexivity.
Qed.

Lemma Sorted_reverse (l : list Z) :
  Sorted Z.le l -> StronglySorted Z.ge (reverse l).
Proof.
  intros Hs. apply (Sorted_StronglySorted _ _) in Hs.
  induction Hs as [|x l Hs IH Hx]; [constructor|].
  rewrite reverse_cons. apply StronglySorted_app_2.
  - intros y z Hy Hz. apply list_elem_of_singleton in Hz. subst z.
    rewrite elem_of_reverse in Hy. rewrite Forall_forall in Hx.
    apply Z.le_ge, Hx. exact Hy.
  - exact IH.
  - repeat constructor.
Qed.

(** The column of a frame sorted in descending order is descending. *)
Lemma sort_values_descending {A} kind (by_ : A -> Z) (frame : list A) :
  StronglySorted Z.ge (by_ <$> sort_values kind by_ false frame).
Proof.
  unfold sort_values. rewrite fancy_index_fmap.
  change (map by_ frame) with (by_ <$> frame).
  generalize (by_ <$> frame). intros items.
  unfold nargsort. rewrite fancy_index_reverse, fancy_index_compose.
  rewrite (omap_lookup_ext _ (fun i => reverse items !! i))
    by (intros i; apply lookup_reverse_range).
  apply Sorted_reverse. apply (argsort_sorted kind (reverse items)).
Qed.

Lemma sort_values_descending_rows {A} kind (by_ : A -> Z) (frame : list A) :
  StronglySorted (fun r r' => (by_ r >= by_ r')%Z) (sort_values kind by_ false frame).
Proof.
  pose proof (sort_values_descending kind by_ frame) as H.
  induction (sort_values kind by_ false frame) as [|r l IH]; [constructor|].
  rewrite fmap_cons in H. inversion H as [|? ? Hs Hx]; subst.
  constructor; [now apply IH|].
  rewrite Forall_fmap in Hx. exact Hx.
Qed.

Lemma elem_of_unique {A} `{EqDecision A} (l : list A) x : x ∈ unique l <-> x ∈ l.
Proof.
  induction l as [|a l IH]; [reflexivity|].
  cbn [unique]. rewrite !elem_of_cons, list_elem_of_filter, IH.
  destruct (decide (x = a)); tauto.
Qed.

Lemma NoDup_unique {A} `{EqDecision A} (l : list A) : NoDup (unique l).
Proof.
  induction l as [|a l IH]; [constructor|].
  cbn [unique]. apply NoDup_cons. split.
  - rewrite list_elem_of_filter. tauto.
  - now apply NoDup_filter.
Qed.

(** A frame whose sort column has no repeated value has one descending
    arrangement only. *)
Lemma descending_unique {A} (by_ : A -> Z) (l1 l2 : list A) :
  NoDup (by_ <$> l1) -> l1 ≡ₚ l2 ->
  StronglySorted (fun r r' => (by_ r >= by_ r')%Z) l1 ->
  StronglySorted (fun r r' => (by_ r >= by_ r')%Z) l2 ->
  l1 = l2.
Proof.
  intros Hnd Hp H1 H2.
  assert (Hstrict : forall l, NoDup (by_ <$> l) ->
            StronglySorted (fun r r' => (by_ r >= by_ r')%Z) l ->
            StronglySorted (fun r r' => r = r' \/ (by_ r > by_ r')%Z) l).
  { clear. intros l Hnd Hs. induction Hs as [|r l Hs IH Hr]; [constructor|].
    rewrite fmap_cons in Hnd. apply NoDup_cons in Hnd. destruct Hnd as [Hnin Hnd].
    constructor; [now apply IH|].
    rewrite Forall_forall in *. intros r' Hr'. right.
    specialize (Hr r' Hr').
    assert (by_ r <> by_ r').
    { intros E. apply Hnin. rewrite E. now apply list_elem_of_fmap_2. }
    lia. }
  assert (Hanti : AntiSymm eq (fun r r' : A => r = r' \/ (by_ r > by_ r')%Z)).
  { intros x y [->|Hxy] [E|Hyx]; auto. lia. }
  apply (StronglySorted_unique _ l1 l2); auto.
  apply Hstrict; [|exact H2]. now rewrite <- Hp.
Qed.

(** So every sorting algorithm gives the same frame when the counts are
    pairwise distinct. *)
Lemma sort_values_determined {A} kind kind' (by_ : A -> Z) (frame : list A) :
  NoDup (by_ <$> frame) ->
  sort_values kind by_ false frame = sort_values kind' by_ false frame.
Proof.
  intros Hnd. apply (descending_unique by_).
  - now rewrite sort_values_perm.
  - now rewrite !sort_values_perm.
  - apply sort_values_descending_rows.
  - apply sort_values_descending_rows.
Qed.

Lemma total_perm l l' : l ≡ₚ l' -> total l = total l'.
Proof.
  unfold total. induction 1 as [|x l l' _ IH|x y l|l l' l'' _ IH1 _ IH2]; cbn [foldr].
  - reflexivity.
  - now rewrite IH.
  - apply Z.add_shuffle3.
  - now rewrite IH1.
Qed.

Lemma total_of_nat (l : list nat) : total (Z.of_nat <$> l) = Z.of_nat (sum_list l).
Proof.
  unfold total. induction l as [|n l IH]; [reflexivity|].
  rewrite fmap_cons. cbn [foldr]. rewrite IH.
  change (sum_list (n :: l)) with (n + sum_list l)%nat. lia.
Qed.

(** *** Two sorting algorithms

    Insertion of positions by value meets the contract of [argsort] for
    every comparison [before] between "strictly less" and "at most". *)

Section Insertion.
Context (before : Z -> Z -> bool).
Context (before_le : forall x y, before x y = true -> (x <= y)%Z).
Context (before_ge : forall x y, before x y = false -> (y <= x)%Z).

Lemma insert_pos_perm a i l : insert_pos before a i l ≡ₚ i :: l.
Proof.
  induction l as [|j l IH]; simpl; [reflexivity|].
  destruct (before _ _); [reflexivity|].
  rewrite IH. apply perm_swap.
Qed.

Lemma insertion_fold_perm a l : foldr (insert_pos before a) [] l ≡ₚ l.
Proof.
  induction l as [|i l IH]; simpl; [reflexivity|].
  now rewrite insert_pos_perm, IH.
Qed.

Lemma insertion_argsort_perm a : insertion_argsort before a ≡ₚ seq 0 (length a).
Proof. apply insertion_fold_perm. Qed.

Lemma insert_pos_sorted a i l :
  Sorted (fun i j => (a !!! i <= a !!! j)%Z) l ->
  Sorted (fun i j => (a !!! i <= a !!! j)%Z) (insert_pos before a i l).
Proof.
  induction 1 as [|j l Hs IH Hj]; simpl.
  - repeat constructor.
  - destruct (before _ _) eqn:E.
    + constructor; [now constructor|]. constructor. now apply before_le.
    + constructor; [exact IH|].
      destruct Hj as [|k l Hjk]; simpl.
      * constructor. now apply before_ge.
      * destruct (before (a !!! i) (a !!! k)); constructor;
          [now apply before_ge|exact Hjk].
Qed.

Lemma insertion_fold_sorted a l :
  Sorted (fun i j => (a !!! i <= a !!! j)%Z) (foldr (insert_pos before a) [] l).
Proof.
  induction l as [|i l IH]; simpl; [constructor|].
  now apply insert_pos_sorted.
Qed.

Lemma fancy_index_total (a : list Z) idx :
  Forall (fun i => i < length a) idx -> fancy_index a idx = (a !!!.) <$> idx.
Proof.
  induction 1 as [|i idx Hi _ IH]; [reflexivity|].
  rewrite fancy_index_cons, fmap_cons, IH.
  destruct (lookup_lt_is_Some_2 a i Hi) as [x Hx].
  rewrite Hx. f_equal. symmetry. now apply list_lookup_total_correct.
Qed.

Lemma insertion_argsort_sorted a :
  Sorted Z.le (fancy_index a (insertion_argsort before a)).
Proof.
  rewrite fancy_index_total.
  - apply (Sorted_fmap _ (fun i j => (a !!! i <= a !!! j)%Z)); [auto|].
    apply insertion_fold_sorted.
  - rewrite insertion_argsort_perm. apply Forall_forall.
    intros i Hi. apply elem_of_seq in Hi. lia.
Qed.

End Insertion.

(** Ties keep their order: a stable sort. *)
Definition stable_kind : sort_kind :=
  {| argsort := insertion_argsort Z.leb;
     argsort_perm := insertion_argsort_perm Z.leb;
     argsort_sorted :=
       insertion_argsort_sorted Z.leb
         (fun x y E => proj1 (Z.leb_le x y) E)
         (fun x y E => Z.lt_le_incl _ _ (proj1 (Z.leb_gt x y) E)) |}.

(** A second sort that meets the contract, for statements that hold for
    any two algorithms: it puts equal values in the opposite order.  It is
    not the sort NumPy runs. *)
Definition reversing_kind : sort_kind :=
  {| argsort := insertion_argsort Z.ltb;
     argsort_perm := insertion_argsort_perm Z.ltb;
     argsort_sorted :=
       insertion_argsort_sorted Z.ltb
         (fun x y E => Z.lt_le_incl _ _ (proj1 (Z.ltb_lt x y) E))
         (fun x y E => proj1 (Z.ltb_ge x y) E) |}.

End SortingFacts.

(** ** Properties of byte decoding *)

Module DecodeFacts.
Import Decode.

(** Case analysis along the branches of the decoder. *)
Ltac utf8_split :=
  repeat match goal with
  | |- context [match ?r with EmptyString => _ | String _ _ => _ end] =>
      is_var r; destruct r; lazy beta iota
  | |- context [if ?c then _ else _] => destruct c eqn:?; lazy beta iota
  | |- context [match classify ?b with _ => _ end] =>
      destruct (classify b) eqn:?; lazy beta iota
  end.

Lemma append_cons a s x : String a s +:+ x = String a (s +:+ x).
Proof. reflexivity. Qed.

Lemma append_empty x : "" +:+ x = x.
Proof. reflexivity. Qed.

(** With [errors="ignore"] decoding never raises, and what it returns is
    well-formed text: decoding it again, strictly, gives it back. *)
Lemma utf8_decode_ignore_valid_aux n :
  forall s, String.length s <= n ->
  exists t, utf8_decode Ignore s = Ok t /\ utf8_decode Strict t = Ok t.
Proof.
  induction n as [|n IH]; intros s Hlen.
  - destruct s; [simpl; eauto|simpl in Hlen; lia].
  - destruct s as [|b0 r0]; [simpl; eauto|].
    cbn [utf8_decode]. utf8_split; unfold keep, on_error;
    try match goal with
    | |- context [utf8_decode Ignore ?r] =>
        let E := fresh "E" in let E' := fresh "E" in
        destruct (IH r ltac:(simpl in *; lia)) as (? & E & E'); rewrite E
    end; cbn [mbind result_bind];
    (eexists; split; [reflexivity|]); try reflexivity; try assumption;
    rewrite ?append_cons, ?append_empty; cbn [utf8_decode];
    repeat match goal with H : _ = _ |- _ => rewrite H end; reflexivity.
Qed.

Lemma utf8_decode_ignore_valid s :
  exists t, utf8_decode Ignore s = Ok t /\ utf8_decode Strict t = Ok t.
Proof. apply (utf8_decode_ignore_valid_aux (String.length s)). lia. Qed.

(** Strict decoding succeeds on well-formed input only, returns it as it
    is, and the ignoring decoder agrees with it there. *)
Lemma utf8_decode_strict_aux n :
  forall s, String.length s <= n ->
  forall t, utf8_decode Strict s = Ok t -> t = s /\ utf8_decode Ignore s = Ok t.
Proof.
  induction n as [|n IH]; intros s Hlen t.
  - destruct s; [simpl; intros [= <-]; auto|simpl in Hlen; lia].
  - destruct s as [|b0 r0]; [simpl; intros [= <-]; auto|].
    cbn [utf8_decode]. utf8_split; unfold keep, on_error; try discriminate;
    match goal with
    | |- context [utf8_decode Strict ?r] =>
        let E := fresh "E" in
        destruct (utf8_decode Strict r) eqn:E; cbn [mbind result_bind];
        [|discriminate];
        intros [= <-];
        destruct (IH r ltac:(simpl in *; lia) _ E) as [-> ->];
        cbn [mbind result_bind]; auto
    end.
Qed.

Lemma utf8_decode_strict s t :
  utf8_decode Strict s = Ok t -> t = s /\ utf8_decode Ignore s = Ok t.
Proof. apply (utf8_decode_strict_aux (String.length s)). lia. Qed.

(** [decode_if_bytes] never raises; a byte string becomes well-formed text
    (the string itself when it was well-formed), anything else is returned
    as it is. *)
Lemma decode_if_bytes_total val :
  exists v, decode_if_bytes val = Ok v /\
    match val with
    | Bytes b => exists t, v = Str t /\ utf8_decode Strict t = Ok t /\
                           (utf8_decode Strict b = Ok b -> t = b)
    | _ => v = val
    end.
Proof.
  destruct val as [s|b|z|]; simpl; eauto.
  destruct (utf8_decode_ignore_valid b) as (t & E & Ev).
  rewrite E. cbn. eexists; split; [reflexivity|].
  exists t. repeat split; auto.
  intros Hb. apply utf8_decode_strict in Hb. destruct Hb as [_ Hb]. congruence.
Qed.

Lemma apply_decode_if_bytes_total column :
  exists vs, apply decode_if_bytes column = Ok vs.
Proof.
  induction column as [|x column [vs IH]]; simpl; [eauto|].
  destruct (decode_if_bytes_total x) as (v & -> & _). cbn.
  rewrite IH. cbn. eauto.
Qed.

(** C8. A byte string is decoded to text before the merge, but a decoding
    failure is replaced by a best-effort string only for the columns that go
    through [decode_if_bytes]; the merge key [patient_id] goes through the
    strict [x.decode()], which raises on the same input and ends the
    statement.  Here: the byte string FF in [identifier_value]. *)
Theorem strict_decode_raises :
  decode_if_bytes invalid_bytes = Ok (Str "") /\
  decode_strict_if_bytes invalid_bytes = Err UnicodeDecodeError /\
  decode_patient_columns
    {| identifier_value := [invalid_bytes];
       birthDate_raw := [Str "1990-01-01"];
       contact_organization_display := [Str "Clinic"] |}
  = Err UnicodeDecodeError /\
  decode_episode_columns
    {| patient_reference := [invalid_bytes]; period_start := [Str "2021-01-15"] |}
  = Err UnicodeDecodeError /\
  (forall val, exists v, decode_if_bytes val = Ok v) /\
  (forall val, (forall b, val <> Bytes b) ->
     decode_if_bytes val = Ok val /\ decode_strict_if_bytes val = Ok val).
Proof.
  do 4 (split; [reflexivity|]). split.
  - intros val. destruct (decode_if_bytes_total val) as (v & E & _). eauto.
  - intros [s|b|z|] Hnb; try (split; reflexivity). now destruct (Hnb b).
Qed.

End DecodeFacts.

(** ** Properties of the aggregator *)

Module AggregatorFacts.
Import Sorting SortingFacts Aggregator.

Section WithFloat.
Context `{Float64}.

Lemma insert_key_perm k l : insert_key k l ≡ₚ k :: l.
Proof.
  induction l as [|k' l IH]; simpl; [reflexivity|].
  destruct (String.leb k k'); [reflexivity|].
  rewrite IH. apply perm_swap.
Qed.

Lemma sort_keys_perm l : sort_keys l ≡ₚ l.
Proof.
  unfold sort_keys. induction l as [|k l IH]; simpl; [reflexivity|].
  now rewrite insert_key_perm, IH.
Qed.

Lemma elem_of_group_keys (df : list row) k :
  k ∈ group_keys df <-> exists r, r ∈ df /\ taxaname r = Some k.
Proof.
  unfold group_keys. rewrite sort_keys_perm, elem_of_unique, list_elem_of_omap.
  reflexivity.
Qed.

Lemma NoDup_group_keys (df : list row) : NoDup (group_keys df).
Proof. unfold group_keys. rewrite sort_keys_perm. apply NoDup_unique. Qed.

Lemma length_omap_filter (l : list row) :
  length (omap parameter_value l) = length (filter (fun r => is_Some (parameter_value r)) l).
Proof.
  induction l as [|r l IH]; [reflexivity|].
  rewrite filter_cons.
  change (omap parameter_value (r :: l)) with
    (match parameter_value r with
     | Some y => y :: omap parameter_value l
     | None => omap parameter_value l
     end).
  destruct (parameter_value r) as [v|] eqn:E.
  - rewrite decide_True by eauto. simpl. now rewrite IH.
  - rewrite decide_False by (intros [? ?]; discriminate). exact IH.
Qed.

Lemma Count_aggregate df key :
  Count (aggregate df key) = Z.of_nat (length (measured df key)).
Proof.
  unfold aggregate, measured, group. cbn [Count].
  rewrite length_omap_filter, list_filter_filter.
  do 2 f_equal. apply list_filter_iff. intros r. tauto.
Qed.

Lemma Taxa_grouped df : Taxa <$> grouped df = group_keys df.
Proof.
  unfold grouped. change (map (aggregate df)) with (fmap (M:=list) (aggregate df)).
  rewrite <- list_fmap_compose. apply list_fmap_id.
Qed.

Lemma sum_indicator_absent (k0 : string) keys :
  k0 ∉ keys ->
  sum_list ((fun k => if decide (k0 = k) then 1 else 0) <$> keys) = 0.
Proof.
  induction keys as [|k keys IH]; intros Hnin; [reflexivity|].
  apply not_elem_of_cons in Hnin. destruct Hnin as [Hne Hnin].
  rewrite fmap_cons. change (sum_list (?a :: ?l)) with (a + sum_list l).
  cbv beta. rewrite (decide_False (P := k0 = k)) by exact Hne. now apply IH.
Qed.

Lemma sum_indicator (k0 : string) keys :
  NoDup keys -> k0 ∈ keys ->
  sum_list ((fun k => if decide (k0 = k) then 1 else 0) <$> keys) = 1.
Proof.
  induction 1 as [|k keys Hnin Hnd IH]; intros Hin.
  - now apply elem_of_nil in Hin.
  - rewrite fmap_cons. change (sum_list (?a :: ?l)) with (a + sum_list l).
    cbv beta. destruct (decide (k0 = k)) as [->|Hne].
    + now rewrite sum_indicator_absent.
    + apply elem_of_cons in Hin. destruct Hin as [E|Hin]; [contradiction|].
      now apply IH.
Qed.

Lemma sum_zero {A} (keys : list A) : sum_list ((fun _ => 0) <$> keys) = 0.
Proof. induction keys; [reflexivity|]. rewrite fmap_cons. exact IHkeys. Qed.

Lemma sum_list_add {A} (f g : A -> nat) keys :
  sum_list ((fun k => f k + g k) <$> keys) = sum_list (f <$> keys) + sum_list (g <$> keys).
Proof.
  induction keys as [|k keys IH]; [reflexivity|].
  rewrite !fmap_cons. change (sum_list (?a :: ?l)) with (a + sum_list l).
  rewrite IH. simpl. lia.
Qed.

(** Over a duplicate-free list of keys that holds every key of the table,
    the group sizes add up to the rows that have both a key and a value. *)
Lemma sum_measured (keys : list string) (df : list row) :
  NoDup keys ->
  (forall r k, r ∈ df -> taxaname r = Some k -> k ∈ keys) ->
  sum_list ((fun k => length (measured df k)) <$> keys) =
  length (filter (fun r => is_Some (taxaname r) /\ is_Some (parameter_value r)) df).
Proof.
  intros Hnd. induction df as [|r df IH]; intros Hall.
  - apply sum_zero.
  - assert (Hall' : forall r k, r ∈ df -> taxaname r = Some k -> k ∈ keys).
    { intros r' k Hr. apply Hall. now apply list_elem_of_further. }
    specialize (IH Hall').
    destruct (taxaname r) as [k0|] eqn:Ek; [destruct (parameter_value r) as [v|] eqn:Ev|].
    + rewrite (filter_cons_True _ r df) by (rewrite Ek, Ev; eauto).
      cbn [length]. rewrite <- IH.
      transitivity (sum_list ((fun k => (if decide (k0 = k) then 1 else 0)
                                         + length (measured df k)) <$> keys)).
      * f_equal. apply list_fmap_ext. intros _ k _.
        unfold measured. rewrite filter_cons. rewrite Ek, Ev.
        destruct (decide (k0 = k)) as [->|Hne].
        -- rewrite decide_True by eauto. reflexivity.
        -- rewrite decide_False by (intros [[= E] _]; contradiction). reflexivity.
      * rewrite sum_list_add, sum_indicator; [reflexivity|exact Hnd|].
        eapply Hall; [apply list_elem_of_here|exact Ek].
    + rewrite (filter_cons_False _ r df) by (rewrite Ev; intros [_ [? ?]]; discriminate).
      rewrite <- IH. f_equal. apply list_fmap_ext. intros _ k _.
      unfold measured. rewrite filter_cons_False; [reflexivity|].
      rewrite Ev. intros [_ [? ?]]. discriminate.
    + rewrite (filter_cons_False _ r df) by (rewrite Ek; intros [[? ?] _]; discriminate).
      rewrite <- IH. f_equal. apply list_fmap_ext. intros _ k _.
      unfold measured. rewrite filter_cons_False; [reflexivity|].
      rewrite Ek. intros [? _]. discriminate.
Qed.

Lemma summary_stats_perm kind df : summary_stats kind df ≡ₚ grouped df.
Proof. apply sort_values_perm. Qed.

Lemma Count_grouped df :
  Count <$> grouped df = (fun k => Z.of_nat (length (measured df k))) <$> group_keys df.
Proof.
  unfold grouped. change (map (aggregate df)) with (fmap (M:=list) (aggregate df)).
  rewrite <- list_fmap_compose. apply list_fmap_ext. intros _ k _.
  apply Count_aggregate.
Qed.

Lemma omap_measured df key :
  omap parameter_value (measured df key) = omap parameter_value (group df key).
Proof.
  unfold measured, group. induction df as [|r df IH]; [reflexivity|].
  rewrite !filter_cons.
  destruct (decide (taxaname r = Some key)) as [Ek|Ek].
  - destruct (parameter_value r) as [v|] eqn:Ev.
    + rewrite decide_True by eauto.
      change (omap ?f (?x :: ?l)) with
        (match f x with Some y => y :: omap f l | None => omap f l end).
      now rewrite Ev, IH.
    + rewrite decide_False by (intros [_ [? ?]]; discriminate).
      change (omap ?f (r :: ?l)) with
        (match f r with Some y => y :: omap f l | None => omap f l end).
      now rewrite Ev, IH.
  - rewrite decide_False by tauto. exact IH.
Qed.

Lemma elem_of_summary_stats kind df row :
  row ∈ summary_stats kind df ->
  exists key, key ∈ group_keys df /\ row = aggregate df key.
Proof.
  rewrite summary_stats_perm. unfold grouped.
  change (map (aggregate df)) with (fmap (M:=list) (aggregate df)).
  intros Hin. apply list_elem_of_fmap in Hin. destruct Hin as (k & -> & Hk).
  eauto.
Qed.

(** C4, as the code has it.  Each aggregate row belongs to a group value
    that occurs in the table, its count is the number of rows with that
    group value whose numeric field is not missing, and its statistics are
    taken over the values of exactly those rows; there is one row per group
    value that occurs; and the counts add up to the number of rows that have
    both a group value and a numeric value. *)
Theorem count_per_group kind (df : list row) :
  (forall row, row ∈ summary_stats kind df ->
     (exists r, r ∈ df /\ taxaname r = Some (Taxa row)) /\
     Count row = Z.of_nat (length (measured df (Taxa row))) /\
     Mean row = f_mean (omap parameter_value (measured df (Taxa row))) /\
     Std row = f_std (omap parameter_value (measured df (Taxa row))) /\
     Min row = f_min (omap parameter_value (measured df (Taxa row))) /\
     Max row = f_max (omap parameter_value (measured df (Taxa row)))) /\
  NoDup (Taxa <$> summary_stats kind df) /\
  (forall k, k ∈ Taxa <$> summary_stats kind df <->
             exists r, r ∈ df /\ taxaname r = Some k) /\
  total (Count <$> summary_stats kind df) =
    Z.of_nat (length (filter (fun r => is_Some (taxaname r) /\
                                       is_Some (parameter_value r)) df)).
Proof.
  split; [|split; [|split]].
  - intros row Hrow. apply elem_of_summary_stats in Hrow.
    destruct Hrow as (key & Hk & ->).
    rewrite Count_aggregate. cbn [Taxa Mean Std Min Max aggregate].
    rewrite omap_measured.
    split; [now apply elem_of_group_keys|]. repeat split; reflexivity.
  - rewrite summary_stats_perm, Taxa_grouped. apply NoDup_group_keys.
  - intros k. rewrite summary_stats_perm, Taxa_grouped. apply elem_of_group_keys.
  - rewrite (total_perm _ (Count <$> grouped df))
      by (apply fmap_Permutation, summary_stats_perm).
    rewrite Count_grouped.
    rewrite (list_fmap_compose (fun k => length (measured df k)) Z.of_nat).
    rewrite total_of_nat. f_equal. apply sum_measured.
    + apply NoDup_group_keys.
    + intros r k Hr Hk. apply elem_of_group_keys. eauto.
Qed.

(** X24. The output rows are in descending order of count and are the
    per-group rows, rearranged; whenever the counts are pairwise distinct
    the order is the same for every sorting algorithm; and for groups A (5
    rows), B (9 rows), C (3 rows) the output order is B, A, C.  Nothing is
    said on the order of groups with equal counts. *)
Theorem summary_sorted_descending kind (df : list row) (v : float) :
  StronglySorted (fun r r' => (Count r >= Count r')%Z) (summary_stats kind df) /\
  summary_stats kind df ≡ₚ grouped df /\
  (NoDup (Count <$> grouped df) ->
   forall kind', summary_stats kind' df = summary_stats kind df) /\
  Taxa <$> summary_stats kind (rows_of "A" v 5 ++ rows_of "B" v 9 ++ rows_of "C" v 3)
    = ["B"; "A"; "C"] /\
  Count <$> summary_stats kind (rows_of "A" v 5 ++ rows_of "B" v 9 ++ rows_of "C" v 3)
    = [9; 5; 3]%Z.
Proof.
  split; [apply sort_values_descending_rows|].
  split; [apply summary_stats_perm|].
  split; [intros Hnd kind'; now apply sort_values_determined|].
  set (ex := rows_of "A" v 5 ++ rows_of "B" v 9 ++ rows_of "C" v 3).
  assert (Ec : Count <$> grouped ex = [5; 9; 3]%Z) by (vm_compute; reflexivity).
  assert (Es : summary_stats kind ex = summary_stats stable_kind ex).
  { apply sort_values_determined. rewrite Ec.
    apply (bool_decide_unpack _). vm_compute. exact I. }
  rewrite Es. split; vm_compute; reflexivity.
Qed.

End WithFloat.

#[local] Existing Instance grid_stats.

(** Counterexample to C4 as stated: a taxon with one measured row and one
    row without a value, and a measured row without a taxon.  The count of
    the taxon is 1 although 2 rows share it, and the counts add up to 1
    although 2 rows have a numeric value. *)
Lemma count_differs_from_group_size :
  let df := [ {| taxaname := Some "A"; parameter_value := Some 1%Z |};
              {| taxaname := Some "A"; parameter_value := None |};
              {| taxaname := None; parameter_value := Some 2%Z |} ] in
  (fun row => (Taxa row, Count row)) <$> summary_stats stable_kind df
    = [("A", 1%Z)] /\
  length (group df "A") = 2 /\
  total (Count <$> summary_stats stable_kind df) = 1%Z /\
  length (filter (fun r => is_Some (parameter_value r)) df) = 2.
Proof. vm_compute. auto. Qed.

End AggregatorFacts.

(** ** Properties of the network builder *)

Module NetworkFacts.
Import Sorting SortingFacts Network.

(** *** The graph operations *)

Lemma consistent_empty : consistent empty_graph.
Proof. intros n. unfold empty_graph. simpl. now rewrite !lookup_empty. Qed.

Lemma consistent_add_node attr G n : consistent G -> consistent (add_node attr G n).
Proof.
  intros HG m. unfold add_node. destruct (g_node G !! n) as [old|] eqn:E; simpl.
  - rewrite lookup_insert_None. specialize (HG m).
    destruct (decide (n = m)) as [->|Hne]; [|tauto].
    rewrite HG, E. split; [discriminate|tauto].
  - rewrite !lookup_insert_None. specialize (HG m). tauto.
Qed.

Lemma neighbors_add_node attr G n m :
  consistent G -> neighbors (add_node attr G n) m = neighbors G m.
Proof.
  intros HG. unfold neighbors, add_node.
  destruct (g_node G !! n) as [old|] eqn:E; simpl; [reflexivity|].
  destruct (decide (n = m)) as [->|Hne].
  - rewrite lookup_insert_eq. apply HG in E. now rewrite E.
  - now rewrite lookup_insert_ne.
Qed.

Lemma node_add_node attr G n m :
  is_Some (g_node (add_node attr G n) !! m) <-> m = n \/ is_Some (g_node G !! m).
Proof.
  unfold add_node. destruct (g_node G !! n) as [old|] eqn:E; simpl;
    rewrite lookup_insert_is_Some; destruct (decide (n = m)) as [->|Hne];
    try rewrite E; split; intros; eauto; intuition congruence.
Qed.

Lemma adj_is_Some G n : consistent G -> is_Some (g_node G !! n) -> is_Some (g_adj G !! n).
Proof.
  intros HG Hn. destruct (g_adj G !! n) eqn:E; [eauto|].
  apply HG in E. rewrite E in Hn. now destruct Hn.
Qed.

Lemma node_type_add_node ty G n m :
  node_type (add_node {[ "node_type" := ty ]} G n) m
  = if decide (m = n) then Some ty else node_type G m.
Proof.
  unfold node_type, add_node.
  destruct (g_node G !! n) as [old|] eqn:E; simpl;
    destruct (decide (m = n)) as [->|Hne].
  - rewrite lookup_insert_eq. simpl.
    apply lookup_union_Some_l, lookup_singleton_eq.
  - rewrite lookup_insert_ne by congruence. reflexivity.
  - rewrite lookup_insert_eq. simpl. apply lookup_singleton_eq.
  - rewrite lookup_insert_ne by congruence. reflexivity.
Qed.

Lemma node_type_add_bare_node G n m :
  node_type (add_node ∅ G n) m = node_type G m.
Proof.
  unfold node_type, add_node.
  destruct (g_node G !! n) as [old|] eqn:E; simpl;
    destruct (decide (m = n)) as [->|Hne].
  - rewrite lookup_insert_eq, E. simpl. now rewrite (left_id_L ∅ (∪)).
  - rewrite lookup_insert_ne by congruence. reflexivity.
  - rewrite lookup_insert_eq, E. simpl. apply lookup_empty.
  - rewrite lookup_insert_ne by congruence. reflexivity.
Qed.

Lemma consistent_add_nodes_from nodes attr G :
  consistent G -> consistent (add_nodes_from nodes attr G).
Proof.
  unfold add_nodes_from. revert G.
  induction nodes as [|n nodes IH]; intros G HG; [exact HG|].
  simpl. apply IH. now apply consistent_add_node.
Qed.

Lemma neighbors_add_nodes_from nodes attr G m :
  consistent G -> neighbors (add_nodes_from nodes attr G) m = neighbors G m.
Proof.
  unfold add_nodes_from. revert G.
  induction nodes as [|n nodes IH]; intros G HG; [reflexivity|].
  simpl. rewrite IH by now apply consistent_add_node.
  now apply neighbors_add_node.
Qed.

Lemma node_add_nodes_from nodes attr G m :
  is_Some (g_node (add_nodes_from nodes attr G) !! m)
  <-> m ∈ nodes \/ is_Some (g_node G !! m).
Proof.
  unfold add_nodes_from. revert G.
  induction nodes as [|n nodes IH]; intros G; simpl.
  - rewrite elem_of_nil. tauto.
  - rewrite IH, node_add_node, elem_of_cons. tauto.
Qed.

Lemma node_type_add_nodes_from nodes ty G m :
  node_type (add_nodes_from nodes {[ "node_type" := ty ]} G) m
  = if decide (m ∈ nodes) then Some ty else node_type G m.
Proof.
  unfold add_nodes_from. revert G.
  induction nodes as [|n nodes IH]; intros G; cbn [foldl].
  - destruct (decide (m ∈ [])) as [Hin|_]; [|reflexivity].
    now apply elem_of_nil in Hin.
  - rewrite IH, node_type_add_node.
    destruct (decide (m ∈ nodes)) as [Hin|Hnin].
    + rewrite decide_True by (now apply list_elem_of_further). reflexivity.
    + destruct (decide (m = n)) as [->|Hne].
      * rewrite decide_True by apply list_elem_of_here. reflexivity.
      * rewrite decide_False; [reflexivity|].
        rewrite elem_of_cons. tauto.
Qed.

Lemma add_edge_nodes u v G :
  consistent G ->
  let G' := add_node ∅ (add_node ∅ G u) v in
  consistent G' /\ (forall m, neighbors G' m = neighbors G m) /\
  is_Some (g_adj G' !! u) /\ is_Some (g_adj G' !! v).
Proof.
  intros HG G'.
  assert (H1 : consistent (add_node ∅ G u)) by now apply consistent_add_node.
  assert (H2 : consistent G') by now apply consistent_add_node.
  split; [exact H2|]. split; [|split].
  - intros m. unfold G'. rewrite neighbors_add_node by exact H1.
    now apply neighbors_add_node.
  - apply adj_is_Some; [exact H2|]. unfold G'. rewrite !node_add_node. tauto.
  - apply adj_is_Some; [exact H2|]. unfold G'. rewrite !node_add_node. tauto.
Qed.

Lemma elem_of_neighbors_add_edge u v G m x :
  consistent G ->
  x ∈ neighbors (add_edge u v G) m
  <-> x ∈ neighbors G m \/ (m = u /\ x = v) \/ (m = v /\ x = u).
Proof.
  intros HG. destruct (add_edge_nodes u v G HG) as (_ & Hn & [nbu Eu] & [nbv Ev]).
  rewrite <- (Hn m). unfold add_edge, neighbors. cbn [g_adj].
  rewrite !lookup_alter.
  repeat case_decide; subst; rewrite ?Eu, ?Ev;
    cbn [fmap option_fmap option_map default]; unfold id;
    rewrite ?elem_of_union, ?elem_of_singleton; intuition congruence.
Qed.

Lemma consistent_add_edge u v G : consistent G -> consistent (add_edge u v G).
Proof.
  intros HG. destruct (add_edge_nodes u v G HG) as (HG' & _).
  intros m. unfold add_edge. cbn [g_adj g_node].
  rewrite <- (HG' m), !lookup_alter_None. reflexivity.
Qed.

Lemma node_type_add_edge u v G m : node_type (add_edge u v G) m = node_type G m.
Proof.
  unfold add_edge, node_type at 1. cbn [g_node].
  change (node_type (add_node ∅ (add_node ∅ G u) v) m = node_type G m).
  now rewrite !node_type_add_bare_node.
Qed.

Lemma node_add_edge u v G m :
  is_Some (g_node (add_edge u v G) !! m) <-> m = v \/ m = u \/ is_Some (g_node G !! m).
Proof. unfold add_edge. cbn [g_node]. now rewrite !node_add_node. Qed.

(** *** Degrees *)

Lemma degree_sum_of_insert_new adj k nb :
  adj !! k = None -> degree_sum_of (<[k:=nb]> adj) = degree_of k nb + degree_sum_of adj.
Proof.
  intros Hk. unfold degree_sum_of.
  apply (map_fold_insert_L (fun n nb acc => degree_of n nb + acc)); [|exact Hk].
  intros. lia.
Qed.

Lemma degree_sum_of_insert adj k nb nb' :
  adj !! k = Some nb ->
  degree_sum_of (<[k:=nb']> adj) + degree_of k nb = degree_sum_of adj + degree_of k nb'.
Proof.
  intros Hk.
  rewrite <- (insert_delete_id adj k nb Hk) at 2.
  rewrite <- (insert_delete_eq adj k nb').
  rewrite !degree_sum_of_insert_new by apply lookup_delete_eq. lia.
Qed.

Lemma alter_as_insert (f : gset string -> gset string) (adj : gmap string (gset string)) k nb :
  adj !! k = Some nb -> alter f k adj = <[k := f nb]> adj.
Proof.
  intros Hk. apply map_eq. intros j. rewrite lookup_alter, lookup_insert.
  destruct (decide (k = j)) as [->|]; [now rewrite Hk|reflexivity].
Qed.

Lemma degree_of_add n x (nb : gset string) :
  n <> x ->
  degree_of n ({[x]} ∪ nb) = degree_of n nb + (if decide (x ∈ nb) then 0 else 1).
Proof.
  intros Hne. unfold degree_of. destruct (decide (x ∈ nb)) as [Hin|Hnin].
  - replace ({[x]} ∪ nb) with nb by set_solver. lia.
  - rewrite size_union by set_solver. rewrite size_singleton.
    destruct (decide (n ∈ nb)) as [Hn|Hn].
    + rewrite decide_True by set_solver. lia.
    + rewrite decide_False by set_solver. lia.
Qed.

Lemma degree_sum_add_node attr G n :
  consistent G -> degree_sum (add_node attr G n) = degree_sum G.
Proof.
  intros HG. unfold degree_sum, add_node.
  destruct (g_node G !! n) as [old|] eqn:E; cbn [g_adj]; [reflexivity|].
  apply HG in E. fold (degree_sum_of (<[n:=∅]> (g_adj G))).
  rewrite degree_sum_of_insert_new by exact E. reflexivity.
Qed.

Lemma degree_sum_add_nodes_from nodes attr G :
  consistent G -> degree_sum (add_nodes_from nodes attr G) = degree_sum G.
Proof.
  unfold add_nodes_from. revert G.
  induction nodes as [|n nodes IH]; intros G HG; [reflexivity|].
  simpl. rewrite IH by now apply consistent_add_node.
  now apply degree_sum_add_node.
Qed.

(** A new edge between two different nodes adds one to the degree of each
    end; an edge that is there already changes nothing. *)
Lemma degree_sum_add_edge u v G :
  consistent G -> u <> v ->
  degree_sum (add_edge u v G)
  = degree_sum G + (if decide (v ∈ neighbors G u) then 0 else 1)
                 + (if decide (u ∈ neighbors G v) then 0 else 1).
Proof.
  intros HG Huv.
  destruct (add_edge_nodes u v G HG) as (HG' & Hn & [nbu Eu] & [nbv Ev]).
  assert (Hs : degree_sum (add_node ∅ (add_node ∅ G u) v) = degree_sum G).
  { rewrite degree_sum_add_node by now apply consistent_add_node.
    now apply degree_sum_add_node. }
  rewrite <- Hs, <- (Hn u), <- (Hn v).
  unfold degree_sum, add_edge, neighbors. cbn [g_adj]. rewrite Eu, Ev. simpl.
  rewrite (alter_as_insert _ _ u nbu Eu).
  rewrite (alter_as_insert _ _ v nbv) by (rewrite lookup_insert_ne by exact Huv; exact Ev).
  fold (degree_sum_of (g_adj (add_node ∅ (add_node ∅ G u) v))).
  set (adj := g_adj (add_node ∅ (add_node ∅ G u) v)) in *.
  fold (degree_sum_of (<[v:={[u]} ∪ nbv]> (<[u:={[v]} ∪ nbu]> adj))).
  pose proof (degree_sum_of_insert adj u nbu ({[v]} ∪ nbu) Eu) as H1.
  assert (Ev' : <[u:={[v]} ∪ nbu]> adj !! v = Some nbv)
    by (rewrite lookup_insert_ne by exact Huv; exact Ev).
  pose proof (degree_sum_of_insert _ v nbv ({[u]} ∪ nbv) Ev') as H2.
  rewrite (degree_of_add u v nbu Huv) in H1.
  rewrite (degree_of_add v u nbv) in H2 by congruence.
  lia.
Qed.

(** *** The loop over the rows *)

Lemma consistent_add_row_edge G r : consistent G -> consistent (add_row_edge G r).
Proof.
  unfold add_row_edge. destruct (org_name r); [apply consistent_add_edge|auto].
Qed.

Lemma fold_edges_consistent rows G :
  consistent G -> consistent (foldl add_row_edge G rows).
Proof.
  revert G. induction rows as [|r rows IH]; intros G HG; [exact HG|].
  simpl. apply IH. now apply consistent_add_row_edge.
Qed.

Lemma neighbors_add_row_edge G r m x :
  consistent G ->
  x ∈ neighbors (add_row_edge G r) m <-> x ∈ neighbors G m \/ joins r m x.
Proof.
  intros HG. unfold add_row_edge, joins. destruct (org_name r) as [c|].
  - rewrite elem_of_neighbors_add_edge by exact HG. split.
    + intros [?|?]; [now left|right; eauto].
    + intros [?|(c' & [= <-] & ?)]; [now left|now right].
  - split; [now left|]. intros [?|(c' & [=] & _)]. assumption.
Qed.

Lemma fold_edges_neighbors rows G m x :
  consistent G ->
  x ∈ neighbors (foldl add_row_edge G rows) m
  <-> x ∈ neighbors G m \/ exists r, r ∈ rows /\ joins r m x.
Proof.
  revert G. induction rows as [|r rows IH]; intros G HG; simpl.
  - split; [now left|]. intros [?|(r & Hr & _)]; [assumption|].
    now apply elem_of_nil in Hr.
  - rewrite IH by now apply consistent_add_row_edge.
    rewrite neighbors_add_row_edge by exact HG. split.
    + intros [[?|?]|(r' & Hr' & ?)]; [now left| |].
      * right. exists r. split; [apply list_elem_of_here|assumption].
      * right. exists r'. split; [now apply list_elem_of_further|assumption].
    + intros [?|(r' & Hr' & ?)]; [now left; left|].
      apply elem_of_cons in Hr'. destruct Hr' as [->|Hr'].
      * left. now right.
      * right. eauto.
Qed.

Lemma fold_edges_node_type rows G m :
  node_type (foldl add_row_edge G rows) m = node_type G m.
Proof.
  revert G. induction rows as [|r rows IH]; intros G; [reflexivity|].
  simpl. rewrite IH. unfold add_row_edge.
  destruct (org_name r); [apply node_type_add_edge|reflexivity].
Qed.

Lemma fold_edges_node rows G m :
  is_Some (g_node (foldl add_row_edge G rows) !! m)
  <-> is_Some (g_node G !! m) \/
      exists r c, r ∈ rows /\ org_name r = Some c /\ (m = patient_id r \/ m = c).
Proof.
  revert G. induction rows as [|r rows IH]; intros G; simpl.
  - split; [now left|]. intros [?|(r & c & Hr & _)]; [assumption|].
    now apply elem_of_nil in Hr.
  - rewrite IH. unfold add_row_edge. split.
    + intros [Hm|(r' & c & Hr' & Hc & Hm)].
      * destruct (org_name r) as [c|] eqn:Ec; [|now left].
        apply node_add_edge in Hm. destruct Hm as [->|[->|Hm]]; [| |now left];
          right; exists r, c; split; try apply list_elem_of_here; auto.
      * right. exists r', c. split; [now apply list_elem_of_further|auto].
    + intros [Hm|(r' & c & Hr' & Hc & Hm)].
      * left. destruct (org_name r); [|exact Hm]. apply node_add_edge. auto.
      * apply elem_of_cons in Hr'. destruct Hr' as [->|Hr'].
        -- left. rewrite Hc. apply node_add_edge. tauto.
        -- right. eauto 6.
Qed.

Lemma unique_snoc {A} `{EqDecision A} (l : list A) x :
  unique (l ++ [x]) = if decide (x ∈ l) then unique l else unique l ++ [x].
Proof.
  induction l as [|a l IH].
  - destruct (decide (x ∈ [])) as [Hin|_]; [now apply elem_of_nil in Hin|reflexivity].
  - change ((a :: l) ++ [x]) with (a :: (l ++ [x])). cbn [unique]. rewrite IH.
    destruct (decide (x ∈ l)) as [Hin|Hnin].
    + rewrite decide_True by now apply list_elem_of_further. reflexivity.
    + rewrite filter_app. destruct (decide (x = a)) as [->|Hne].
      * rewrite decide_True by apply list_elem_of_here.
        rewrite filter_cons_False by tauto. now rewrite app_nil_r.
      * rewrite decide_False by (rewrite elem_of_cons; tauto).
        rewrite filter_cons_True by exact Hne. reflexivity.
Qed.

Lemma ids_apart_snoc rows r : ids_apart (rows ++ [r]) -> ids_apart rows.
Proof.
  intros Ha r1 r2 H1 H2. apply Ha; apply elem_of_app; now left.
Qed.

Lemma same_edge_sym a b : same_edge a b -> same_edge b a.
Proof.
  destruct a as [a1 a2], b as [b1 b2]. unfold same_edge. simpl.
  intros [[= -> ->]|[= -> ->]]; auto.
Qed.

Lemma distinct_edges_snoc l x :
  distinct_edges (l ++ [x])
  = if decide (Exists (fun y => same_edge y x) l) then distinct_edges l
    else distinct_edges l ++ [x].
Proof.
  induction l as [|a l IH].
  - destruct (decide (Exists _ [])) as [Hex|_]; [|reflexivity].
    now apply Exists_nil in Hex.
  - change ((a :: l) ++ [x]) with (a :: (l ++ [x])). cbn [distinct_edges]. rewrite IH.
    destruct (decide (Exists (fun y => same_edge y x) l)) as [Hex|Hnex].
    + rewrite decide_True by now apply Exists_cons_tl. reflexivity.
    + rewrite filter_app. destruct (decide (same_edge x a)) as [Hs|Hns].
      * rewrite decide_True by (apply Exists_cons_hd; now apply same_edge_sym).
        rewrite filter_cons_False by tauto. now rewrite app_nil_r.
      * rewrite decide_False.
        -- rewrite filter_cons_True by exact Hns. reflexivity.
        -- intros Hex. apply Exists_cons in Hex. destruct Hex as [Hs|Hex]; [|tauto].
           apply Hns. now apply same_edge_sym.
Qed.

Lemma degree_of_add_self u (nb : gset string) :
  degree_of u ({[u]} ∪ ({[u]} ∪ nb)) = degree_of u nb + (if decide (u ∈ nb) then 0 else 2).
Proof.
  unfold degree_of. destruct (decide (u ∈ nb)) as [Hin|Hnin].
  - replace ({[u]} ∪ ({[u]} ∪ nb)) with nb by set_solver.
    destruct (decide (u ∈ nb)); [lia|contradiction].
  - replace ({[u]} ∪ ({[u]} ∪ nb)) with ({[u]} ∪ nb) by set_solver.
    rewrite size_union, size_singleton by set_solver.
    destruct (decide (u ∈ {[u]} ∪ nb)) as [_|Hn]; [lia|]. exfalso. set_solver.
Qed.

Lemma degree_sum_add_loop u G :
  consistent G ->
  degree_sum (add_edge u u G)
  = degree_sum G + (if decide (u ∈ neighbors G u) then 0 else 2).
Proof.
  intros HG.
  destruct (add_edge_nodes u u G HG) as (HG' & Hn & [nbu Eu] & _).
  assert (Hs : degree_sum (add_node ∅ (add_node ∅ G u) u) = degree_sum G).
  { rewrite degree_sum_add_node by now apply consistent_add_node.
    now apply degree_sum_add_node. }
  rewrite <- Hs, <- (Hn u).
  unfold degree_sum, add_edge, neighbors. cbn [g_adj]. rewrite Eu. simpl.
  rewrite (alter_as_insert _ _ u nbu Eu).
  rewrite (alter_as_insert _ _ u ({[u]} ∪ nbu)) by apply lookup_insert_eq.
  rewrite insert_insert_eq.
  set (adj := g_adj (add_node ∅ (add_node ∅ G u) u)) in *.
  fold (degree_sum_of adj).
  fold (degree_sum_of (<[u:={[u]} ∪ ({[u]} ∪ nbu)]> adj)).
  pose proof (degree_sum_of_insert adj u nbu ({[u]} ∪ ({[u]} ∪ nbu)) Eu) as H1.
  rewrite degree_of_add_self in H1. lia.
Qed.

(** In a graph whose neighbourhoods are symmetric, a new edge adds two to
    the sum of the degrees, and an edge that is there already adds
    nothing. *)
Lemma degree_sum_add_edge_symmetric u v G :
  consistent G -> (v ∈ neighbors G u <-> u ∈ neighbors G v) ->
  degree_sum (add_edge u v G)
  = degree_sum G + (if decide (v ∈ neighbors G u) then 0 else 2).
Proof.
  intros HG Hsym. destruct (decide (u = v)) as [->|Huv].
  - now apply degree_sum_add_loop.
  - rewrite degree_sum_add_edge by assumption.
    destruct (decide (v ∈ neighbors G u)) as [Hin|Hnin].
    + rewrite decide_True by tauto. lia.
    + rewrite decide_False by tauto. lia.
Qed.

(** The degrees add up to twice the number of distinct associations,
    counted as undirected edges. *)
Lemma fold_edges_degree_sum rows G0 :
  consistent G0 -> (forall m, neighbors G0 m = ∅) ->
  degree_sum (foldl add_row_edge G0 rows)
  = degree_sum G0 + 2 * length (edges_of_rows rows).
Proof.
  intros HG0 Hempty. induction rows as [|r rows IH] using rev_ind.
  - simpl. lia.
  - rewrite foldl_snoc. unfold edges_of_rows in *.
    rewrite omap_app. unfold add_row_edge at 1.
    change (omap association [r]) with
      (match association r with Some y => [y] | None => [] end).
    unfold association at 2. destruct (org_name r) as [c|] eqn:Ec; cbn [mbind option_bind].
    + remember (patient_id r) as p eqn:Ep. clear Ep.
      set (G := foldl add_row_edge G0 rows) in *.
      assert (HG : consistent G) by now apply fold_edges_consistent.
      assert (Hin : forall m x, (m = p /\ x = c) \/ (m = c /\ x = p) ->
                x ∈ neighbors G m <->
                Exists (fun y => same_edge y (p, c)) (omap association rows)).
      { intros m x Hmx. unfold G. rewrite fold_edges_neighbors by exact HG0.
        rewrite Hempty, Exists_exists. split.
        - intros [Hx|(r' & Hr' & c' & Ec' & Hj)]; [now apply elem_of_empty in Hx|].
          exists (patient_id r', c'). split.
          + apply list_elem_of_omap. exists r'. split; [exact Hr'|].
            unfold association. now rewrite Ec'.
          + unfold same_edge. simpl.
            destruct Hmx as [[-> ->]|[-> ->]], Hj as [[E1 E2]|[E1 E2]];
              subst; auto.
        - intros (y & Hy & Hsame). right.
          apply list_elem_of_omap in Hy. destruct Hy as (r' & Hr' & Hass).
          exists r'. split; [exact Hr'|].
          unfold association in Hass. destruct (org_name r') as [c'|] eqn:Ec'; [|discriminate].
          cbn in Hass. injection Hass as <-.
          exists c'. split; [exact Ec'|].
          unfold same_edge in Hsame. simpl in Hsame.
          destruct Hmx as [[-> ->]|[-> ->]], Hsame as [[= E1 E2]|[= E1 E2]];
            subst; auto. }
      rewrite degree_sum_add_edge_symmetric;
        [|exact HG|rewrite !Hin by auto; reflexivity].
      rewrite IH, distinct_edges_snoc.
      destruct (decide (Exists _ (omap association rows))) as [Hyes|Hno].
      * rewrite decide_True by (apply Hin; auto). lia.
      * rewrite decide_False by (rewrite Hin; auto). rewrite length_app. simpl. lia.
    + rewrite app_nil_r. exact IH.
Qed.

Lemma filter_agree {A} (P Q : A -> Prop) `{forall x, Decision (P x)} `{forall x, Decision (Q x)}
    (l : list A) :
  (forall x, x ∈ l -> (P x <-> Q x)) -> filter P l = filter Q l.
Proof.
  induction l as [|a l IH]; intros Hl; [reflexivity|].
  rewrite !filter_cons.
  rewrite IH by (intros x Hx; apply Hl; now apply list_elem_of_further).
  pose proof (Hl a (list_elem_of_here _ _)) as Ha.
  destruct (decide (P a)) as [HP|HP]; destruct (decide (Q a)) as [HQ|HQ];
    try reflexivity; tauto.
Qed.

Lemma elem_of_distinct_edges l x : x ∈ distinct_edges l -> x ∈ l.
Proof.
  revert x. induction l as [|a l IH]; intros x; simpl; [auto|].
  rewrite !elem_of_cons, list_elem_of_filter. intros [->|[_ Hx]]; auto.
Qed.

(** With identifiers and clinic names apart no two associations differ by
    orientation only: the undirected edges are the distinct pairs. *)
Lemma edges_of_rows_apart rows :
  ids_apart rows -> edges_of_rows rows = associations rows.
Proof.
  intros Ha. unfold edges_of_rows, associations.
  assert (Hpairs : forall x y, x ∈ omap association rows -> y ∈ omap association rows ->
            same_edge y x -> y = x).
  { intros x y Hx Hy [E|E]; [exact E|]. exfalso.
    apply list_elem_of_omap in Hx, Hy.
    destruct Hx as (r & Hr & Hx), Hy as (r' & Hr' & Hy).
    unfold association in Hx, Hy.
    destruct (org_name r) as [c|] eqn:Ec; [|discriminate].
    destruct (org_name r') as [c'|] eqn:Ec'; [|discriminate].
    cbn in Hx, Hy. injection Hx as <-. injection Hy as <-.
    simpl in E. injection E as E1 E2.
    apply (Ha r' r Hr' Hr). rewrite Ec. congruence. }
  revert Hpairs. generalize (omap association rows). clear.
  intros l. induction l as [|a l IH]; intros Hpairs; [reflexivity|].
  cbn [distinct_edges unique]. f_equal.
  rewrite IH by (intros x y Hx Hy Hs; apply Hpairs;
                 [now apply list_elem_of_further|now apply list_elem_of_further|exact Hs]).
  apply filter_agree. intros y Hy. rewrite elem_of_unique in Hy. split.
  - intros Hns ->. apply Hns. now left.
  - intros Hne Hs. apply Hne. apply Hpairs;
      [apply list_elem_of_here|now apply list_elem_of_further|exact Hs].
Qed.

(** *** Selection and restriction *)

Lemma elem_of_restrict_to top cohort_map r :
  r ∈ restrict_to top cohort_map
  <-> r ∈ cohort_map /\ exists c, org_name r = Some c /\ c ∈ top.
Proof.
  unfold restrict_to. rewrite list_elem_of_filter. unfold isin.
  destruct (org_name r) as [c|].
  - rewrite bool_decide_eq_true. split.
    + intros [Hc Hr]. eauto.
    + intros [Hr (c' & [= <-] & Hc)]. auto.
  - split; [intros [[=] _]|intros [_ (c & [=] & _)]].
Qed.

Lemma value_counts_perm kind col :
  value_counts kind col ≡ₚ
  map (fun v => (v, Z.of_nat (length (filter (fun w => w = v) (omap id col)))))
      (unique (omap id col)).
Proof. apply sort_values_perm. Qed.

(** The counts decide the order whenever no two of them are equal. *)
Lemma value_counts_determined kind kind' col :
  NoDup (snd <$> value_counts kind' col) ->
  value_counts kind col = value_counts kind' col.
Proof.
  intros Hnd. apply sort_values_determined.
  now rewrite value_counts_perm in Hnd.
Qed.

Lemma ids_apart_Forall rows :
  Forall (fun r => Forall (fun r' => org_name r' <> Some (patient_id r)) rows) rows ->
  ids_apart rows.
Proof.
  rewrite Forall_forall. intros Hall r r' Hr Hr'.
  specialize (Hall r Hr). rewrite Forall_forall in Hall. now apply Hall.
Qed.

(** *** The graph of a selection *)

Section Built.
Context (top : list string) (cohort_map : list cohort_row).

Let rows := restrict_to top cohort_map.
Let patients := unique (map patient_id rows).
Let G := build_graph_from top cohort_map.

Lemma nodes_added_consistent :
  consistent (add_nodes_from patients patient_attr
                (add_nodes_from top clinic_attr empty_graph)).
Proof. do 2 apply consistent_add_nodes_from. apply consistent_empty. Qed.

Lemma nodes_added_no_neighbors m :
  neighbors (add_nodes_from patients patient_attr
               (add_nodes_from top clinic_attr empty_graph)) m = ∅.
Proof.
  rewrite !neighbors_add_nodes_from;
    [reflexivity|apply consistent_empty|apply consistent_add_nodes_from, consistent_empty].
Qed.

Lemma built_consistent : consistent G.
Proof. apply fold_edges_consistent, nodes_added_consistent. Qed.

Lemma built_neighbors m x :
  x ∈ neighbors G m <-> exists r, r ∈ rows /\ joins r m x.
Proof.
  unfold G, build_graph_from. rewrite fold_edges_neighbors by apply nodes_added_consistent.
  rewrite nodes_added_no_neighbors. split.
  - intros [Hx|Hr]; [now apply elem_of_empty in Hx|exact Hr].
  - intros Hr. now right.
Qed.

Lemma built_has_edge u v :
  has_edge G u v = true <-> exists r, r ∈ rows /\ joins r u v.
Proof.
  rewrite <- built_neighbors. unfold has_edge, neighbors.
  destruct (g_adj G !! u) as [nb|]; simpl.
  - apply bool_decide_eq_true.
  - split; [discriminate|]. intros Hx. now apply elem_of_empty in Hx.
Qed.

Lemma built_node_type m :
  node_type G m =
  if decide (m ∈ patients) then Some "patient"
  else if decide (m ∈ top) then Some "clinic" else None.
Proof.
  unfold G, build_graph_from. rewrite fold_edges_node_type.
  unfold patient_attr, clinic_attr. rewrite !node_type_add_nodes_from.
  reflexivity.
Qed.

Lemma row_patient_listed r : r ∈ rows -> patient_id r ∈ patients.
Proof.
  intros Hr. unfold patients. apply elem_of_unique.
  change (map patient_id rows) with (patient_id <$> rows).
  now apply list_elem_of_fmap_2.
Qed.

Lemma row_clinic_selected r c : r ∈ rows -> org_name r = Some c -> c ∈ top.
Proof.
  intros Hr Hc. apply elem_of_restrict_to in Hr.
  destruct Hr as (_ & c' & Hc' & Hin). congruence.
Qed.

Lemma built_nodes m :
  is_Some (g_node G !! m) <-> m ∈ top \/ m ∈ patients.
Proof.
  unfold G, build_graph_from. rewrite fold_edges_node, !node_add_nodes_from.
  fold rows. fold patients. cbn [empty_graph g_node]. rewrite lookup_empty. split.
  - intros [[?|[?|[? [=]]]]|(r & c & Hr & Hc & [->| ->])]; auto.
    + right. now apply row_patient_listed.
    + left. eapply row_clinic_selected; eauto.
  - intros [?|?]; auto.
Qed.

Lemma built_number_of_edges :
  number_of_edges G = length (edges_of_rows rows).
Proof.
  unfold number_of_edges. fold (degree_sum G).
  unfold G, build_graph_from.
  rewrite fold_edges_degree_sum;
    [|apply nodes_added_consistent|apply nodes_added_no_neighbors].
  rewrite !degree_sum_add_nodes_from;
    [|apply consistent_empty|apply consistent_add_nodes_from, consistent_empty].
  unfold degree_sum, degree_sum_of, empty_graph. cbn [g_adj]. rewrite map_fold_empty.
  fold rows. rewrite Nat.add_0_l, Nat.mul_comm. apply Nat.div_mul. discriminate.
Qed.

Lemma built_number_of_edges_apart :
  ids_apart rows -> number_of_edges G = length (associations rows).
Proof. intros Ha. rewrite built_number_of_edges. now rewrite edges_of_rows_apart. Qed.

End Built.

(** On the example table every sorting algorithm gives the same counts:
    clinic A 2, clinic B 1. *)
Lemma example_counts kind :
  clinic_patient_counts kind example_map = [("clinicA", 2%Z); ("clinicB", 1%Z)].
Proof.
  unfold clinic_patient_counts.
  rewrite (value_counts_determined kind stable_kind).
  - vm_compute. reflexivity.
  - apply (bool_decide_unpack _). vm_compute. exact I.
Qed.

Lemma example_graph k kind :
  2 <= k -> build_graph_k k kind example_map = build_graph stable_kind example_map.
Proof.
  intros Hk. unfold build_graph, build_graph_k, top_k_clinics.
  rewrite !example_counts. do 2 (destruct k as [|k]; [lia|]).
  cbn [take]. rewrite take_nil. reflexivity.
Qed.

(** C7. The graph has an edge between two nodes exactly when some row of
    the frame restricted to the selected clinics associates them as patient
    and clinic, so each distinct (patient, clinic) pair of those rows has its
    edge; the number of edges is the number of distinct pairs, counted as
    undirected edges, which is the number of distinct (patient, clinic) pairs
    when patient identifiers and clinic names are apart: repeating a row
    adds no edge.  For p1 and p2 at clinic A and p3 at clinic B, with K = 2
    as with the notebook's K = 10, there are 2 clinic nodes, 3 patient nodes
    and 3 edges, clinic A carries the count 2 and clinic B the count 1, and
    repeating a row leaves the 3 edges. *)
Theorem one_edge_per_association (k : nat) (kind : sort_kind) (cohort_map : list cohort_row) :
  (forall u v,
     has_edge (build_graph_k k kind cohort_map) u v = true <->
     exists r, r ∈ restrict_to (top_k_clinics k kind cohort_map) cohort_map /\ joins r u v) /\
  (forall p c,
     (p, c) ∈ associations (restrict_to (top_k_clinics k kind cohort_map) cohort_map) ->
     has_edge (build_graph_k k kind cohort_map) p c = true /\
     has_edge (build_graph_k k kind cohort_map) c p = true) /\
  number_of_edges (build_graph_k k kind cohort_map)
  = length (edges_of_rows (restrict_to (top_k_clinics k kind cohort_map) cohort_map)) /\
  (ids_apart (restrict_to (top_k_clinics k kind cohort_map) cohort_map) ->
   number_of_edges (build_graph_k k kind cohort_map)
   = length (associations (restrict_to (top_k_clinics k kind cohort_map) cohort_map))) /\
  (forall K, K = 2 \/ K = 10 ->
     nodes_of_type (build_graph_k K kind example_map) "clinic" = {[ "clinicA"; "clinicB" ]} /\
     nodes_of_type (build_graph_k K kind example_map) "patient" = {[ "p1"; "p2"; "p3" ]} /\
     number_of_nodes (build_graph_k K kind example_map) = 5 /\
     number_of_edges (build_graph_k K kind example_map) = 3 /\
     patient_count kind example_map "clinicA" = Some 2%Z /\
     patient_count kind example_map "clinicB" = Some 1%Z /\
     number_of_edges (build_graph_from ["clinicA"; "clinicB"]
                        (visit "p1" "clinicA" :: example_map)) = 3).
Proof.
  split; [|split; [|split; [|split]]].
  - intros u v. apply built_has_edge.
  - intros p c Hin. unfold associations in Hin.
    rewrite elem_of_unique, list_elem_of_omap in Hin. destruct Hin as (r & Hr & Hass).
    unfold association in Hass. destruct (org_name r) as [c'|] eqn:Ec; [|discriminate].
    cbn in Hass. injection Hass as <- <-.
    split; apply built_has_edge; exists r; (split; [exact Hr|]); exists c'; auto.
  - apply built_number_of_edges.
  - apply built_number_of_edges_apart.
  - intros K HK. unfold patient_count. rewrite !example_counts.
    rewrite (example_graph K kind) by (destruct HK; subst; lia).
    repeat split; vm_compute; reflexivity.
Qed.

Lemma one_edge_per_association_witness :
  number_of_edges (build_graph stable_kind (visit "p1" "clinicA" :: example_map))
  = length (associations
              (restrict_to (top_clinics stable_kind (visit "p1" "clinicA" :: example_map))
                           (visit "p1" "clinicA" :: example_map))).
Proof.
  apply (proj1 (proj2 (proj2 (proj2
    (one_edge_per_association 10 stable_kind (visit "p1" "clinicA" :: example_map)))))).
  apply ids_apart_Forall. apply (bool_decide_unpack _). vm_compute. exact I.
Defined.

(** C10. When no patient identifier is the name of a clinic, the graph is
    bipartite: every node carries the type "patient" or the type "clinic",
    and every edge joins a node of one type to a node of the other. *)
Theorem graph_is_bipartite (k : nat) (kind : sort_kind) (cohort_map : list cohort_row) :
  ids_apart cohort_map ->
  (forall n, is_Some (g_node (build_graph_k k kind cohort_map) !! n) ->
     node_type (build_graph_k k kind cohort_map) n = Some "patient" \/
     node_type (build_graph_k k kind cohort_map) n = Some "clinic") /\
  (forall u v, has_edge (build_graph_k k kind cohort_map) u v = true ->
     (node_type (build_graph_k k kind cohort_map) u = Some "patient" /\
      node_type (build_graph_k k kind cohort_map) v = Some "clinic") \/
     (node_type (build_graph_k k kind cohort_map) u = Some "clinic" /\
      node_type (build_graph_k k kind cohort_map) v = Some "patient")).
Proof.
  intros Ha. unfold build_graph_k.
  set (top := top_k_clinics k kind cohort_map).
  assert (Hclinic : forall r c, r ∈ restrict_to top cohort_map -> org_name r = Some c ->
            node_type (build_graph_from top cohort_map) c = Some "clinic").
  { intros r c Hr Hc. rewrite built_node_type.
    rewrite decide_False.
    - rewrite decide_True by (eapply row_clinic_selected; eauto). reflexivity.
    - intros Hin. rewrite elem_of_unique in Hin.
      change (map patient_id ?l) with (patient_id <$> l) in Hin.
      apply list_elem_of_fmap in Hin. destruct Hin as (r' & -> & Hr').
      apply elem_of_restrict_to in Hr, Hr'.
      apply (Ha r' r); tauto. }
  assert (Hpatient : forall r, r ∈ restrict_to top cohort_map ->
            node_type (build_graph_from top cohort_map) (patient_id r) = Some "patient").
  { intros r Hr. rewrite built_node_type.
    rewrite decide_True by now apply row_patient_listed. reflexivity. }
  split.
  - intros n Hn. apply built_nodes in Hn. rewrite built_node_type.
    destruct (decide (n ∈ _)) as [|Hnp]; [now left|].
    destruct Hn as [Hn|Hn]; [|contradiction].
    rewrite decide_True by exact Hn. now right.
  - intros u v He. apply built_has_edge in He.
    destruct He as (r & Hr & c & Hc & [[-> ->]|[-> ->]]).
    + left. split; [now apply Hpatient|eapply Hclinic; eauto].
    + right. split; [eapply Hclinic; eauto|now apply Hpatient].
Qed.

Lemma graph_is_bipartite_witness :
  node_type (build_graph stable_kind example_map) "p1" = Some "patient" /\
  node_type (build_graph stable_kind example_map) "clinicA" = Some "clinic" /\
  has_edge (build_graph stable_kind example_map) "p1" "clinicA" = true.
Proof.
  assert (Ha : ids_apart example_map).
  { apply ids_apart_Forall. apply (bool_decide_unpack _). vm_compute. exact I. }
  pose proof (graph_is_bipartite 10 stable_kind example_map Ha) as [_ Hedge].
  assert (He : has_edge (build_graph stable_kind example_map) "p1" "clinicA" = true)
    by (vm_compute; reflexivity).
  destruct (Hedge "p1" "clinicA" He) as [[Hp Hc]|[Hc _]].
  - auto.
  - exfalso. revert Hc. vm_compute. discriminate.
Defined.

(** C2, on the code.  The selection counts the rows of [cohort_map], one
    per episode, not the distinct patients: on [repeat_visits] clinic c11,
    whose single patient has 12 episodes, heads the selected ten with the
    count 12, and clinic c01 with two patients is left out; counting distinct
    patients selects c01 and leaves c11 out.  No two counts are equal, so
    this holds for every sorting algorithm. *)
Theorem selection_counts_rows (kind : sort_kind) :
  top_clinics kind repeat_visits
    = ["c11"; "c10"; "c09"; "c08"; "c07"; "c06"; "c05"; "c04"; "c03"; "c02"] /\
  top_k_by_distinct_patients 10 kind repeat_visits
    = ["c10"; "c09"; "c08"; "c07"; "c06"; "c05"; "c04"; "c03"; "c02"; "c01"] /\
  patient_count kind repeat_visits "c11" = Some 12%Z /\
  distinct_patients repeat_visits "c11" = 1 /\
  distinct_patients repeat_visits "c01" = 2.
Proof.
  assert (Ec : clinic_patient_counts kind repeat_visits
               = clinic_patient_counts stable_kind repeat_visits).
  { apply value_counts_determined. apply (bool_decide_unpack _). vm_compute. exact I. }
  split; [|split; [|split; [|split]]].
  - unfold top_clinics, top_k_clinics. rewrite Ec. vm_compute. reflexivity.
  - unfold top_k_by_distinct_patients.
    rewrite (sort_values_determined kind stable_kind).
    + vm_compute. reflexivity.
    + apply (bool_decide_unpack _). vm_compute. exact I.
  - unfold patient_count. rewrite Ec. vm_compute. reflexivity.
  - vm_compute. reflexivity.
  - vm_compute. reflexivity.
Qed.

End NetworkFacts.

(** ** Lists without repetition *)

Module ListFacts.
Import Sorting SortingFacts.

Lemma filter_all {A} (P : A -> Prop) `{forall x, Decision (P x)} (l : list A) :
  (forall x, x ∈ l -> P x) -> filter P l = l.
Proof.
  induction l as [|a l IH]; intros Hall; [reflexivity|].
  rewrite filter_cons, decide_True by (apply Hall, list_elem_of_here).
  f_equal. apply IH. intros x Hx. apply Hall. now apply list_elem_of_further.
Qed.

Lemma filter_none {A} (P : A -> Prop) `{forall x, Decision (P x)} (l : list A) :
  (forall x, x ∈ l -> ~ P x) -> filter P l = [].
Proof.
  induction l as [|a l IH]; intros Hall; [reflexivity|].
  rewrite filter_cons, decide_False by (apply Hall, list_elem_of_here).
  apply IH. intros x Hx. apply Hall. now apply list_elem_of_further.
Qed.

Lemma length_unique_le {A} `{EqDecision A} (l : list A) : length (unique l) <= length l.
Proof.
  induction l as [|x l IH]; [reflexivity|]. cbn [unique length].
  pose proof (length_filter (fun y => y <> x) (unique l)). lia.
Qed.

Lemma unique_NoDup {A} `{EqDecision A} (l : list A) : NoDup l -> unique l = l.
Proof.
  induction 1 as [|x l Hx Hnd IH]; [reflexivity|]. cbn [unique]. rewrite IH. f_equal.
  apply filter_all. intros y Hy ->. contradiction.
Qed.

Lemma length_unique_NoDup {A} `{EqDecision A} (l : list A) :
  length (unique l) = length l <-> NoDup l.
Proof.
  split; [|intros Hnd; now rewrite unique_NoDup].
  induction l as [|x l IH]; intros Hlen; [constructor|].
  cbn [unique length] in Hlen.
  pose proof (length_filter (fun y => y <> x) (unique l)) as Hf.
  pose proof (length_unique_le l) as Hu.
  apply NoDup_cons. split.
  - intros Hx. rewrite <- elem_of_unique in Hx.
    assert (Hlt : length (filter (fun y => y <> x) (unique l)) < length (unique l))
      by (apply (length_filter_lt _ _ x); [exact Hx|intros Hxx; now apply Hxx]).
    lia.
  - apply IH. lia.
Qed.

End ListFacts.

(** ** Further properties of the selection and of the graph *)

Module NetworkMore.
Import Sorting SortingFacts ListFacts Network NetworkFacts CohortMap NetworkTrace.

Lemma omap_id_org_name (cohort_map : list cohort_row) :
  omap id (map org_name cohort_map) = omap org_name cohort_map.
Proof.
  induction cohort_map as [|r cm IH]; [reflexivity|].
  cbn [map].
  change (omap ?f (?x :: ?l)) with
    (match f x with Some y => y :: omap f l | None => omap f l end).
  unfold id at 1. now rewrite IH.
Qed.

Lemma length_occurrences cohort_map c :
  length (filter (fun w => w = c) (omap org_name cohort_map))
  = length (clinic_rows cohort_map c).
Proof.
  unfold clinic_rows. induction cohort_map as [|r cm IH]; [reflexivity|].
  change (omap ?f (?x :: ?l)) with
    (match f x with Some y => y :: omap f l | None => omap f l end).
  rewrite (filter_cons _ r). destruct (org_name r) as [c'|] eqn:E.
  - rewrite filter_cons. destruct (decide (c' = c)) as [->|Hne].
    + rewrite decide_True by reflexivity. simpl. now rewrite IH.
    + rewrite decide_False by congruence. exact IH.
  - rewrite decide_False by discriminate. exact IH.
Qed.

Lemma clinic_rows_nonempty cohort_map c :
  clinic_rows cohort_map c <> [] <-> c ∈ omap org_name cohort_map.
Proof.
  rewrite list_elem_of_omap. unfold clinic_rows. split.
  - intros Hne. destruct (filter _ cohort_map) as [|r l] eqn:E; [contradiction|].
    assert (Hr : r ∈ filter (fun r => org_name r = Some c) cohort_map)
      by (rewrite E; apply list_elem_of_here).
    apply list_elem_of_filter in Hr. exists r. tauto.
  - intros (r & Hr & Hc) E.
    assert (Hin : r ∈ filter (fun r => org_name r = Some c) cohort_map)
      by (apply list_elem_of_filter; auto).
    rewrite E in Hin. now apply elem_of_nil in Hin.
Qed.

(** The frame of counts is a rearrangement of the clinics in first-seen
    order, each with the number of its rows. *)
Lemma clinic_counts_perm kind cohort_map :
  clinic_patient_counts kind cohort_map ≡ₚ
  (fun c => (c, Z.of_nat (length (clinic_rows cohort_map c))))
    <$> unique (omap org_name cohort_map).
Proof.
  unfold clinic_patient_counts. rewrite value_counts_perm, omap_id_org_name.
  change (map ?f ?l) with (f <$> l).
  erewrite list_fmap_ext; [reflexivity|]. intros _ c _. cbv beta.
  now rewrite length_occurrences.
Qed.

Lemma clinic_counts_names kind cohort_map :
  fst <$> clinic_patient_counts kind cohort_map ≡ₚ unique (omap org_name cohort_map).
Proof.
  rewrite clinic_counts_perm, <- list_fmap_compose. now rewrite list_fmap_id.
Qed.

Lemma elem_of_clinic_counts kind cohort_map c n :
  (c, n) ∈ clinic_patient_counts kind cohort_map
  <-> n = Z.of_nat (length (clinic_rows cohort_map c)) /\ clinic_rows cohort_map c <> [].
Proof.
  rewrite clinic_counts_perm, list_elem_of_fmap, clinic_rows_nonempty. split.
  - intros (c' & [= -> ->] & Hc). rewrite elem_of_unique in Hc. auto.
  - intros [-> Hc]. exists c. rewrite elem_of_unique. auto.
Qed.

Lemma clinic_counts_descending kind cohort_map :
  StronglySorted (fun a b => (a.2 >= b.2)%Z) (clinic_patient_counts kind cohort_map).
Proof. apply (sort_values_descending_rows kind snd). Qed.

(** Over a duplicate-free list of keys that holds every element of a list,
    the numbers of occurrences add up to the length of the list. *)
Lemma sum_occurrences (keys l : list string) :
  NoDup keys -> (forall x, x ∈ l -> x ∈ keys) ->
  sum_list ((fun k => length (filter (fun w => w = k) l)) <$> keys) = length l.
Proof.
  intros Hnd. induction l as [|a l IH]; intros Hall.
  - apply AggregatorFacts.sum_zero.
  - cbn [length]. rewrite <- IH by (intros x Hx; apply Hall; now apply list_elem_of_further).
    transitivity (sum_list ((fun k => (if decide (a = k) then 1 else 0)
                                      + length (filter (fun w => w = k) l)) <$> keys)).
    + f_equal. apply list_fmap_ext. intros _ k _. rewrite filter_cons.
      destruct (decide (a = k)); reflexivity.
    + rewrite AggregatorFacts.sum_list_add, AggregatorFacts.sum_indicator;
        [reflexivity|exact Hnd|apply Hall, list_elem_of_here].
Qed.

Lemma length_omap_org_name (cohort_map : list cohort_row) :
  length (omap org_name cohort_map)
  = length (filter (fun r => is_Some (org_name r)) cohort_map).
Proof.
  induction cohort_map as [|r cm IH]; [reflexivity|].
  change (omap ?f (?x :: ?l)) with
    (match f x with Some y => y :: omap f l | None => omap f l end).
  rewrite filter_cons. destruct (org_name r) as [c|].
  - rewrite decide_True by eauto. simpl. now rewrite IH.
  - rewrite decide_False by (intros [? ?]; discriminate). exact IH.
Qed.

(** X1. Whatever the sorting algorithm, [clinic_patient_counts] lists each
    clinic that occurs in [cohort_map] exactly once, with the number of rows
    recorded for it; the counts are in descending order and add up to the
    number of rows that name a clinic (rows without a clinic are counted
    nowhere). *)
Theorem clinic_counts_are_row_counts (kind : sort_kind) (cohort_map : list cohort_row) :
  NoDup (fst <$> clinic_patient_counts kind cohort_map) /\
  (forall c n, (c, n) ∈ clinic_patient_counts kind cohort_map <->
     n = Z.of_nat (length (clinic_rows cohort_map c)) /\ clinic_rows cohort_map c <> []) /\
  StronglySorted (fun a b => (a.2 >= b.2)%Z) (clinic_patient_counts kind cohort_map) /\
  total (snd <$> clinic_patient_counts kind cohort_map)
  = Z.of_nat (length (filter (fun r => is_Some (org_name r)) cohort_map)).
Proof.
  split; [|split; [|split]].
  - rewrite clinic_counts_names. apply NoDup_unique.
  - intros c n. apply elem_of_clinic_counts.
  - apply clinic_counts_descending.
  - rewrite (total_perm _ _ (fmap_Permutation snd _ _ (clinic_counts_perm kind cohort_map))).
    rewrite <- list_fmap_compose.
    rewrite (list_fmap_ext _ (Z.of_nat ∘ (fun c => length (clinic_rows cohort_map c))) _)
      by (intros; reflexivity).
    rewrite list_fmap_compose, total_of_nat. f_equal.
    rewrite <- length_omap_org_name.
    rewrite <- (sum_occurrences (unique (omap org_name cohort_map)) (omap org_name cohort_map)).
    + f_equal. apply list_fmap_ext. intros _ c _. symmetry. apply length_occurrences.
    + apply NoDup_unique.
    + intros x Hx. now apply elem_of_unique.
Qed.

Lemma elem_of_top_k k kind cohort_map c :
  c ∈ top_k_clinics k kind cohort_map ->
  (c, Z.of_nat (length (clinic_rows cohort_map c)))
    ∈ take k (clinic_patient_counts kind cohort_map).
Proof.
  unfold top_k_clinics. change (map ?f ?l) with (f <$> l).
  rewrite list_elem_of_fmap. intros ([c' n] & -> & Hin). cbn [fst].
  pose proof (subseteq_take _ _ _ Hin) as Hcpc.
  apply elem_of_clinic_counts in Hcpc as [-> _]. exact Hin.
Qed.

Lemma top_k_occurs k kind cohort_map c :
  c ∈ top_k_clinics k kind cohort_map -> clinic_rows cohort_map c <> [].
Proof.
  intros Hc. apply elem_of_top_k in Hc.
  apply subseteq_take in Hc. now apply elem_of_clinic_counts in Hc.
Qed.

Lemma NoDup_top_k k kind cohort_map : NoDup (top_k_clinics k kind cohort_map).
Proof.
  unfold top_k_clinics. change (map ?f ?l) with (f <$> l). rewrite fmap_take.
  eapply sublist_NoDup; [|apply sublist_take].
  rewrite clinic_counts_names. apply NoDup_unique.
Qed.

Lemma length_top_k k kind cohort_map :
  length (top_k_clinics k kind cohort_map)
  = k `min` length (unique (omap org_name cohort_map)).
Proof.
  unfold top_k_clinics. change (map ?f ?l) with (f <$> l).
  rewrite length_fmap, length_take.
  rewrite <- (Permutation_length (clinic_counts_names kind cohort_map)), length_fmap.
  reflexivity.
Qed.

(** X2. The selection keeps [k] clinics, or all of them when fewer occur;
    no clinic is selected twice, every selected clinic occurs in
    [cohort_map], and no clinic left out has more rows than a selected one,
    whatever the sorting algorithm does with equal counts. *)
Theorem top_k_are_largest (k : nat) (kind : sort_kind) (cohort_map : list cohort_row) :
  length (top_k_clinics k kind cohort_map)
    = k `min` length (unique (omap org_name cohort_map)) /\
  NoDup (top_k_clinics k kind cohort_map) /\
  (forall c, c ∈ top_k_clinics k kind cohort_map -> clinic_rows cohort_map c <> []) /\
  (forall c c', c ∈ top_k_clinics k kind cohort_map ->
     c' ∉ top_k_clinics k kind cohort_map ->
     length (clinic_rows cohort_map c') <= length (clinic_rows cohort_map c)).
Proof.
  split; [apply length_top_k|]. split; [apply NoDup_top_k|].
  split; [apply top_k_occurs|].
  intros c c' Hc Hc'.
  destruct (clinic_rows cohort_map c') as [|r0 l0] eqn:E; [simpl; lia|].
  rewrite <- E.
  assert (Hin' : (c', Z.of_nat (length (clinic_rows cohort_map c')))
                 ∈ clinic_patient_counts kind cohort_map).
  { apply elem_of_clinic_counts. split; [reflexivity|]. now rewrite E. }
  apply elem_of_top_k in Hc.
  rewrite <- (take_drop k (clinic_patient_counts kind cohort_map)) in Hin'.
  apply elem_of_app in Hin' as [Hin'|Hin'].
  - exfalso. apply Hc'. unfold top_k_clinics. change (map ?f ?l) with (f <$> l).
    apply list_elem_of_fmap. eexists. split; [|exact Hin']. reflexivity.
  - pose proof (clinic_counts_descending kind cohort_map) as Hs.
    rewrite <- (take_drop k (clinic_patient_counts kind cohort_map)) in Hs.
    pose proof (StronglySorted_app_1_elem_of _ _ _ _ _ Hs Hc Hin') as Hge.
    cbn [snd] in Hge. lia.
Qed.

Lemma top_k_all k kind cohort_map :
  length (unique (omap org_name cohort_map)) <= k ->
  forall c, c ∈ top_k_clinics k kind cohort_map <-> c ∈ omap org_name cohort_map.
Proof.
  intros Hk c. unfold top_k_clinics. rewrite take_ge.
  - change (map ?f ?l) with (f <$> l). now rewrite clinic_counts_names, elem_of_unique.
  - rewrite <- (length_fmap fst), (Permutation_length (clinic_counts_names kind cohort_map)).
    exact Hk.
Qed.

(** X3. When no more than [k] distinct clinics occur, the selection drops
    no clinic: the restricted frame holds every row of [cohort_map] that
    names a clinic, in the same order, and leaves out only the rows without
    one. *)
Theorem few_clinics_all_kept (k : nat) (kind : sort_kind) (cohort_map : list cohort_row) :
  length (unique (omap org_name cohort_map)) <= k ->
  top_k_clinics k kind cohort_map ≡ₚ unique (omap org_name cohort_map) /\
  restrict_to (top_k_clinics k kind cohort_map) cohort_map
  = filter (fun r => is_Some (org_name r)) cohort_map.
Proof.
  intros Hk. split.
  - unfold top_k_clinics. rewrite take_ge.
    + apply clinic_counts_names.
    + rewrite <- (length_fmap fst), (Permutation_length (clinic_counts_names kind cohort_map)).
      exact Hk.
  - unfold restrict_to. apply filter_agree. intros r Hr.
    destruct (org_name r) as [c|] eqn:E; cbn [isin].
    + rewrite bool_decide_eq_true, (top_k_all k kind cohort_map Hk c), list_elem_of_omap.
      split; [eauto|]. intros _. exists r. auto.
    + split; [discriminate|]. intros [? ?]. discriminate.
Qed.

Lemma few_clinics_all_kept_witness :
  top_k_clinics 10 stable_kind example_map ≡ₚ unique (omap org_name example_map) /\
  restrict_to (top_k_clinics 10 stable_kind example_map) example_map
  = filter (fun r => is_Some (org_name r)) example_map.
Proof. apply (few_clinics_all_kept 10 stable_kind example_map). vm_compute. lia. Defined.

Lemma joins_sym r m x : joins r m x -> joins r x m.
Proof. intros (c & E & Hj). exists c. tauto. Qed.

Lemma elem_of_patients (rows : list cohort_row) m :
  m ∈ unique (map patient_id rows) <-> exists r, r ∈ rows /\ patient_id r = m.
Proof.
  rewrite elem_of_unique. change (map ?f ?l) with (f <$> l).
  rewrite list_elem_of_fmap. split; intros (r & ? & ?); exists r; auto.
Qed.

Lemma clinic_rows_restricted top cohort_map c :
  c ∈ top -> clinic_rows cohort_map c <> [] ->
  exists r, r ∈ restrict_to top cohort_map /\ org_name r = Some c.
Proof.
  intros Hc Hne. apply clinic_rows_nonempty, list_elem_of_omap in Hne.
  destruct Hne as (r & Hr & E). exists r. split; [|exact E].
  apply elem_of_restrict_to. eauto.
Qed.

(** X4. The graph is undirected and has no isolated node: its nodes are
    the selected clinics and the patients of the restricted frame, and each
    of them is an end of some edge, whatever [k] and the sorting algorithm.
    When no patient identifier is also a clinic name, no node is joined to
    itself. *)
Theorem graph_has_no_isolated_node (k : nat) (kind : sort_kind) (cohort_map : list cohort_row) :
  let top := top_k_clinics k kind cohort_map in
  let G := build_graph_k k kind cohort_map in
  (forall u v, has_edge G u v = has_edge G v u) /\
  (forall n, is_Some (g_node G !! n) <->
     n ∈ top \/ exists r, r ∈ restrict_to top cohort_map /\ patient_id r = n) /\
  (forall n, is_Some (g_node G !! n) -> exists m, has_edge G n m = true) /\
  (ids_apart cohort_map -> forall n, has_edge G n n = false).
Proof.
  intros top G. split; [|split; [|split]].
  - intros u v. apply eq_true_iff_eq. unfold G, build_graph_k.
    rewrite !built_has_edge. split; intros (r & Hr & Hj); exists r; auto using joins_sym.
  - intros n. unfold G, build_graph_k. rewrite built_nodes, elem_of_patients. reflexivity.
  - intros n Hn. unfold G, build_graph_k in *. apply built_nodes in Hn.
    destruct Hn as [Hn|Hn].
    + destruct (clinic_rows_restricted top cohort_map n Hn (top_k_occurs _ _ _ _ Hn))
        as (r & Hr & E).
      exists (patient_id r). apply built_has_edge. exists r. split; [exact Hr|].
      exists n. auto.
    + apply elem_of_patients in Hn as (r & Hr & <-).
      pose proof Hr as Hr'. apply elem_of_restrict_to in Hr' as (_ & c & E & _).
      exists c. apply built_has_edge. exists r. split; [exact Hr|]. exists c. auto.
  - intros Hapart n. apply not_true_is_false. unfold G, build_graph_k.
    rewrite built_has_edge. intros (r & Hr & c & E & Hj).
    apply elem_of_restrict_to in Hr as [Hr _].
    apply (Hapart r r Hr Hr). rewrite E. f_equal. destruct Hj as [[-> ->]|[-> ->]]; reflexivity.
Qed.

Lemma graph_has_no_isolated_node_witness :
  has_edge (build_graph stable_kind example_map) "p2" "p2" = false.
Proof.
  apply (graph_has_no_isolated_node 10 stable_kind example_map).
  apply ids_apart_Forall. repeat (apply Forall_cons_2 || apply Forall_nil_2); discriminate.
Defined.

Lemma patient_count_rows kind cohort_map c :
  patient_count kind cohort_map c
  = match clinic_rows cohort_map c with
    | [] => None
    | _ => Some (Z.of_nat (length (clinic_rows cohort_map c)))
    end.
Proof.
  unfold patient_count.
  destruct (head (filter _ (clinic_patient_counts kind cohort_map))) as [[c' n]|] eqn:E.
  - apply head_Some_elem_of, list_elem_of_filter in E as [Hc Hin]. cbn [fst] in Hc. subst c'.
    apply elem_of_clinic_counts in Hin as [-> Hne].
    destruct (clinic_rows cohort_map c); [contradiction|reflexivity].
  - apply head_None in E.
    destruct (clinic_rows cohort_map c) as [|r0 l0] eqn:Er; [reflexivity|]. exfalso.
    assert (Hin : (c, Z.of_nat (length (clinic_rows cohort_map c)))
                  ∈ filter (fun row : string * Z => row.1 = c)
                      (clinic_patient_counts kind cohort_map)).
    { apply list_elem_of_filter. split; [reflexivity|].
      apply elem_of_clinic_counts. split; [reflexivity|]. now rewrite Er. }
    rewrite E in Hin. now apply elem_of_nil in Hin.
Qed.

(** X5. The loop that draws the nodes finds what it looks up for every
    node of the graph: no node lacks its [node_type], a clinic node always
    has a row in [clinic_patient_counts] and a patient node a row in the
    restricted frame.  A node that is the patient of some restricted row is
    drawn blue with size 5; any other node is a selected clinic, drawn red
    with half the number of its rows in [cohort_map] as its size. *)
Theorem node_markers_never_fail (k : nat) (kind : sort_kind) (cohort_map : list cohort_row)
    (node : string) :
  is_Some (g_node (build_graph_k k kind cohort_map) !! node) ->
  node_marker k kind cohort_map node
  = inr (if decide (node ∈ patient_id
                      <$> restrict_to (top_k_clinics k kind cohort_map) cohort_map)
         then {| node_color := "blue"; node_size := (5%Z, 1%Z) |}
         else {| node_color := "red";
                 node_size := (Z.of_nat (length (clinic_rows cohort_map node)), 2%Z) |}).
Proof.
  intros Hn. unfold node_marker, build_graph_k in *. rewrite built_node_type.
  apply built_nodes in Hn.
  change (map patient_id ?l) with (patient_id <$> l) in *.
  destruct (decide (node ∈ unique (patient_id <$> _))) as [Hp|Hp];
    rewrite elem_of_unique in Hp.
  - rewrite decide_False by discriminate. rewrite (decide_True _ _ Hp).
    unfold patient_info.
    destruct (head (filter _ _)) as [r|] eqn:E; [reflexivity|]. exfalso.
    apply head_None in E. apply list_elem_of_fmap in Hp as (r & -> & Hr).
    assert (Hin : r ∈ filter (fun r' => patient_id r' = patient_id r)
                      (restrict_to (top_k_clinics k kind cohort_map) cohort_map))
      by (apply list_elem_of_filter; auto).
    rewrite E in Hin. now apply elem_of_nil in Hin.
  - rewrite (decide_False _ _ Hp).
    destruct Hn as [Hn|Hn]; [|now rewrite elem_of_unique in Hn].
    rewrite (decide_True _ _ Hn), decide_True by reflexivity.
    rewrite patient_count_rows.
    pose proof (top_k_occurs _ _ _ _ Hn) as Hne.
    destruct (clinic_rows cohort_map node); [contradiction|reflexivity].
Qed.

Lemma node_markers_never_fail_witness :
  node_marker 10 stable_kind example_map "clinicA"
  = inr {| node_color := "red"; node_size := (2%Z, 2%Z) |}.
Proof.
  apply (node_markers_never_fail 10 stable_kind example_map "clinicA").
  vm_compute. eauto.
Defined.

(** X6. The count shown for a clinic is never less than the number of its
    distinct patients, and equals it exactly when no patient has two rows
    at that clinic; when that holds for every clinic, selecting by rows and
    selecting by distinct patients give the same list. *)
Theorem row_counts_bound_distinct_patients (kind : sort_kind) (cohort_map : list cohort_row) :
  (forall c, distinct_patients cohort_map c <= length (clinic_rows cohort_map c)) /\
  (forall c, distinct_patients cohort_map c = length (clinic_rows cohort_map c)
             <-> NoDup (patient_id <$> clinic_rows cohort_map c)) /\
  ((forall c, NoDup (patient_id <$> clinic_rows cohort_map c)) ->
   forall k, top_k_clinics k kind cohort_map = top_k_by_distinct_patients k kind cohort_map).
Proof.
  assert (Hd : forall c, distinct_patients cohort_map c
                         = length (unique (patient_id <$> clinic_rows cohort_map c)))
    by reflexivity.
  split; [|split].
  - intros c. rewrite Hd, <- (length_fmap patient_id (clinic_rows cohort_map c)).
    apply length_unique_le.
  - intros c. rewrite Hd, <- (length_fmap patient_id (clinic_rows cohort_map c)).
    apply length_unique_NoDup.
  - intros Hnd k. unfold top_k_clinics, top_k_by_distinct_patients, clinic_patient_counts,
      value_counts.
    rewrite omap_id_org_name. do 3 f_equal.
    change (map ?f ?l) with (f <$> l). apply list_fmap_ext. intros _ c _. cbv beta.
    rewrite length_occurrences, Hd, unique_NoDup by apply Hnd.
    now rewrite length_fmap.
Qed.

Lemma row_counts_bound_distinct_patients_witness :
  top_k_clinics 10 stable_kind example_map
  = top_k_by_distinct_patients 10 stable_kind example_map.
Proof.
  apply (row_counts_bound_distinct_patients stable_kind example_map).
  intros c. unfold clinic_rows, example_map.
  rewrite !filter_cons, filter_nil.
  repeat (destruct (decide _)); cbn [fmap list_fmap patient_id visit];
    repeat (apply NoDup_cons_2 || apply NoDup_nil_2);
    rewrite ?elem_of_cons, ?elem_of_nil; intuition discriminate.
Defined.

Lemma merge_left_cons e es ps :
  merge_left (e :: es) ps
  = match matches ps e with
    | [] => [merged_row e None]
    | ms => (fun p => merged_row e (Some p)) <$> ms
    end ++ merge_left es ps.
Proof. unfold merge_left, matches. cbn [flat_map]. destruct (filter _ ps); reflexivity. Qed.

Lemma matches_at_most_one ps e :
  NoDup (p_patient_id <$> ps) -> length (matches ps e) <= 1.
Proof.
  unfold matches. induction ps as [|p ps IH]; [simpl; lia|].
  rewrite fmap_cons, NoDup_cons. intros [Hp Hnd]. rewrite filter_cons.
  destruct (decide (p_patient_id p = e_patient_id e)) as [E|E]; [|now apply IH].
  rewrite filter_none; [simpl; lia|].
  intros q Hq Eq. apply Hp. rewrite E, <- Eq. now apply list_elem_of_fmap_2.
Qed.

(** X7. The left merge keeps every episode: each episode gives one row when
    no patient record or exactly one has its identifier, and one row per
    record when several have, so the merged frame is never shorter than
    [episode_df]; every merged row carries the columns of its episode, and
    the clinic and birth date of a patient record with the same identifier,
    or none when there is no such record. *)
Theorem merge_keeps_every_episode (episodes : list episode) (patients : list patient) :
  length (merge_left episodes patients)
    = sum_list ((fun e => 1 `max` length (matches patients e)) <$> episodes) /\
  length episodes <= length (merge_left episodes patients) /\
  (forall r, r ∈ merge_left episodes patients <->
     exists e, e ∈ episodes /\
       ((matches patients e = [] /\ r = merged_row e None) \/
        (exists p, p ∈ patients /\ p_patient_id p = e_patient_id e /\
                   r = merged_row e (Some p)))).
Proof.
  split; [|split].
  - induction episodes as [|e es IH]; [reflexivity|].
    rewrite merge_left_cons, length_app, IH, fmap_cons. cbn [sum_list sum_list_with].
    destruct (matches patients e) as [|p ms]; [reflexivity|].
    rewrite length_fmap. cbn [length]. unfold id. lia.
  - induction episodes as [|e es IH]; [simpl; lia|].
    rewrite merge_left_cons, length_app. cbn [length].
    destruct (matches patients e) as [|p ms]; [simpl; lia|].
    rewrite length_fmap. cbn [length]. lia.
  - intros r. induction episodes as [|e es IH].
    + split; [intros Hr; now apply elem_of_nil in Hr|].
      intros (e & He & _). now apply elem_of_nil in He.
    + rewrite merge_left_cons, elem_of_app, IH. clear IH. split.
      * intros [Hr|(e' & He' & Hr)].
        -- exists e. split; [apply list_elem_of_here|].
           destruct (matches patients e) as [|p ms] eqn:E.
           ++ left. apply list_elem_of_singleton in Hr. auto.
           ++ right. apply list_elem_of_fmap in Hr as (q & -> & Hq).
              rewrite <- E in Hq. apply list_elem_of_filter in Hq as [Hid Hq]. eauto.
        -- exists e'. split; [now apply list_elem_of_further|exact Hr].
      * intros (e' & He' & Hr). apply elem_of_cons in He' as [->|He']; [|right; eauto].
        left. destruct Hr as [[E ->]|(p & Hp & Hid & ->)].
        -- rewrite E. apply list_elem_of_here.
        -- assert (Hin : p ∈ matches patients e) by (apply list_elem_of_filter; auto).
           destruct (matches patients e) as [|p0 ms] eqn:E; [now apply elem_of_nil in Hin|].
           apply list_elem_of_fmap. eauto.
Qed.

Lemma merge_one_row_per_episode (episodes : list episode) (patients : list patient) :
  NoDup (p_patient_id <$> patients) ->
  merge_left episodes patients
  = (fun e => merged_row e (head (matches patients e))) <$> episodes.
Proof.
  intros Hnd. induction episodes as [|e es IH]; [reflexivity|].
  rewrite merge_left_cons, fmap_cons, IH.
  pose proof (matches_at_most_one patients e Hnd) as Hlen.
  destruct (matches patients e) as [|p [|p' ms]]; [reflexivity|reflexivity|].
  cbn [length] in Hlen. lia.
Qed.

(** X8. When no two patient records share an identifier, the merge is row
    for row: the merged frame has one row per episode, in the order of
    [episode_df], each with the columns of the one patient record found for
    it, or with missing patient columns; it is as long as [episode_df]. *)
Theorem merge_row_for_row (episodes : list episode) (patients : list patient) :
  NoDup (p_patient_id <$> patients) ->
  merge_left episodes patients
  = (fun e => merged_row e (head (matches patients e))) <$> episodes /\
  length (merge_left episodes patients) = length episodes.
Proof.
  intros Hnd. rewrite (merge_one_row_per_episode _ _ Hnd). split; [reflexivity|].
  apply length_fmap.
Qed.

Lemma merge_row_for_row_witness :
  merge_left many_episodes many_patients
  = (fun e => merged_row e (head (matches many_patients e))) <$> many_episodes.
Proof.
  apply (merge_row_for_row many_episodes many_patients).
  apply (bool_decide_unpack _). vm_compute. exact I.
Defined.

Lemma restrict_to_same top cohort_map cohort_map' :
  (forall r, r ∈ cohort_map <-> r ∈ cohort_map') ->
  forall r, r ∈ restrict_to top cohort_map <-> r ∈ restrict_to top cohort_map'.
Proof. intros Hsame r. rewrite !elem_of_restrict_to, Hsame. reflexivity. Qed.

(** The graph is a function of the set of rows of the frame: the order of
    the rows and their repetitions leave nodes, types and neighbourhoods
    as they are. *)
Lemma built_same_rows top cohort_map cohort_map' :
  (forall r, r ∈ cohort_map <-> r ∈ cohort_map') ->
  (forall n, is_Some (g_node (build_graph_from top cohort_map) !! n)
             <-> is_Some (g_node (build_graph_from top cohort_map') !! n)) /\
  (forall n, node_type (build_graph_from top cohort_map) n
             = node_type (build_graph_from top cohort_map') n) /\
  g_adj (build_graph_from top cohort_map) = g_adj (build_graph_from top cohort_map').
Proof.
  intros Hsame. pose proof (restrict_to_same top _ _ Hsame) as Hrows.
  assert (Hpat : forall m, m ∈ unique (map patient_id (restrict_to top cohort_map))
                   <-> m ∈ unique (map patient_id (restrict_to top cohort_map'))).
  { intros m. rewrite !elem_of_patients. split; intros (r & Hr & E); exists r;
      (split; [now apply Hrows|exact E]). }
  assert (Hnodes : forall n, is_Some (g_node (build_graph_from top cohort_map) !! n)
             <-> is_Some (g_node (build_graph_from top cohort_map') !! n)).
  { intros n. rewrite !built_nodes, Hpat. reflexivity. }
  split; [exact Hnodes|]. split.
  - intros n. rewrite !built_node_type.
    destruct (decide (n ∈ unique (map patient_id (restrict_to top cohort_map)))) as [Hp|Hp];
      rewrite Hpat in Hp.
    + now rewrite (decide_True _ _ Hp).
    + now rewrite (decide_False _ _ Hp).
  - apply map_eq. intros n.
    pose proof (built_consistent top cohort_map n) as Hc.
    pose proof (built_consistent top cohort_map' n) as Hc'.
    specialize (Hnodes n). rewrite <- !not_eq_None_Some in Hnodes.
    assert (Hnb : neighbors (build_graph_from top cohort_map) n
                  = neighbors (build_graph_from top cohort_map') n).
    { apply set_eq. intros x. rewrite !built_neighbors.
      split; intros (r & Hr & Hj); exists r; (split; [now apply Hrows|exact Hj]). }
    unfold neighbors in Hnb.
    destruct (g_adj (build_graph_from top cohort_map) !! n) as [nb|] eqn:E,
             (g_adj (build_graph_from top cohort_map') !! n) as [nb'|] eqn:E'.
    + f_equal. exact Hnb.
    + exfalso. pose proof (proj1 Hc' eq_refl) as En'.
      destruct (g_node (build_graph_from top cohort_map) !! n) eqn:En.
      * apply (proj1 Hnodes); [discriminate|exact En'].
      * pose proof (proj2 Hc eq_refl). discriminate.
    + exfalso. pose proof (proj1 Hc eq_refl) as En.
      destruct (g_node (build_graph_from top cohort_map') !! n) eqn:En'.
      * apply (proj2 Hnodes); [discriminate|exact En].
      * pose proof (proj2 Hc' eq_refl). discriminate.
    + reflexivity.
Qed.

Lemma number_of_nodes_same G G' :
  (forall n, is_Some (g_node G !! n) <-> is_Some (g_node G' !! n)) ->
  number_of_nodes G = number_of_nodes G'.
Proof.
  intros Hnodes. unfold number_of_nodes. rewrite <- !size_dom. f_equal.
  apply set_eq. intros n. rewrite !elem_of_dom. apply Hnodes.
Qed.

Lemma clinic_counts_same_rows kind kind' cohort_map cohort_map' :
  cohort_map ≡ₚ cohort_map' ->
  NoDup (snd <$> clinic_patient_counts kind cohort_map) ->
  clinic_patient_counts kind' cohort_map' = clinic_patient_counts kind cohort_map.
Proof.
  intros Hperm Hnd. symmetry. apply (descending_unique snd); [exact Hnd| |
    apply clinic_counts_descending|apply clinic_counts_descending].
  rewrite !clinic_counts_perm.
  assert (Hlen : forall c, length (clinic_rows cohort_map c)
                           = length (clinic_rows cohort_map' c)).
  { intros c. apply Permutation_length. unfold clinic_rows. now rewrite Hperm. }
  rewrite (list_fmap_ext _ (fun c => (c, Z.of_nat (length (clinic_rows cohort_map' c)))) _)
    by (intros _ c _; cbv beta; now rewrite Hlen).
  apply fmap_Permutation, NoDup_Permutation; [apply NoDup_unique|apply NoDup_unique|].
  intros c. rewrite !elem_of_unique, !list_elem_of_omap.
  split; intros (r & Hr & E); exists r; (split; [|exact E]).
  - now rewrite <- Hperm.
  - now rewrite Hperm.
Qed.

(** X9. When no two clinics have the same count, the selection and the
    graph depend neither on the order of the rows of [cohort_map] nor on
    the sorting algorithm: reordering the rows gives the same selected
    clinics in the same order, the same nodes with the same types, the same
    edges, and the same numbers of nodes and edges. *)
Theorem graph_ignores_row_order (k : nat) (kind kind' : sort_kind)
    (cohort_map cohort_map' : list cohort_row) :
  cohort_map ≡ₚ cohort_map' ->
  NoDup (snd <$> clinic_patient_counts kind cohort_map) ->
  top_k_clinics k kind' cohort_map' = top_k_clinics k kind cohort_map /\
  (forall n, node_type (build_graph_k k kind' cohort_map') n
             = node_type (build_graph_k k kind cohort_map) n) /\
  (forall u v, has_edge (build_graph_k k kind' cohort_map') u v
               = has_edge (build_graph_k k kind cohort_map) u v) /\
  number_of_nodes (build_graph_k k kind' cohort_map')
    = number_of_nodes (build_graph_k k kind cohort_map) /\
  number_of_edges (build_graph_k k kind' cohort_map')
    = number_of_edges (build_graph_k k kind cohort_map).
Proof.
  intros Hperm Hnd.
  assert (Htop : top_k_clinics k kind' cohort_map' = top_k_clinics k kind cohort_map)
    by (unfold top_k_clinics; now rewrite (clinic_counts_same_rows kind kind' _ _ Hperm Hnd)).
  split; [exact Htop|]. unfold build_graph_k. rewrite Htop.
  destruct (built_same_rows (top_k_clinics k kind cohort_map) cohort_map' cohort_map)
    as (Hnodes & Htypes & Hadj).
  { intros r. now rewrite Hperm. }
  split; [exact Htypes|]. split; [|split].
  - intros u v. unfold has_edge. now rewrite Hadj.
  - now apply number_of_nodes_same.
  - unfold number_of_edges, degree_sum. now rewrite Hadj.
Qed.

Lemma graph_ignores_row_order_witness :
  top_k_clinics 1 reversing_kind (reverse example_map) = top_k_clinics 1 stable_kind example_map /\
  number_of_edges (build_graph_k 1 reversing_kind (reverse example_map))
    = number_of_edges (build_graph_k 1 stable_kind example_map).
Proof.
  assert (Hperm : example_map ≡ₚ reverse example_map) by (symmetry; apply reverse_Permutation).
  assert (Hnd : NoDup (snd <$> clinic_patient_counts stable_kind example_map))
    by (apply (bool_decide_unpack _); vm_compute; exact I).
  split;
    apply (graph_ignores_row_order 1 stable_kind reversing_kind example_map
             (reverse example_map) Hperm Hnd).
Defined.

Lemma elem_of_nodes_of_type G ty n :
  n ∈ nodes_of_type G ty <-> node_type G n = Some ty.
Proof.
  unfold nodes_of_type, node_type. rewrite elem_of_dom. unfold is_Some.
  setoid_rewrite map_lookup_filter_Some. cbn [snd].
  destruct (g_node G !! n) as [attrs|]; cbn.
  - split; [intros (a & [= <-] & E); exact E|intros E; eauto].
  - split; [intros (a & [=] & _)|discriminate].
Qed.

(** X10. The patient-typed nodes are the patients of the restricted frame.
    When no patient identifier is also a clinic name, the clinic-typed
    nodes are the selected clinics, and the graph has one node per selected
    clinic and one per distinct patient of the restricted frame. *)
Theorem graph_node_count (k : nat) (kind : sort_kind) (cohort_map : list cohort_row) :
  nodes_of_type (build_graph_k k kind cohort_map) "patient"
    = list_to_set (patient_id <$> restrict_to (top_k_clinics k kind cohort_map) cohort_map) /\
  (ids_apart cohort_map ->
   nodes_of_type (build_graph_k k kind cohort_map) "clinic"
     = list_to_set (top_k_clinics k kind cohort_map) /\
   number_of_nodes (build_graph_k k kind cohort_map)
     = length (top_k_clinics k kind cohort_map)
       + length (unique (patient_id
                           <$> restrict_to (top_k_clinics k kind cohort_map) cohort_map))).
Proof.
  set (top := top_k_clinics k kind cohort_map).
  set (patients := unique (patient_id <$> restrict_to top cohort_map)).
  assert (Hty : forall n, node_type (build_graph_k k kind cohort_map) n
                  = if decide (n ∈ patients) then Some "patient"
                    else if decide (n ∈ top) then Some "clinic" else None)
    by (intros n; apply built_node_type).
  split.
  - apply set_eq. intros n. rewrite elem_of_nodes_of_type, Hty, elem_of_list_to_set.
    unfold patients. rewrite <- (elem_of_unique (patient_id <$> _)).
    destruct (decide _) as [Hp|Hp]; [tauto|].
    destruct (decide (n ∈ top)); split; (discriminate || contradiction).
  - intros Hapart.
    assert (Hdisj : forall n, n ∈ top -> n ∉ patients).
    { intros n Hn Hp. unfold patients in Hp.
      apply elem_of_patients in Hp as (r & Hr & <-).
      apply elem_of_restrict_to in Hr as [Hr _].
      pose proof (top_k_occurs _ _ _ _ Hn) as Hne.
      apply clinic_rows_nonempty, list_elem_of_omap in Hne as (r' & Hr' & E).
      exact (Hapart r r' Hr Hr' E). }
    split.
    + apply set_eq. intros n. rewrite elem_of_nodes_of_type, Hty, elem_of_list_to_set.
      destruct (decide (n ∈ patients)) as [Hp|Hp].
      * split; [discriminate|]. intros Hn. exfalso. exact (Hdisj n Hn Hp).
      * destruct (decide (n ∈ top)); split; (discriminate || contradiction || auto).
    + unfold number_of_nodes. rewrite <- size_dom.
      assert (Hdom : dom (g_node (build_graph_k k kind cohort_map))
                     = (list_to_set top ∪ list_to_set patients : gset string)).
      { apply set_eq. intros n. rewrite elem_of_dom, elem_of_union, !elem_of_list_to_set.
        apply built_nodes. }
      rewrite Hdom, size_union.
      * rewrite !size_list_to_set; [reflexivity|apply NoDup_unique|apply NoDup_top_k].
      * intros n. rewrite !elem_of_list_to_set. apply Hdisj.
Qed.

Lemma graph_node_count_witness :
  number_of_nodes (build_graph stable_kind example_map) = 2 + 3.
Proof.
  apply (graph_node_count 10 stable_kind example_map).
  apply ids_apart_Forall. repeat (apply Forall_cons_2 || apply Forall_nil_2); discriminate.
Defined.

(** X23. Merged with patient records of distinct identifiers, the count
    shown for a clinic is its number of episodes: every episode of a
    patient registered at the clinic adds one, so a patient with several
    episodes is counted several times. *)
Theorem counts_are_episode_counts (kind : sort_kind) (episodes : list episode)
    (patients : list patient) (clinic : string) :
  NoDup (p_patient_id <$> patients) ->
  length (clinic_rows (merge_left episodes patients) clinic)
    = length (episodes_at patients episodes clinic) /\
  patient_count kind (merge_left episodes patients) clinic
    = match episodes_at patients episodes clinic with
      | [] => None
      | es => Some (Z.of_nat (length es))
      end.
Proof.
  intros Hnd.
  assert (Hlen : length (clinic_rows (merge_left episodes patients) clinic)
                 = length (episodes_at patients episodes clinic)).
  { rewrite (merge_one_row_per_episode _ _ Hnd). unfold clinic_rows, episodes_at.
    induction episodes as [|e es IH]; [reflexivity|].
    rewrite fmap_cons, !filter_cons. cbn [org_name merged_row].
    destruct (decide (head (matches patients e) ≫= p_org_name = Some clinic));
      cbn [length]; now rewrite IH. }
  split; [exact Hlen|].
  rewrite patient_count_rows, Hlen.
  destruct (clinic_rows (merge_left episodes patients) clinic),
           (episodes_at patients episodes clinic); try discriminate; reflexivity.
Qed.

Lemma counts_are_episode_counts_witness :
  patient_count stable_kind (merge_left many_episodes many_patients) "c11" = Some 12%Z.
Proof.
  apply (counts_are_episode_counts stable_kind many_episodes many_patients "c11").
  apply (bool_decide_unpack _). vm_compute. exact I.
Defined.

End NetworkMore.

(** ** Further properties of the summary statistics *)

Module AggregatorMore.
Import Sorting SortingFacts Aggregator AggregatorFacts TopTaxa.

Section WithFloat.
Context `{Float64}.

Lemma summary_stats_descending kind (df : list row) :
  StronglySorted (fun r r' => (Count r >= Count r')%Z) (summary_stats kind df).
Proof. apply (sort_values_descending_rows kind Count). Qed.

Lemma Taxa_summary_stats kind (df : list row) :
  Taxa <$> summary_stats kind df ≡ₚ group_keys df.
Proof. now rewrite summary_stats_perm, Taxa_grouped. Qed.

Lemma aggregate_in_summary kind (df : list row) key :
  key ∈ group_keys df -> aggregate df key ∈ summary_stats kind df.
Proof.
  intros Hk. rewrite summary_stats_perm. unfold grouped.
  change (map ?f ?l) with (f <$> l). now apply list_elem_of_fmap_2.
Qed.

(** X11. [top_10_taxa] holds ten rows of the summary, or all of them when
    there are fewer taxa; no taxon appears twice, each row is the aggregate
    of its taxon, and no taxon left out has a larger count than a selected
    one, whatever the sorting algorithm does with equal counts. *)
Theorem top_10_taxa_most_sampled (kind : sort_kind) (df : list row) :
  length (top_10_taxa kind df) = 10 `min` length (group_keys df) /\
  NoDup (Taxa <$> top_10_taxa kind df) /\
  (forall row, row ∈ top_10_taxa kind df ->
     Taxa row ∈ group_keys df /\ row = aggregate df (Taxa row)) /\
  (forall row key, row ∈ top_10_taxa kind df -> key ∈ group_keys df ->
     key ∉ Taxa <$> top_10_taxa kind df ->
     (Count (aggregate df key) <= Count row)%Z).
Proof.
  unfold top_10_taxa. split; [|split; [|split]].
  - rewrite length_take, <- (Permutation_length (Taxa_summary_stats kind df)), length_fmap.
    reflexivity.
  - rewrite fmap_take. eapply sublist_NoDup; [|apply sublist_take].
    rewrite Taxa_summary_stats. apply NoDup_group_keys.
  - intros row Hrow. apply subseteq_take, elem_of_summary_stats in Hrow.
    destruct Hrow as (key & Hkey & ->). auto.
  - intros row key Hrow Hkey Hout.
    pose proof (aggregate_in_summary kind df key Hkey) as Hin.
    rewrite <- (take_drop 10 (summary_stats kind df)) in Hin.
    apply elem_of_app in Hin as [Hin|Hin].
    + exfalso. apply Hout. apply list_elem_of_fmap. exists (aggregate df key). auto.
    + pose proof (summary_stats_descending kind df) as Hs.
      rewrite <- (take_drop 10 (summary_stats kind df)) in Hs.
      pose proof (StronglySorted_app_1_elem_of _ _ _ _ _ Hs Hrow Hin) as Hge.
      cbv beta in Hge. lia.
Qed.

Lemma length_omap_le {A B} (f : A -> option B) (l : list A) :
  length (omap f l) <= length l.
Proof.
  induction l as [|a l IH]; [reflexivity|].
  change (omap f (a :: l)) with (match f a with Some y => y :: omap f l | None => omap f l end).
  destruct (f a); cbn [length]; lia.
Qed.

Lemma length_omap_full {A B} (f : A -> option B) (l : list A) :
  length (omap f l) = length l <-> forall a, a ∈ l -> is_Some (f a).
Proof.
  induction l as [|a l IH].
  - split; [intros _ a Ha; now apply elem_of_nil in Ha|reflexivity].
  - change (omap f (a :: l))
      with (match f a with Some y => y :: omap f l | None => omap f l end).
    pose proof (length_omap_le f l) as Hle.
    destruct (f a) as [b|] eqn:E; cbn [length].
    + split.
      * intros Hlen x Hx. apply elem_of_cons in Hx as [->|Hx]; [rewrite E; eauto|].
        apply IH; [lia|exact Hx].
      * intros Hall. f_equal. apply IH. intros x Hx. apply Hall. now apply list_elem_of_further.
    + split; [lia|]. intros Hall. destruct (Hall a (list_elem_of_here _ _)) as [b Hb].
      congruence.
Qed.

Lemma length_omap_zero {A B} (f : A -> option B) (l : list A) :
  length (omap f l) = 0 <-> forall a, a ∈ l -> f a = None.
Proof.
  induction l as [|a l IH].
  - split; [intros _ a Ha; now apply elem_of_nil in Ha|reflexivity].
  - change (omap f (a :: l))
      with (match f a with Some y => y :: omap f l | None => omap f l end).
    destruct (f a) as [b|] eqn:E; cbn [length].
    + split; [lia|]. intros Hall. specialize (Hall a (list_elem_of_here _ _)). congruence.
    + rewrite IH. split.
      * intros Hall x Hx. apply elem_of_cons in Hx as [->|Hx]; auto.
      * intros Hall x Hx. apply Hall. now apply list_elem_of_further.
Qed.

(** X12. A taxon with rows always has a row in the summary, even when none
    of its rows has a value: its count is then 0.  The count of a taxon is
    at most the number of its rows, equals it exactly when none of them
    lacks the value, and is 0 exactly when all of them do. *)
Theorem count_at_most_group_size (kind : sort_kind) (df : list row) (row : aggregate_row) :
  row ∈ summary_stats kind df ->
  1 <= length (group df (Taxa row)) /\
  (0 <= Count row <= Z.of_nat (length (group df (Taxa row))))%Z /\
  (Count row = Z.of_nat (length (group df (Taxa row)))
   <-> forall r, r ∈ group df (Taxa row) -> is_Some (parameter_value r)) /\
  (Count row = 0%Z <-> forall r, r ∈ group df (Taxa row) -> parameter_value r = None).
Proof.
  intros Hrow. apply elem_of_summary_stats in Hrow as (key & Hkey & ->).
  cbn [Taxa Count aggregate].
  pose proof (length_omap_le parameter_value (group df key)) as Hle.
  split; [|split; [|split]].
  - apply elem_of_group_keys in Hkey as (r & Hr & E).
    assert (Hin : r ∈ group df key) by (apply list_elem_of_filter; auto).
    destruct (group df key); [now apply elem_of_nil in Hin|cbn [length]; lia].
  - lia.
  - rewrite <- length_omap_full. lia.
  - rewrite <- length_omap_zero. lia.
Qed.

End WithFloat.

#[local] Existing Instance grid_stats.

Lemma count_at_most_group_size_witness :
  let df := [ Build_row (H:=grid_stats) (Some "A") None;
              Build_row (H:=grid_stats) (Some "A") None ] in
  (Count (aggregate df "A") = 0%Z <->
   forall r, r ∈ group df (Taxa (aggregate df "A")) -> parameter_value r = None).
Proof.
  intros df.
  apply (count_at_most_group_size stable_kind df (aggregate df "A")).
  vm_compute. apply list_elem_of_here.
Defined.

End AggregatorMore.

(** ** Properties of the yearly richness table *)

Module RichnessFacts.
Import Sorting SortingFacts Richness.

Lemma elem_of_insert_year y l x : x ∈ insert_year y l <-> x = y \/ x ∈ l.
Proof.
  induction l as [|y' l IH]; cbn [insert_year].
  - rewrite list_elem_of_singleton, elem_of_nil. tauto.
  - destruct (y <=? y')%Z; rewrite !elem_of_cons; [tauto|]. rewrite IH. tauto.
Qed.

Lemma insert_year_ascending y l :
  y ∉ l -> StronglySorted Z.lt l -> StronglySorted Z.lt (insert_year y l).
Proof.
  intros Hy Hs. induction Hs as [|y' l Hs IH Hall]; cbn [insert_year].
  - repeat constructor.
  - rewrite not_elem_of_cons in Hy. destruct Hy as [Hne Hy].
    rewrite Forall_forall in Hall.
    destruct (y <=? y')%Z eqn:E.
    + apply Z.leb_le in E. constructor; [now constructor; [|apply Forall_forall]|].
      apply Forall_forall. intros x Hx. apply elem_of_cons in Hx as [->|Hx]; [lia|].
      specialize (Hall x Hx). lia.
    + apply Z.leb_gt in E. constructor; [now apply IH|].
      apply Forall_forall. intros x Hx. apply elem_of_insert_year in Hx as [->|Hx]; auto.
Qed.

Lemma elem_of_sorted_years (l : list Z) x : x ∈ foldr insert_year [] l <-> x ∈ l.
Proof.
  induction l as [|y l IH]; cbn [foldr]; [reflexivity|].
  rewrite elem_of_insert_year, IH, elem_of_cons. reflexivity.
Qed.

Lemma sorted_years_ascending (l : list Z) :
  NoDup l -> StronglySorted Z.lt (foldr insert_year [] l).
Proof.
  induction 1 as [|y l Hy Hnd IH]; cbn [foldr]; [constructor|].
  apply insert_year_ascending; [now rewrite elem_of_sorted_years|exact IH].
Qed.

Lemma elem_of_years df y :
  y ∈ years df <-> exists r, r ∈ df /\ year_collected r = Some y.
Proof.
  unfold years. now rewrite elem_of_sorted_years, elem_of_unique, list_elem_of_omap.
Qed.

Lemma years_ascending df : StronglySorted Z.lt (years df).
Proof. apply sorted_years_ascending, NoDup_unique. Qed.

Lemma elem_of_taxa_of_year df y t :
  t ∈ taxa_of_year df y
  <-> exists r, r ∈ df /\ year_collected r = Some y /\ taxon r = Some t.
Proof.
  unfold taxa_of_year. rewrite list_elem_of_omap. split.
  - intros (r & Hr & E). apply list_elem_of_filter in Hr as [Hy Hr]. eauto.
  - intros (r & Hr & Hy & E). exists r. split; [|exact E].
    apply list_elem_of_filter. auto.
Qed.

Lemma nunique_le_of_subset (l k : list string) :
  (forall x, x ∈ l -> x ∈ k) -> nunique l <= length k.
Proof.
  intros Hsub. unfold nunique. apply submseteq_length, NoDup_submseteq.
  - apply NoDup_unique.
  - intros x Hx. rewrite elem_of_unique in Hx. auto.
Qed.

Lemma length_omap_taxon (l : list sample) : length (omap taxon l) <= length l.
Proof.
  induction l as [|a l IH]; [reflexivity|].
  change (omap taxon (a :: l))
    with (match taxon a with Some y => y :: omap taxon l | None => omap taxon l end).
  destruct (taxon a); cbn [length]; lia.
Qed.

(** X13. The yearly table has one row per year that occurs in the data, in
    strictly ascending order of the year; rows without a year are in no
    group.  The richness of a year is at most the number of rows of that
    year and at most the richness of the whole table; it is 0 exactly when
    no row of the year names its taxon.  The taxa of the dated rows are at
    most as many as the yearly richness values add up to. *)
Theorem richness_per_year (df : list sample) :
  StronglySorted Z.lt (fst <$> unique_taxa_per_year df) /\
  (forall y, y ∈ fst <$> unique_taxa_per_year df
             <-> exists r, r ∈ df /\ year_collected r = Some y) /\
  (forall y n, (y, n) ∈ unique_taxa_per_year df ->
     n <= length (filter (fun r => year_collected r = Some y) df) /\
     n <= nunique (omap taxon df) /\
     (n = 0 <-> forall r, r ∈ df -> year_collected r = Some y -> taxon r = None)) /\
  nunique (omap taxon (filter (fun r => is_Some (year_collected r)) df))
    <= sum_list (snd <$> unique_taxa_per_year df).
Proof.
  assert (Hfst : fst <$> unique_taxa_per_year df = years df).
  { unfold unique_taxa_per_year. change (map ?f ?l) with (f <$> l).
    rewrite <- list_fmap_compose. apply list_fmap_id. }
  split; [|split; [|split]].
  - rewrite Hfst. apply years_ascending.
  - intros y. rewrite Hfst. apply elem_of_years.
  - intros y n Hin. unfold unique_taxa_per_year in Hin.
    change (map ?f ?l) with (f <$> l) in Hin.
    apply list_elem_of_fmap in Hin as (y' & [= -> ->] & Hy).
    split; [|split].
    + etransitivity; [apply ListFacts.length_unique_le|]. apply length_omap_taxon.
    + change (nunique (omap taxon df)) with (length (unique (omap taxon df))).
      apply nunique_le_of_subset. intros t Ht. rewrite elem_of_unique.
      apply elem_of_taxa_of_year in Ht as (r & Hr & _ & E).
      apply list_elem_of_omap. eauto.
    + unfold nunique. split.
      * intros Hz r Hr Hyr. destruct (taxon r) as [t|] eqn:E; [exfalso|reflexivity].
        assert (Ht : t ∈ unique (taxa_of_year df y'))
          by (rewrite elem_of_unique, elem_of_taxa_of_year; eauto).
        destruct (unique (taxa_of_year df y')); [now apply elem_of_nil in Ht|discriminate].
      * intros Hall. destruct (unique (taxa_of_year df y')) as [|t l] eqn:E; [reflexivity|].
        exfalso.
        assert (Ht : t ∈ unique (taxa_of_year df y')) by (rewrite E; apply list_elem_of_here).
        rewrite elem_of_unique, elem_of_taxa_of_year in Ht. destruct Ht as (r & Hr & Hyr & Et).
        rewrite (Hall r Hr Hyr) in Et. discriminate.
  - unfold unique_taxa_per_year. change (map ?f ?l) with (f <$> l).
    rewrite <- list_fmap_compose.
    rewrite (list_fmap_ext _ (length ∘ (fun y => unique (taxa_of_year df y))) (years df))
      by (intros; reflexivity).
    rewrite list_fmap_compose, <- length_join.
    apply nunique_le_of_subset. intros t Ht.
    apply list_elem_of_omap in Ht as (r & Hr & Et).
    apply list_elem_of_filter in Hr as [[y Hy] Hr].
    apply list_elem_of_join. exists (unique (taxa_of_year df y)). split.
    + rewrite elem_of_unique, elem_of_taxa_of_year. eauto.
    + apply (list_elem_of_fmap_2 (fun y => unique (taxa_of_year df y))).
      apply elem_of_years. eauto.
Qed.

End RichnessFacts.

(** ** Properties of the text helpers *)

Module TextFacts.
Import ColumnNormalizer ColumnNormalizerFacts Listing Extract DecodeFacts.

(** A separator after the first segment starts a new segment. *)
Lemma split_first_segment sep p rest :
  has_char sep p = false -> split sep (p +:+ String sep rest) = p :: split sep rest.
Proof.
  induction p as [|c p IH]; intros Hp.
  - rewrite append_empty. cbn [split]. now rewrite Ascii.eqb_refl.
  - cbn [has_char] in Hp. apply orb_false_elim in Hp as [Hc Hp].
    rewrite append_cons. cbn [split]. rewrite Hc, (IH Hp). reflexivity.
Qed.





Lemma join_cons sep p q ps : join sep (p :: q :: ps) = p +:+ sep +:+ join sep (q :: ps).
Proof. reflexivity. Qed.

(** X15. [format_list_column] writes a list of items as one line per item,
    each item after a dash and a space: splitting the text at the line
    breaks gives the items back, in order, when the list is not empty and
    no item holds a line break itself. *)
Theorem bullet_list_lines (items : list string) :
  items <> [] ->
  Forall (fun item => has_char newline item = false) items ->
  split newline (format_list_column (Items items))
  = (fun item => "- " +:+ item) <$> items.
Proof.
  intros Hne Hall. cbn [format_list_column]. change (map ?f ?l) with (f <$> l).
  induction Hall as [|item items Hitem Hall IH]; [contradiction|].
  assert (Hb : has_char newline ("- " +:+ item) = false)
    by (change ("- " +:+ item) with (String "-" (String " " item));
        cbn [has_char]; rewrite Hitem; reflexivity).
  destruct items as [|item' items].
  - cbn [fmap list_fmap join]. now apply split_absent.
  - rewrite !fmap_cons, join_cons.
    change (String newline "" +:+ ?x) with (String newline x).
    rewrite (split_first_segment _ _ _ Hb). f_equal.
    rewrite <- fmap_cons. now apply IH.
Qed.

Lemma bullet_list_lines_witness :
  split newline (format_list_column (Items ["field a"; "field b"]))
  = ["- field a"; "- field b"].
Proof.
  apply (bullet_list_lines ["field a"; "field b"]); [discriminate|].
  repeat (apply Forall_cons_2 || apply Forall_nil_2); reflexivity.
Defined.

Lemma match_start_one_line s : has_char newline s = false -> match_start s = s.
Proof. intros Hs. destruct s; [reflexivity|]. cbn [match_start]. now rewrite Hs. Qed.

Lemma has_char_match_start s : has_char newline (match_start s) = false.
Proof.
  induction s as [|c s IH]; [reflexivity|]. cbn [match_start].
  destruct (has_char newline (String c s)) eqn:E; [exact IH|exact E].
Qed.

Lemma capture_closing_quote x : capture (x +:+ "'") = x.
Proof.
  induction x as [|c x IH]; [reflexivity|].
  rewrite append_cons. cbn [capture]. rewrite IH.
  destruct x; reflexivity.
Qed.

Lemma capture_no_quote x : has_char "'" x = false -> capture x = x.
Proof.
  induction x as [|c x IH]; [reflexivity|]. cbn [has_char]. intros Hx.
  apply orb_false_elim in Hx as [Hc Hx]. cbn [capture]. rewrite Hc, (IH Hx).
  destruct x; reflexivity.
Qed.

Lemma has_char_capture c u : has_char c u = false -> has_char c (capture u) = false.
Proof.
  induction u as [|d u IH]; [reflexivity|]. cbn [has_char]. intros Hu.
  apply orb_false_elim in Hu as [Hd Hu]. cbn [capture].
  destruct u as [|d' u'].
  - destruct (Ascii.eqb d "'"); [reflexivity|]. cbn [has_char]. now rewrite Hd.
  - cbn [has_char] in *. rewrite Hd. now apply IH.
Qed.

Lemma has_char_skip_b_quote c t : has_char c t = false -> has_char c (skip_b_quote t) = false.
Proof.
  intros Ht. unfold skip_b_quote.
  repeat match goal with
  | |- context [match ?x with _ => _ end] => destruct x; try exact Ht
  end.
  cbn [has_char] in Ht. apply orb_false_elim in Ht as [_ Ht].
  apply orb_false_elim in Ht as [_ Ht]. exact Ht.
Qed.

Lemma has_char_closing_quote x :
  has_char newline x = false -> has_char newline (x +:+ "'") = false.
Proof.
  induction x as [|c x IH]; [reflexivity|]. cbn [has_char]. intros Hx.
  apply orb_false_elim in Hx as [Hc Hx].
  rewrite append_cons. cbn [has_char]. now rewrite Hc, IH.
Qed.

(** X16. The extraction of [period_start] always finds a match, and what
    it captures holds no line break.  A one-line text wrapped as the
    printed form of a byte string, [b'...'], is unwrapped; a one-line text
    without any quote comes out unchanged; a missing value stays
    missing. *)
Theorem extract_unwraps_printed_bytes (x : string) :
  has_char newline x = false ->
  extract (Some ("b'" +:+ x +:+ "'")) = Some x /\
  (has_char "'" x = false -> extract (Some x) = Some x) /\
  (forall s, exists t, extract (Some s) = Some t /\ has_char newline t = false) /\
  extract None = None.
Proof.
  intros Hx. split; [|split; [|split]].
  - unfold extract. cbn [mbind option_bind]. rewrite match_start_one_line.
    + change ("b'" +:+ x +:+ "'") with (String "b" (String "'" (x +:+ "'"))).
      cbn [skip_b_quote]. now rewrite capture_closing_quote.
    + change ("b'" +:+ x +:+ "'") with (String "b" (String "'" (x +:+ "'"))).
      cbn [has_char]. rewrite (has_char_closing_quote _ Hx). reflexivity.
  - intros Hq. unfold extract. cbn [mbind option_bind].
    rewrite (match_start_one_line _ Hx).
    assert (Hskip : skip_b_quote x = x).
    { destruct x as [|c [|d x]];
        [reflexivity|destruct c as [[] [] [] [] [] [] [] []]; reflexivity|].
      cbn [has_char] in Hq. apply orb_false_elim in Hq as [_ Hq].
      apply orb_false_elim in Hq as [Hd _].
      unfold skip_b_quote.
      destruct c as [[] [] [] [] [] [] [] []]; try reflexivity.
      destruct d as [[] [] [] [] [] [] [] []]; try reflexivity. discriminate. }
    now rewrite Hskip, capture_no_quote.
  - intros s. eexists. split; [reflexivity|].
    apply has_char_capture, has_char_skip_b_quote, has_char_match_start.
  - reflexivity.
Qed.

Lemma extract_unwraps_printed_bytes_witness :
  extract (Some "b'2021-01-15'") = Some "2021-01-15" /\
  extract (Some "2021-01-15") = Some "2021-01-15".
Proof.
  split.
  - apply (extract_unwraps_printed_bytes "2021-01-15"); reflexivity.
  - apply (extract_unwraps_printed_bytes "2021-01-15"); reflexivity.
Defined.

End TextFacts.

(** ** Further properties of the decoding *)

Module DecodeMore.
Import Decode Decoded DecodeFacts.

Lemma chars_cons a s :
  list_ascii_of_string (String a s) = a :: list_ascii_of_string s.
Proof. reflexivity. Qed.

Lemma utf8_decode_ignore_sublist_aux n :
  forall s t, String.length s <= n -> utf8_decode Ignore s = Ok t ->
  list_ascii_of_string t `sublist_of` list_ascii_of_string s.
Proof.
  induction n as [|n IH]; intros s t Hlen.
  - destruct s; [intros [= <-]; constructor|simpl in Hlen; lia].
  - destruct s as [|b0 r0]; [intros [= <-]; constructor|].
    cbn [utf8_decode]. utf8_split; unfold keep, on_error; intros Hdec;
    try match type of Hdec with
    | context [utf8_decode Ignore ?r] =>
        let E := fresh "E" in
        destruct (utf8_decode Ignore r) as [t'|] eqn:E; cbn [mbind result_bind] in Hdec;
        [pose proof (IH r t' ltac:(simpl in *; lia) E)|discriminate]
    end;
    injection Hdec as <-;
    rewrite ?append_cons, ?append_empty, ?chars_cons;
    repeat first [assumption | apply sublist_nil_l | apply sublist_skip | apply sublist_cons].
Qed.

Lemma utf8_decode_ignore_sublist s t :
  utf8_decode Ignore s = Ok t ->
  list_ascii_of_string t `sublist_of` list_ascii_of_string s.
Proof. apply (utf8_decode_ignore_sublist_aux (String.length s)). lia. Qed.

Lemma length_chars s : length (list_ascii_of_string s) = String.length s.
Proof. induction s as [|a s IH]; [reflexivity|]. cbn. now rewrite IH. Qed.

(** X17. Decoding with [errors="ignore"] never raises and only deletes
    bytes: the text it returns is a subsequence of the bytes it was given,
    so it is never longer, and it is the input itself exactly when strict
    decoding of the input would succeed. *)
Theorem ignore_only_drops_bytes (b : string) :
  exists t, utf8_decode Ignore b = Ok t /\
    list_ascii_of_string t `sublist_of` list_ascii_of_string b /\
    String.length t <= String.length b /\
    (t = b <-> utf8_decode Strict b = Ok b).
Proof.
  destruct (utf8_decode_ignore_valid b) as (t & Hdec & Hvalid).
  exists t. split; [exact Hdec|].
  pose proof (utf8_decode_ignore_sublist b t Hdec) as Hsub.
  split; [exact Hsub|]. split.
  - rewrite <- !length_chars. now apply sublist_length.
  - split.
    + intros <-. exact Hvalid.
    + intros Hstrict. apply utf8_decode_strict in Hstrict as [_ Hign]. congruence.
Qed.

Lemma classify_ascii b : (byte_val b < 128)%N -> classify b = OneByte.
Proof. intros Hb. unfold classify. apply N.ltb_lt in Hb. now rewrite Hb. Qed.

(** X18. A byte string of ASCII bytes only decodes to itself, with either
    error handler. *)
Theorem ascii_decodes_unchanged (errors : error_handler) (b : string) :
  Forall (fun c => (byte_val c < 128)%N) (list_ascii_of_string b) ->
  utf8_decode errors b = Ok b /\
  decode_if_bytes (Bytes b) = Ok (Str b) /\
  decode_strict_if_bytes (Bytes b) = Ok (Str b).
Proof.
  intros Hall.
  assert (Hdec : forall errors, utf8_decode errors b = Ok b).
  { clear errors. intros errors. induction b as [|c b IH]; [reflexivity|].
    rewrite chars_cons in Hall. apply Forall_cons in Hall as [Hc Hall].
    cbn [utf8_decode]. rewrite (classify_ascii c Hc), (IH Hall). reflexivity. }
  split; [apply Hdec|]. unfold decode_if_bytes, decode_strict_if_bytes.
  now rewrite !Hdec.
Qed.

Lemma ascii_decodes_unchanged_witness :
  decode_strict_if_bytes (Bytes "2021-01-15") = Ok (Str "2021-01-15").
Proof.
  apply (ascii_decodes_unchanged Strict "2021-01-15").
  repeat (apply Forall_cons_2 || apply Forall_nil_2); reflexivity.
Defined.

Lemma apply_Ok f column ys :
  apply f column = Ok ys <-> Forall2 (fun x y => f x = Ok y) column ys.
Proof.
  revert ys. induction column as [|x column IH]; intros ys; cbn [apply].
  - split; [intros [= <-]; constructor|intros Hall; now inversion Hall].
  - destruct (f x) as [y|e] eqn:E; cbn [mbind result_bind].
    + destruct (apply f column) as [ys'|e] eqn:E'; cbn [mbind result_bind].
      * split.
        -- intros [= <-]. constructor; [exact E|now apply IH].
        -- intros Hall. inversion Hall as [|? y' ? ys'' Hy Hrest]; subst.
           apply IH in Hrest. congruence.
      * split; [discriminate|]. intros Hall.
        inversion Hall as [|? y' ? ys'' Hy Hrest]; subst.
        apply IH in Hrest. discriminate.
    + split; [discriminate|]. intros Hall.
      inversion Hall as [|? y' ? ys'' Hy Hrest]; subst. congruence.
Qed.

(** A cell the strict lambda accepts: anything but an ill-formed byte
    string. *)
Lemma decode_strict_if_bytes_Ok x :
  (exists y, decode_strict_if_bytes x = Ok y)
  <-> forall b, x = Bytes b -> utf8_decode Strict b = Ok b.
Proof.
  destruct x as [s|b|z|]; cbn [decode_strict_if_bytes];
    try solve [split; [intros _ b' [=]|eauto]].
  destruct (utf8_decode Strict b) as [t|e] eqn:E; cbn [mbind result_bind].
  - pose proof (utf8_decode_strict _ _ E) as [-> _].
    split; [intros _ b' [= <-]; exact E|eauto].
  - split; [intros [y [=]]|]. intros Hb. specialize (Hb b eq_refl). congruence.
Qed.

Lemma apply_strict_Ok column :
  (exists ys, apply decode_strict_if_bytes column = Ok ys)
  <-> Forall (fun x => forall b, x = Bytes b -> utf8_decode Strict b = Ok b) column.
Proof.
  induction column as [|x column IH]; cbn [apply].
  - split; [constructor|eauto].
  - rewrite Forall_cons, <- IH, <- decode_strict_if_bytes_Ok.
    destruct (decode_strict_if_bytes x) as [y|e]; cbn [mbind result_bind].
    + destruct (apply decode_strict_if_bytes column) as [ys|e]; cbn [mbind result_bind].
      * split; eauto.
      * split; [intros [? [=]]|intros [_ [? [=]]]].
    + split; [intros [? [=]]|intros [[? [=]] _]].
Qed.

Lemma apply_decoded (f : value -> result value) column ys :
  (forall x y, f x = Ok y -> ~ is_bytes y) ->
  apply f column = Ok ys -> length ys = length column /\ Forall (fun y => ~ is_bytes y) ys.
Proof.
  intros Hf Happ. apply apply_Ok in Happ.
  induction Happ as [|x y column ys Hxy _ [IHlen IHall]]; [split; [reflexivity|constructor]|].
  split; [cbn [length]; now rewrite IHlen|]. constructor; [now apply (Hf x)|exact IHall].
Qed.

Lemma decode_strict_if_bytes_decoded x y :
  decode_strict_if_bytes x = Ok y -> ~ is_bytes y.
Proof.
  destruct x as [s|b|z|]; cbn [decode_strict_if_bytes]; try (intros [= <-]; exact id).
  destruct (utf8_decode Strict b); cbn [mbind result_bind]; [|discriminate].
  intros [= <-]. exact id.
Qed.

Lemma decode_if_bytes_decoded x y : decode_if_bytes x = Ok y -> ~ is_bytes y.
Proof.
  destruct x as [s|b|z|]; cbn [decode_if_bytes]; try (intros [= <-]; exact id).
  destruct (utf8_decode Ignore b); cbn [mbind result_bind]; [|discriminate].
  intros [= <-]. exact id.
Qed.

(** X19. Decoding the patient columns succeeds exactly when every byte
    string of [identifier_value] is well-formed UTF-8, whatever
    [birthDate] and [contact_organization_display] hold; decoding the
    episode columns succeeds exactly when that is so for both
    [patient_reference] and [period_start].  On success every column keeps
    its length and no byte string is left in it. *)
Theorem decoding_succeeds_iff_keys_well_formed (df : patient_columns) (ef : episode_columns) :
  ((exists out, decode_patient_columns df = Ok out)
   <-> Forall (fun x => forall b, x = Bytes b -> utf8_decode Strict b = Ok b)
              (identifier_value df)) /\
  ((exists out, decode_episode_columns ef = Ok out)
   <-> Forall (fun x => forall b, x = Bytes b -> utf8_decode Strict b = Ok b)
              (patient_reference ef ++ period_start ef)) /\
  (forall out, decode_patient_columns df = Ok out ->
     length (patient_id_col out) = length (identifier_value df) /\
     length (birthDate_col out) = length (birthDate_raw df) /\
     length (org_name_col out) = length (contact_organization_display df) /\
     Forall (fun y => ~ is_bytes y)
            (patient_id_col out ++ birthDate_col out ++ org_name_col out)) /\
  (forall ids starts, decode_episode_columns ef = Ok (ids, starts) ->
     length ids = length (patient_reference ef) /\
     length starts = length (period_start ef) /\
     Forall (fun y => ~ is_bytes y) (ids ++ starts)).
Proof.
  split; [|split; [|split]].
  - rewrite <- apply_strict_Ok. unfold decode_patient_columns.
    destruct (apply decode_strict_if_bytes (identifier_value df)) as [ids|e];
      cbn [mbind result_bind]; [|split; intros [? [=]]].
    destruct (apply_decode_if_bytes_total (birthDate_raw df)) as (births & ->).
    destruct (apply_decode_if_bytes_total (contact_organization_display df)) as (orgs & ->).
    cbn [mbind result_bind]. split; eauto.
  - rewrite Forall_app, <- !apply_strict_Ok. unfold decode_episode_columns.
    destruct (apply decode_strict_if_bytes (patient_reference ef)) as [ids|e];
      cbn [mbind result_bind]; [|split; [intros [? [=]]|intros [[? [=]] _]]].
    destruct (apply decode_strict_if_bytes (period_start ef)) as [starts|e];
      cbn [mbind result_bind]; [split; eauto|].
    split; [intros [? [=]]|intros [_ [? [=]]]].
  - intros out. unfold decode_patient_columns.
    destruct (apply decode_strict_if_bytes (identifier_value df)) as [ids|e] eqn:E1;
      cbn [mbind result_bind]; [|discriminate].
    destruct (apply decode_if_bytes (birthDate_raw df)) as [births|e] eqn:E2;
      cbn [mbind result_bind]; [|discriminate].
    destruct (apply decode_if_bytes (contact_organization_display df)) as [orgs|e] eqn:E3;
      cbn [mbind result_bind]; [|discriminate].
    intros [= <-]. cbn [patient_id_col birthDate_col org_name_col].
    destruct (apply_decoded _ _ _ decode_strict_if_bytes_decoded E1) as [-> H1].
    destruct (apply_decoded _ _ _ decode_if_bytes_decoded E2) as [-> H2].
    destruct (apply_decoded _ _ _ decode_if_bytes_decoded E3) as [-> H3].
    rewrite !Forall_app. repeat split; assumption || reflexivity.
  - intros ids starts. unfold decode_episode_columns.
    destruct (apply decode_strict_if_bytes (patient_reference ef)) as [ids'|e] eqn:E1;
      cbn [mbind result_bind]; [|discriminate].
    destruct (apply decode_strict_if_bytes (period_start ef)) as [starts'|e] eqn:E2;
      cbn [mbind result_bind]; [|discriminate].
    intros [= <- <-].
    destruct (apply_decoded _ _ _ decode_strict_if_bytes_decoded E1) as [-> H1].
    destruct (apply_decoded _ _ _ decode_strict_if_bytes_decoded E2) as [-> H2].
    rewrite Forall_app. repeat split; assumption || reflexivity.
Qed.

End DecodeMore.

(** ** Further properties of the cohort assigner *)

Module CohortMore.
Import Cohort CohortFacts CohortByDate.
Local Open Scope Z_scope.

(** The scan of the nine windows, with the window dates parsed. *)
Lemma assign_cohort_cases (t : timestamp) :
  assign_cohort (Some t)
  = Ok (if (1604188800000000000 <=? t) && (t <=? 1614470400000000000) then "Cohort 1"
        else if (1614556800000000000 <=? t) && (t <=? 1625011200000000000) then "Cohort 2"
        else if (1625097600000000000 <=? t) && (t <=? 1635638400000000000) then "Cohort 3"
        else if (1635724800000000000 <=? t) && (t <=? 1646006400000000000) then "Cohort 4"
        else if (1646092800000000000 <=? t) && (t <=? 1656547200000000000) then "Cohort 5"
        else if (1656633600000000000 <=? t) && (t <=? 1667174400000000000) then "Cohort 6"
        else if (1667260800000000000 <=? t) && (t <=? 1677542400000000000) then "Cohort 7"
        else if (1677628800000000000 <=? t) && (t <=? 1688083200000000000) then "Cohort 8"
        else if (1688169600000000000 <=? t) && (t <=? 1698710400000000000) then "Cohort 9"
        else "Unassigned").
Proof.
  unfold assign_cohort, assign_cohort_in, cohorts.
  repeat (erewrite scan_cons by (vm_compute; reflexivity)).
  cbn [scan].
  repeat match goal with
  | |- context [if ?c then _ else _] => destruct c
  end; reflexivity.
Qed.

Ltac settle_windows :=
  repeat (match goal with
          | |- context [(?a <=? ?b)%Z] => destruct (Z.leb_spec a b)
          end; try (exfalso; lia); cbn [andb]).

Ltac parse_windows :=
  repeat match goal with
  | |- context [to_datetime ?s] =>
      let v := eval vm_compute in (to_datetime s) in change (to_datetime s) with v
  end;
  lazy beta iota;
  repeat match goal with
  | |- context [day (Zpos ?p)] =>
      let v := eval vm_compute in (day (Zpos p)) in change (day (Zpos p)) with v
  end.

(** The specification's assigner on the nine windows, with the window
    dates as day numbers. *)
Lemma assign_by_date_cases (t : timestamp) :
  assign_by_date cohorts (Some t)
  = if (18567 <=? day t) && (day t <=? 18686) then "Cohort 1"
    else if (18687 <=? day t) && (day t <=? 18808) then "Cohort 2"
    else if (18809 <=? day t) && (day t <=? 18931) then "Cohort 3"
    else if (18932 <=? day t) && (day t <=? 19051) then "Cohort 4"
    else if (19052 <=? day t) && (day t <=? 19173) then "Cohort 5"
    else if (19174 <=? day t) && (day t <=? 19296) then "Cohort 6"
    else if (19297 <=? day t) && (day t <=? 19416) then "Cohort 7"
    else if (19417 <=? day t) && (day t <=? 19538) then "Cohort 8"
    else if (19539 <=? day t) && (day t <=? 19661) then "Cohort 9"
    else "Unassigned".
Proof.
  unfold assign_by_date, cohorts. cbn [find]. unfold holds_date. cbn [fst snd].
  parse_windows.
  repeat match goal with
  | |- context [if ?c then _ else _] => destruct c
  end; reflexivity.
Qed.

Lemma day_bounds t :
  86400000000000 * day t <= t < 86400000000000 * day t + 86400000000000.
Proof. unfold day, ns_per_day. Z.to_euclidean_division_equations. lia. Qed.

(** C1. The code compares the timestamp with the midnights that begin the
    first and the last day of a window, so the last day of a window is in
    it only at midnight.  At 2021-02-28 12:00 the date is a day of Cohort 1
    and the first interval whose inclusive range contains it is Cohort 1,
    yet [assign_cohort] returns "Unassigned"; the same happens later on the
    last day of each of the nine windows.  On every other timestamp, and on
    a missing date, the code returns what the specification asks for: the
    label of the first interval whose inclusive range contains the date, or
    "Unassigned"; 2021-01-15 gives "Cohort 1" and 2019-01-01 gives
    "Unassigned". *)
Theorem assign_cohort_drops_last_day :
  holds_date ("Cohort 1", "2020-11-01", "2021-02-28") noon_2021_02_28 = true /\
  assign_by_date cohorts (Some noon_2021_02_28) = "Cohort 1" /\
  assign_cohort (Some noon_2021_02_28) = Ok "Unassigned" /\
  (forall c e t, c ∈ cohorts -> to_datetime c.2 = Ok e -> e < t < e + ns_per_day ->
     holds_date c t = true /\
     assign_by_date cohorts (Some t) = c.1.1 /\
     assign_cohort (Some t) = Ok "Unassigned") /\
  (forall t,
     (forall c e, c ∈ cohorts -> to_datetime c.2 = Ok e -> ~ e < t < e + ns_per_day) ->
     assign_cohort (Some t) = Ok (assign_by_date cohorts (Some t))) /\
  assign_cohort None = Ok (assign_by_date cohorts None) /\
  (d ← to_datetime "2021-01-15"; assign_cohort (Some d)) = Ok "Cohort 1" /\
  (d ← to_datetime "2019-01-01"; assign_cohort (Some d)) = Ok "Unassigned".
Proof.
  split; [vm_compute; reflexivity|].
  split; [vm_compute; reflexivity|].
  split; [vm_compute; reflexivity|].
  split; [|split; [|split; [reflexivity|split; vm_compute; reflexivity]]].
  - intros c e t Hc He Ht. unfold ns_per_day in Ht.
    rewrite assign_cohort_cases, assign_by_date_cases.
    pose proof (day_bounds t) as Hd.
    unfold cohorts in Hc.
    repeat (apply elem_of_cons in Hc as [->|Hc]);
      [..|now apply elem_of_nil in Hc];
      vm_compute in He; injection He as <-;
      unfold holds_date; cbn [fst snd]; parse_windows;
      generalize dependent (day t); intros q Hd;
      settle_windows; auto.
  - intros t Hout. rewrite assign_cohort_cases, assign_by_date_cases.
    pose proof (day_bounds t) as Hd.
    assert (Hall : Forall (fun c : interval =>
                forall e, to_datetime c.2 = Ok e -> ~ e < t < e + ns_per_day) cohorts)
      by (apply Forall_forall; intros c Hc e; now apply Hout).
    clear Hout. unfold cohorts, ns_per_day in Hall.
    repeat match goal with
    | H : Forall _ (_ :: _) |- _ => rewrite Forall_cons in H; destruct H as [? H]
    end.
    repeat match goal with
    | H : forall e, to_datetime _ = Ok e -> _ |- _ =>
        specialize (H _ ltac:(lazy; reflexivity))
    end.
    generalize dependent (day t). intros q Hd.
    settle_windows; reflexivity.
Qed.

Lemma assign_cohort_label date :
  exists label, assign_cohort date = Ok label /\
    label ∈ ("Unassigned" :: ((fun c : interval => c.1.1) <$> cohorts)).
Proof.
  destruct date as [t|].
  - unfold assign_cohort, assign_cohort_in.
    rewrite (scan_find _ _ cohorts_well_formed).
    eexists. split; [reflexivity|].
    destruct (find _ cohorts) as [c|] eqn:E; [|apply list_elem_of_here].
    apply list_elem_of_further.
    apply (list_elem_of_fmap_2 (fun c : interval => c.1.1)), list_elem_of_In.
    exact (proj1 (find_some _ _ E)).
  - exists "Unassigned". split; [reflexivity|apply list_elem_of_here].
Qed.

(** X20. Assigning the cohorts to a column of dates never raises (the
    dates of all nine windows parse), and gives one label per row, each
    the label of one of the nine windows or "Unassigned"; a missing date
    gives "Unassigned". *)
Theorem cohort_column_total (dates : list (option timestamp)) :
  exists labels, apply_assign dates = Ok labels /\
    Forall2 (fun d l => assign_cohort d = Ok l) dates labels /\
    length labels = length dates /\
    Forall (fun l => l ∈ ("Unassigned" :: ((fun c : interval => c.1.1) <$> cohorts)))
           labels /\
    (forall i, dates !! i = Some None -> labels !! i = Some "Unassigned").
Proof.
  induction dates as [|d dates (labels & Happ & Hall & Hlen & Hin & Hnone)].
  - exists []. repeat split; try constructor. intros i Hi. discriminate.
  - destruct (assign_cohort_label d) as (l & Hl & Hmem).
    exists (l :: labels). cbn [apply_assign]. rewrite Hl, Happ. cbn [mbind result_bind].
    split; [reflexivity|]. split; [now constructor|]. split; [cbn [length]; now rewrite Hlen|].
    split; [now constructor|].
    intros [|i] Hi; [|now apply Hnone].
    injection Hi as ->. cbn in Hl. injection Hl as <-. reflexivity.
Qed.

(** X21. A window ends at midnight that begins its last day: a date later
    on the last day of any window (after its midnight and before the next
    midnight) is in no window and is given "Unassigned". *)
Theorem last_day_after_midnight_unassigned (c : interval) (e t : timestamp) :
  c ∈ cohorts -> to_datetime c.2 = Ok e -> e < t < e + ns_per_day ->
  assign_cohort (Some t) = Ok "Unassigned".
Proof.
  intros Hc He Ht. rewrite assign_cohort_cases. unfold ns_per_day in Ht.
  unfold cohorts in Hc.
  repeat (apply elem_of_cons in Hc as [->|Hc]);
    [..|now apply elem_of_nil in Hc];
    vm_compute in He; injection He as <-; settle_windows; reflexivity.
Qed.

Lemma last_day_after_midnight_unassigned_witness :
  assign_cohort (Some (1614470400000000000 + 12 * 3600 * 1000000000))
  = Ok "Unassigned".
Proof.
  apply (last_day_after_midnight_unassigned
           ("Cohort 1", "2020-11-01", "2021-02-28") 1614470400000000000).
  - apply list_elem_of_here.
  - vm_compute. reflexivity.
  - unfold ns_per_day. lia.
Defined.

(** X22. The nine windows leave out no day between their first and their
    last: midnight of every day from 2020-11-01 to 2023-10-31 is given the
    label of a window, and every date before the first day or after the
    midnight that begins the last day is given "Unassigned". *)
Theorem windows_cover_every_day (d : Z) (t : timestamp) :
  (days_from_civil 2020 11 1 <= d <= days_from_civil 2023 10 31 ->
   exists label, assign_cohort (Some (d * ns_per_day)) = Ok label /\
                 label <> "Unassigned") /\
  (t < days_from_civil 2020 11 1 * ns_per_day \/
   days_from_civil 2023 10 31 * ns_per_day < t ->
   assign_cohort (Some t) = Ok "Unassigned").
Proof.
  remember (days_from_civil 2020 11 1) as d0 eqn:E0. vm_compute in E0. subst d0.
  remember (days_from_civil 2023 10 31) as d1 eqn:E1. vm_compute in E1. subst d1.
  unfold ns_per_day. split.
  - intros Hd. rewrite assign_cohort_cases. eexists. split; [reflexivity|].
    settle_windows; discriminate.
  - intros Ht. rewrite assign_cohort_cases. settle_windows; reflexivity.
Qed.

Lemma windows_cover_every_day_witness :
  (exists label, assign_cohort (Some (18687 * ns_per_day)) = Ok label /\
                 label <> "Unassigned") /\
  assign_cohort (Some 0) = Ok "Unassigned".
Proof.
  split.
  - apply (windows_cover_every_day 18687 0). vm_compute. split; discriminate.
  - apply (windows_cover_every_day 18687 0). left. vm_compute. reflexivity.
Defined.

End CohortMore.
